(** * The request optimizer of SuperClaude (internal/superclaude/optimizer.go)

    A shallow embedding of the optimizer: the response cache, the batch
    collector, the per-command-type dispatch strategies, the worker pool
    and the metrics counters, followed by the properties that the
    specification states about them. *)

From Stdlib Require Import ZArith Lia Ascii.
From Stdlib Require Floats.SpecFloat.
From stdpp Require Import base decidable option list strings gmap fin_maps pretty.

Local Open Scope string_scope.
Local Open Scope list_scope.
Local Open Scope Z_scope.

(** ** Command strings *)

Module Strings.

(** [strings.Split(s, sep)] for a one-byte separator: the pieces between
    the separators, so the result always has at least one element and
    [Split("", " ")] is [[""]]. *)
Fixpoint Split (s : string) (sep : ascii) : list string :=
  match s with
  | EmptyString => [EmptyString]
  | String c rest =>
      if decide (c = sep) then EmptyString :: Split rest sep
      else match Split rest sep with
           | p :: ps => String c p :: ps
           | [] => [String c EmptyString]
           end
  end.

(** [strings.HasPrefix(s, prefix)]. *)
Fixpoint HasPrefix (s prefix : string) {struct prefix} : bool :=
  match prefix, s with
  | EmptyString, _ => true
  | String p prefix', String c s' =>
      if decide (c = p) then HasPrefix s' prefix' else false
  | String _ _, EmptyString => false
  end.

(** The suffix of [s] after its first [n] bytes. *)
Fixpoint dropBytes (n : nat) (s : string) : string :=
  match n, s with
  | O, _ => s
  | S n', String _ s' => dropBytes n' s'
  | S _, EmptyString => EmptyString
  end.

(** [strings.TrimPrefix(s, prefix)]: [s] without the leading [prefix],
    and [s] itself when it does not start with it. *)
Definition TrimPrefix (s prefix : string) : string :=
  if HasPrefix s prefix then dropBytes (String.length prefix) s else s.

(** Whether the byte [b] occurs in [s]. *)
Fixpoint containsByte (b : ascii) (s : string) : bool :=
  match s with
  | EmptyString => false
  | String c s' => if decide (c = b) then true else containsByte b s'
  end.

(** The bytes of [s] before its first space (all of [s] when it has no
    space): the leading space-separated field of a command. *)
Fixpoint untilSpace (s : string) : string :=
  match s with
  | EmptyString => EmptyString
  | String c s' =>
      if decide (c = " "%char) then EmptyString else String c (untilSpace s')
  end.

(** ASCII white space, as [unicode.IsSpace] has it below 0x80. *)
Definition isSpace (c : ascii) : bool :=
  bool_decide (c = " "%char) || bool_decide (c = "009"%char)
  || bool_decide (c = "010"%char) || bool_decide (c = "011"%char)
  || bool_decide (c = "012"%char) || bool_decide (c = "013"%char).

Fixpoint untilWhite (s : string) : string :=
  match s with
  | EmptyString => EmptyString
  | String c s' => if isSpace c then EmptyString else String c (untilWhite s')
  end.

(** The specification's wording of the partition key: the first
    white-space-separated token of the command string (leading white
    space skipped, then everything up to the next white space). *)
Fixpoint leadingToken (s : string) : string :=
  match s with
  | EmptyString => EmptyString
  | String c s' => if isSpace c then leadingToken s' else untilWhite s
  end.

End Strings.

(** [extractCommandType]: the first space-separated field of the command
    without its ["/user:"] prefix; ["unknown"] when the field does not
    start with ["/user:"]. *)
Definition extractCommandType (command : string) : string :=
  let parts := Strings.Split command " "%char in
  match parts with
  | p0 :: _ =>
      if Strings.HasPrefix p0 "/user:" then Strings.TrimPrefix p0 "/user:"
      else "unknown"
  | [] => "unknown"
  end.

(** [extractTarget]: the second space-separated field, ["."] when the
    command has only one field. *)
Definition extractTarget (command : string) : string :=
  let parts := Strings.Split command " "%char in
  match parts with
  | _ :: p1 :: _ => p1
  | _ => "."
  end.

(** The cache key of [OptimizeCommand]: [fmt.Sprintf("%s:%s", sessionID, command)]. *)
Definition cacheKey (sessionID command : string) : string :=
  sessionID +:+ ":" +:+ command.

(** ** Time

    Instants are clock readings in nanoseconds; a [time.Duration] is a
    signed 64-bit count of nanoseconds. *)

Module Time.

Definition Nanosecond : Z := 1.
Definition Microsecond : Z := 1000 * Nanosecond.
Definition Millisecond : Z := 1000 * Microsecond.
Definition Second : Z := 1000 * Millisecond.
Definition Minute : Z := 60 * Second.

Definition minDuration : Z := - 2 ^ 63.
Definition maxDuration : Z := 2 ^ 63 - 1.

(** [t.Sub(u)]: the difference, saturated to the range of a Duration. *)
Definition Sub (t u : Z) : Z :=
  if decide (t - u < minDuration) then minDuration
  else if decide (maxDuration < t - u) then maxDuration
  else t - u.

(** [time.Since(t)] read at the instant [now]. *)
Definition Since (now t : Z) : Z := Sub now t.

End Time.

(** Two's-complement wrap-around of [int64] arithmetic. *)
Definition wrap64 (z : Z) : Z := (z + 2 ^ 63) `mod` 2 ^ 64 - 2 ^ 63.

(** ** float64

    IEEE 754 binary64, as the Standard Library specifies it: 53 bits of
    precision, results rounded to the nearest float, ties to even. *)

Module Float64.

Definition prec : Z := 53.
Definition emax : Z := 1024.

(** [float64(x)] for an integer [x]. *)
Definition ofInt64 (x : Z) : SpecFloat.spec_float :=
  SpecFloat.binary_normalize prec emax x 0 false.

(** [x / y]. *)
Definition div (x y : SpecFloat.spec_float) : SpecFloat.spec_float :=
  SpecFloat.SFdiv prec emax x y.

Definition zero : SpecFloat.spec_float := SpecFloat.S754_zero false.
Definition one : SpecFloat.spec_float := ofInt64 1.

(** [x < y]. *)
Definition lt (x y : SpecFloat.spec_float) : Prop := SpecFloat.SFltb x y = true.

End Float64.

(** ** Data model *)

(** [OptimizedResponse].  [Result] is an [interface{}] that only ever
    holds the strings built by [fmt.Sprintf]; [Error] is [nil] or an error
    message; [BatchSize] is an [int]. *)
Record OptimizedResponse := {
  Result : string;
  Error : option string;
  CacheHit : bool;
  BatchSize : Z;
  Duration : Z
}.

(** [OptimizedRequest].  [Context] and [Response] are references: a
    context handle and the address of the request's response channel. *)
Record OptimizedRequest := {
  Command : string;
  SessionID : string; Context : nat;
  Response : nat;
  Timestamp : Z
}.

Module CacheEntry.

Record CacheEntry := { Data : string; Timestamp : Z }.

(** [IsExpired], read at the instant [now]: older than 15 minutes. *)
Definition IsExpired (now : Z) (ce : CacheEntry) : bool :=
  bool_decide (Time.Since now (Timestamp ce) > 15 * Time.Minute).

End CacheEntry.
Abbreviation CacheEntry := CacheEntry.CacheEntry.

(** ** Metrics *)

Record Metrics := {
  totalRequests : Z;
  cacheHits : Z;
  avgDuration : Z;
  peakMemory : Z
}.

(** [&Metrics{}]. *)
Definition noMetrics : Metrics :=
  {| totalRequests := 0; cacheHits := 0; avgDuration := 0; peakMemory := 0 |}.

Definition recordRequest (duration : Z) (m : Metrics) : Metrics :=
  {| totalRequests := wrap64 (totalRequests m + 1);
     cacheHits := cacheHits m;
     avgDuration :=
       if decide (avgDuration m = 0) then duration
       else Z.quot (wrap64 (avgDuration m + duration)) 2;
     peakMemory := peakMemory m |}.

Definition recordCacheHit (m : Metrics) : Metrics :=
  {| totalRequests := totalRequests m;
     cacheHits := wrap64 (cacheHits m + 1);
     avgDuration := avgDuration m;
     peakMemory := peakMemory m |}.

(** [getCacheHitRate]: 0 when no request has been recorded, else the
    quotient of the two counters, each converted to [float64]. *)
Definition getCacheHitRate (m : Metrics) : SpecFloat.spec_float :=
  if decide (totalRequests m = 0) then Float64.zero
  else Float64.div (Float64.ofInt64 (cacheHits m)) (Float64.ofInt64 (totalRequests m)).

(** ** Channels and the work done for a request *)

(** An underlying computation: the handling of one command (where
    [processSingleRequest] would call the real handler), or the one
    analysis of a target that [combineAnalyzeRequests] shares. *)
Inductive Execution :=
| Processed (command : string)
| Analyzed (target : string).

Global Instance Execution_eq_dec : EqDecision Execution.
Proof. solve_decision. Defined.

(** The response channels, by address, each with the values sent on it so
    far, and the log of the underlying computations carried out. *)
Record Dispatch := {
  chans : gmap nat (list OptimizedResponse);
  executions : list Execution
}.

Definition send (ch : nat) (v : OptimizedResponse) (d : Dispatch) : Dispatch :=
  {| chans := <[ch := (chans d !!! ch) ++ [v]]> (chans d);
     executions := executions d |}.

Definition execute (what : Execution) (d : Dispatch) : Dispatch :=
  {| chans := chans d; executions := executions d ++ [what] |}.

(** Go leaves the iteration order of a map unspecified, and goroutines
    and pool workers run in any order: a schedule picks, for every
    collection that is ranged over or run concurrently, the order in which
    its elements are taken. *)
Class Schedule := {
  order : forall A : Type, list A -> list A;
  order_perm : forall (A : Type) (l : list A), order A l ≡ₚ l
}.
Arguments order {_ _} _.

(** The schedule that takes everything in list order. *)
Definition inOrder : Schedule :=
  {| order := fun _ l => l; order_perm := fun _ l => reflexivity l |}.

(** [m[key] = append(m[key], req)]. *)
Definition groupAppend (key : string) (req : OptimizedRequest)
    (m : gmap string (list OptimizedRequest)) : gmap string (list OptimizedRequest) :=
  <[key := (m !!! key) ++ [req]]> m.

(** The map built by the grouping loops of [processBatch] and
    [combineAnalyzeRequests]. *)
Definition groupBy (f : OptimizedRequest -> string) (reqs : list OptimizedRequest)
    : gmap string (list OptimizedRequest) :=
  foldl (fun m req => groupAppend (f req) req m) ∅ reqs.

Section Dispatch.
Context {sched : Schedule}.

(** [processSingleRequest], its response built at the instant [now]. *)
Definition processSingleRequest (now : Z) (req : OptimizedRequest) (d : Dispatch) : Dispatch :=
  let result := "Processed: " +:+ Command req in
  send (Response req)
    {| Result := result; Error := None; CacheHit := false; BatchSize := 1;
       Duration := Time.Since now (Timestamp req) |}
    (execute (Processed (Command req)) d).

(** The body of the outer loop of [combineAnalyzeRequests]: one analysis
    of [target], delivered to every request of [reqs]. *)
Definition analyzeTarget (now : Z) (d : Dispatch)
    (entry : string * list OptimizedRequest) : Dispatch :=
  let '(target, reqs) := entry in
  let result :=
    "Combined analysis of " +:+ target +:+ " for "
      +:+ pretty (Z.of_nat (length reqs)) +:+ " requests" in
  foldl (fun d req =>
           send (Response req)
             {| Result := result; Error := None; CacheHit := false;
                BatchSize := Z.of_nat (length reqs);
                Duration := Time.Since now (Timestamp req) |} d)
        (execute (Analyzed target) d) reqs.

Definition combineAnalyzeRequests (now : Z) (requests : list OptimizedRequest)
    (d : Dispatch) : Dispatch :=
  let targets := groupBy (fun req => extractTarget (Command req)) requests in
  foldl (analyzeTarget now) d (order (map_to_list targets)).

(** [parallelTestRequests]: one pool task per request, each running
    [processSingleRequest] on its own request (the loop variable is per
    iteration, as in the Go release the project builds with), all joined
    before the function returns.  The pool runs every submitted task
    once; the schedule picks the order in which they complete. *)
Definition parallelTestRequests (now : Z) (requests : list OptimizedRequest)
    (d : Dispatch) : Dispatch :=
  foldl (fun d req => processSingleRequest now req d) d (order requests).

Definition processCommandGroup (now : Z) (cmdType : string)
    (requests : list OptimizedRequest) (d : Dispatch) : Dispatch :=
  if decide (cmdType = "analyze") then combineAnalyzeRequests now requests d
  else if decide (cmdType = "test") then parallelTestRequests now requests d
  else foldl (fun d req => processSingleRequest now req d) d requests.

Definition processBatch (now : Z) (batch : list OptimizedRequest) (d : Dispatch) : Dispatch :=
  let groups := groupBy (fun req => extractCommandType (Command req)) batch in
  foldl (fun d '(cmdType, reqs) => processCommandGroup now cmdType reqs d)
        d (order (map_to_list groups)).

End Dispatch.

(** ** The worker pool *)

Module WorkerPool.

Section Pool.
Context {Task : Type}.

(** The pool together with the goroutines that live on it: [workerOf]
    has one entry per worker goroutine, [None] while the worker is
    blocked receiving from [taskQueue] and [Some task] while it is
    inside [task()]; [blocked] are the tasks whose [Submit] is stuck at
    the send on a full queue; [wg] is the wait-group counter and
    [completed] logs the tasks that have returned. *)
Record WorkerPool := {
  workers : Z;
  taskQueue : list Task;
  taskQueueCap : Z;
  wg : Z;
  workerOf : list (option Task);
  blocked : list Task;
  completed : list Task
}.

(** [NewWorkerPool]: [make] panics on a negative capacity; otherwise
    the loop starts one goroutine per worker. *)
Definition NewWorkerPool (workers : Z) : option WorkerPool :=
  if decide (workers * 2 < 0) then None
  else Some {| workers := workers; taskQueue := []; taskQueueCap := workers * 2;
               wg := 0; workerOf := replicate (Z.to_nat workers) None;
               blocked := []; completed := [] |}.

(** The number of tasks that are executing at this moment. *)
Definition executing (wp : WorkerPool) : nat :=
  length (filter is_Some (workerOf wp)).

Inductive Event :=
| Submit (task : Task)      (* a caller enters [Submit] *)
| Unblock (j : nat)         (* the send of the [j]-th blocked submitter goes through *)
| Take (i : nat)            (* worker [i] receives the next task and starts it *)
| Finish (i : nat).         (* the task of worker [i] returns *)

Definition step (wp : WorkerPool) (e : Event) : option WorkerPool :=
  match e with
  | Submit task =>
      if decide (Z.of_nat (length (taskQueue wp)) < taskQueueCap wp) then
        Some {| workers := workers wp; taskQueue := taskQueue wp ++ [task];
                taskQueueCap := taskQueueCap wp; wg := wg wp + 1;
                workerOf := workerOf wp; blocked := blocked wp;
                completed := completed wp |}
      else
        Some {| workers := workers wp; taskQueue := taskQueue wp;
                taskQueueCap := taskQueueCap wp; wg := wg wp + 1;
                workerOf := workerOf wp; blocked := blocked wp ++ [task];
                completed := completed wp |}
  | Unblock j =>
      match blocked wp !! j with
      | Some task =>
          if decide (Z.of_nat (length (taskQueue wp)) < taskQueueCap wp) then
            Some {| workers := workers wp; taskQueue := taskQueue wp ++ [task];
                    taskQueueCap := taskQueueCap wp; wg := wg wp;
                    workerOf := workerOf wp; blocked := delete j (blocked wp);
                    completed := completed wp |}
          else None
      | None => None
      end
  | Take i =>
      match workerOf wp !! i, taskQueue wp with
      | Some None, task :: rest =>
          Some {| workers := workers wp; taskQueue := rest;
                  taskQueueCap := taskQueueCap wp; wg := wg wp;
                  workerOf := <[i := Some task]> (workerOf wp);
                  blocked := blocked wp; completed := completed wp |}
      | _, _ => None
      end
  | Finish i =>
      match workerOf wp !! i with
      | Some (Some task) =>
          Some {| workers := workers wp; taskQueue := taskQueue wp;
                  taskQueueCap := taskQueueCap wp; wg := wg wp - 1;
                  workerOf := <[i := None]> (workerOf wp);
                  blocked := blocked wp; completed := completed wp ++ [task] |}
      | _ => None
      end
  end.

Fixpoint run (wp : WorkerPool) (evs : list Event) : option WorkerPool :=
  match evs with
  | [] => Some wp
  | e :: evs' => match step wp e with Some wp' => run wp' evs' | None => None end
  end.

(** The tasks handed to [Submit] along a trace, in order. *)
Definition submitted (evs : list Event) : list Task :=
  omap (fun e => match e with Submit task => Some task | _ => None end) evs.

End Pool.
Arguments WorkerPool : clear implicits.
Arguments Event : clear implicits.

End WorkerPool.

(** ** The optimizer *)

(** The [Optimizer] struct.  [batchQueue] is the content of the buffered
    channel and [batchQueueCap] its capacity; [workerPool] is the worker
    count the pool was built with. *)
Record Optimizer := {
  cache : gmap string CacheEntry;
  cacheSize : Z;
  cacheTTL : Z;
  batchQueue : list OptimizedRequest;
  batchQueueCap : Z;
  batchSize : Z;
  batchDelay : Z;
  workerPool : Z;
  metrics : Metrics
}.

(** [NewOptimizer] on a machine with [numCPU] logical CPUs. *)
Definition NewOptimizer (numCPU : Z) : Optimizer :=
  {| cache := ∅;
     cacheSize := 1000;
     cacheTTL := 15 * Time.Minute;
     batchQueue := [];
     batchQueueCap := 100;
     batchSize := 10;
     batchDelay := 100 * Time.Millisecond;
     workerPool := numCPU * 2;
     metrics := noMetrics |}.

Definition withCache (c : gmap string CacheEntry) (o : Optimizer) : Optimizer :=
  {| cache := c; cacheSize := cacheSize o; cacheTTL := cacheTTL o;
     batchQueue := batchQueue o; batchQueueCap := batchQueueCap o;
     batchSize := batchSize o; batchDelay := batchDelay o;
     workerPool := workerPool o; metrics := metrics o |}.

Definition withQueue (q : list OptimizedRequest) (o : Optimizer) : Optimizer :=
  {| cache := cache o; cacheSize := cacheSize o; cacheTTL := cacheTTL o;
     batchQueue := q; batchQueueCap := batchQueueCap o;
     batchSize := batchSize o; batchDelay := batchDelay o;
     workerPool := workerPool o; metrics := metrics o |}.

Definition withMetrics (m : Metrics) (o : Optimizer) : Optimizer :=
  {| cache := cache o; cacheSize := cacheSize o; cacheTTL := cacheTTL o;
     batchQueue := batchQueue o; batchQueueCap := batchQueueCap o;
     batchSize := batchSize o; batchDelay := batchDelay o;
     workerPool := workerPool o; metrics := m |}.

(** [ctx.Err()] of a context that is done. *)
Inductive CtxErr := Canceled | DeadlineExceeded.

(** What a call of [OptimizeCommand] returns: [(resp, nil)] or
    [(nil, ctx.Err())]. *)
Inductive Outcome :=
| Returned (resp : OptimizedResponse)
| Failed (err : CtxErr).

Inductive FlushCause := BySize | ByTimer.

(** Where an activation of [OptimizeCommand] that missed the cache stands:
    at the first [select] (handing its request over), at the second
    (waiting for the response), or after it, with the response taken and
    stored and [recordRequest] still to come. *)
Inductive Phase := Handing | Awaiting | Recording.

Global Instance Phase_eq_dec : EqDecision Phase.
Proof. solve_decision. Defined.

(** The locals of such an activation. *)
Record Caller := {
  callerKey : string;
  start : Z;
  req : OptimizedRequest;
  phase : Phase
}.

Record Return := {
  retKey : string;
  retChan : option nat;
  retOutcome : Outcome
}.

(** The optimizer with everything that runs on it: the buffer that is
    local to [processBatches], the channels, the activations of
    [OptimizeCommand] in flight (by the address of their response
    channel), the contexts that are done, the key that the callback of
    [cleanCache] has found expired and is about to delete, and two logs:
    of the batches flushed, and of the outcomes of the calls.  An outcome
    is logged when it is decided, that is, when the cache lookup hits or
    the second [select] takes a case; on the response branch the call
    still records the request before it returns that outcome. *)
Record System := {
  opt : Optimizer;
  batch : list OptimizedRequest;
  disp : Dispatch;
  nextChan : nat;
  callers : gmap nat Caller;
  doneCtx : gmap nat CtxErr;
  cleaner : option string;
  flushes : list (FlushCause * list OptimizedRequest);
  returns : list Return
}.

Definition initial (o : Optimizer) : System :=
  {| opt := o; batch := []; disp := {| chans := ∅; executions := [] |};
     nextChan := 0%nat; callers := ∅; doneCtx := ∅; cleaner := None;
     flushes := []; returns := [] |}.

Definition withOpt (o : Optimizer) (s : System) : System :=
  {| opt := o; batch := batch s; disp := disp s; nextChan := nextChan s;
     callers := callers s; doneCtx := doneCtx s; cleaner := cleaner s;
     flushes := flushes s; returns := returns s |}.

Definition withCallers (cs : gmap nat Caller) (s : System) : System :=
  {| opt := opt s; batch := batch s; disp := disp s; nextChan := nextChan s;
     callers := cs; doneCtx := doneCtx s; cleaner := cleaner s;
     flushes := flushes s; returns := returns s |}.

Definition withDisp (d : Dispatch) (s : System) : System :=
  {| opt := opt s; batch := batch s; disp := d; nextChan := nextChan s;
     callers := callers s; doneCtx := doneCtx s; cleaner := cleaner s;
     flushes := flushes s; returns := returns s |}.

Definition withReturn (r : Return) (s : System) : System :=
  {| opt := opt s; batch := batch s; disp := disp s; nextChan := nextChan s;
     callers := callers s; doneCtx := doneCtx s; cleaner := cleaner s;
     flushes := flushes s; returns := returns s ++ [r] |}.

Definition withCleaner (k : option string) (s : System) : System :=
  {| opt := opt s; batch := batch s; disp := disp s; nextChan := nextChan s;
     callers := callers s; doneCtx := doneCtx s; cleaner := k;
     flushes := flushes s; returns := returns s |}.

(** The collector's buffer after a flush: [processBatch(batch)] has run,
    the flush is logged and the buffer is cut back to [batch[:0]]. *)
Definition flushed {sched : Schedule} (now : Z) (cause : FlushCause)
    (b : list OptimizedRequest) (s : System) : System :=
  {| opt := opt s; batch := []; disp := processBatch now b (disp s);
     nextChan := nextChan s; callers := callers s; doneCtx := doneCtx s;
     cleaner := cleaner s;
     flushes := flushes s ++ [(cause, b)]; returns := returns s |}.

Definition withBatch (b : list OptimizedRequest) (s : System) : System :=
  {| opt := opt s; batch := b; disp := disp s; nextChan := nextChan s;
     callers := callers s; doneCtx := doneCtx s; cleaner := cleaner s;
     flushes := flushes s; returns := returns s |}.

Definition setPhase (ph : Phase) (c : Caller) : Caller :=
  {| callerKey := callerKey c; start := start c; req := req c; phase := ph |}.

(** What can happen on the optimizer.  Each event is one step of one
    goroutine, taken at the clock reading it carries. *)
Inductive Event :=
| Call (ctx : nat) (sessionID command : string) (now : Z)
    (* [OptimizeCommand] is entered and runs up to the first [select] *)
| Handoff (ch : nat)
    (* first [select]: the send on [batchQueue] goes through *)
| Timeout (ch : nat) (now : Z)
    (* first [select]: [time.After(batchDelay)] fires on a full queue *)
| Recv (now : Z)
    (* [processBatches] receives from [batchQueue] *)
| Tick (now : Z)
    (* [processBatches] receives from its ticker *)
| CancelCtx (ctx : nat) (err : CtxErr)
    (* a context becomes done *)
| Select (ch : nat) (pickResponse : bool) (now : Z)
    (* second [select] of the activation that owns channel [ch], with the
       [cache.Store] of the response branch; [pickResponse] is the choice
       made when both cases are ready *)
| Record (ch : nat) (now : Z)
    (* the same activation calls [recordRequest] and returns *)
| Visit (key : string) (now : Z)
    (* [cleanCache]: [Range] hands the entry under [key] to the callback,
       which tests [IsExpired] *)
| Delete.
    (* [cleanCache]: the callback calls [cache.Delete] with the key it has
       found expired *)

(** The response branch of the second [select], up to the store. *)
Definition complete (now : Z) (ch : nat) (c : Caller) (resp : OptimizedResponse)
    (s : System) : System :=
  let o := opt s in
  let cache' :=
    if decide (Error resp = None /\ CacheHit resp = false) then
      <[callerKey c := {| CacheEntry.Data := Result resp; CacheEntry.Timestamp := now |}]> (cache o)
    else cache o in
  withReturn {| retKey := callerKey c; retChan := Some ch; retOutcome := Returned resp |}
    (withCallers (<[ch := setPhase Recording c]> (callers s))
       (withOpt (withCache cache' o) s)).

(** The rest of the response branch: [recordRequest(time.Since(start))]
    and the return. *)
Definition finish (now : Z) (ch : nat) (c : Caller) (s : System) : System :=
  withCallers (delete ch (callers s))
    (withOpt (withMetrics (recordRequest (Time.Since now (start c)) (metrics (opt s)))
                (opt s)) s).

(** The [ctx.Done()] branch of the second [select]. *)
Definition abandon (ch : nat) (c : Caller) (err : CtxErr) (s : System) : System :=
  withReturn {| retKey := callerKey c; retChan := Some ch; retOutcome := Failed err |}
    (withCallers (delete ch (callers s)) s).

(** [OptimizeCommand] after a cache miss, up to the first [select]: the
    request is built around a fresh response channel. *)
Definition notCached (ctx : nat) (sessionID command : string) (now : Z) (key : string)
    (s : System) : System :=
  let r := {| Command := command; SessionID := sessionID; Context := ctx;
              Response := nextChan s; Timestamp := now |} in
  {| opt := opt s; batch := batch s; disp := disp s; nextChan := S (nextChan s);
     callers := <[nextChan s := {| callerKey := key; start := now; req := r; phase := Handing |}]>
                  (callers s);
     doneCtx := doneCtx s; cleaner := cleaner s;
     flushes := flushes s; returns := returns s |}.

Section System.
Context {sched : Schedule}.

Definition step (s : System) (e : Event) : option System :=
  let o := opt s in
  match e with
  | Call ctx sessionID command now =>
      let key := cacheKey sessionID command in
      match cache o !! key with
      | Some entry =>
          if negb (CacheEntry.IsExpired now entry) then
            Some (withReturn
                    {| retKey := key; retChan := None;
                       retOutcome :=
                         Returned {| Result := CacheEntry.Data entry; Error := None;
                                     CacheHit := true; BatchSize := 0;
                                     Duration := Time.Since now now |} |}
                    (withOpt (withMetrics (recordCacheHit (metrics o)) o) s))
          else
            Some (notCached ctx sessionID command now key s)
      | None => Some (notCached ctx sessionID command now key s)
      end
  | Handoff ch =>
      match callers s !! ch with
      | Some c =>
          match phase c with
          | Handing =>
              if decide (Z.of_nat (length (batchQueue o)) < batchQueueCap o) then
                Some (withCallers (<[ch := setPhase Awaiting c]> (callers s))
                        (withOpt (withQueue (batchQueue o ++ [req c]) o) s))
              else None
          | _ => None
          end
      | None => None
      end
  | Timeout ch now =>
      match callers s !! ch with
      | Some c =>
          match phase c with
          | Handing =>
              if decide (Z.of_nat (length (batchQueue o)) < batchQueueCap o) then None
              else
                Some (withCallers (<[ch := setPhase Awaiting c]> (callers s))
                        (withDisp (processSingleRequest now (req c) (disp s)) s))
          | _ => None
          end
      | None => None
      end
  | Recv now =>
      match batchQueue o with
      | r :: rest =>
          let s' := withOpt (withQueue rest o) s in
          let batch' := batch s ++ [r] in
          if decide (Z.of_nat (length batch') >= batchSize o) then
            Some (flushed now BySize batch' s')
          else Some (withBatch batch' s')
      | [] => None
      end
  | Tick now =>
      if decide (Z.of_nat (length (batch s)) > 0) then
        Some (flushed now ByTimer (batch s) s)
      else Some s
  | CancelCtx ctx err =>
      match doneCtx s !! ctx with
      | Some _ => Some s
      | None =>
          Some {| opt := opt s; batch := batch s; disp := disp s;
                  nextChan := nextChan s; callers := callers s;
                  doneCtx := <[ctx := err]> (doneCtx s); cleaner := cleaner s;
                  flushes := flushes s; returns := returns s |}
      end
  | Select ch pickResponse now =>
      match callers s !! ch with
      | Some c =>
          match phase c with
          | Awaiting =>
              match head (chans (disp s) !!! ch), doneCtx s !! Context (req c) with
              | Some resp, None => Some (complete now ch c resp s)
              | None, Some err => Some (abandon ch c err s)
              | Some resp, Some err =>
                  if pickResponse then Some (complete now ch c resp s)
                  else Some (abandon ch c err s)
              | None, None => None
              end
          | _ => None
          end
      | None => None
      end
  | Record ch now =>
      match callers s !! ch with
      | Some c =>
          match phase c with
          | Recording => Some (finish now ch c s)
          | _ => None
          end
      | None => None
      end
  | Visit key now =>
      match cleaner s, cache o !! key with
      | None, Some entry =>
          if CacheEntry.IsExpired now entry then Some (withCleaner (Some key) s)
          else Some s
      | _, _ => None
      end
  | Delete =>
      match cleaner s with
      | Some key =>
          Some (withCleaner None (withOpt (withCache (delete key (cache o)) o) s))
      | None => None
      end
  end.

Fixpoint run (s : System) (evs : list Event) : option System :=
  match evs with
  | [] => Some s
  | e :: evs' => match step s e with Some s' => run s' evs' | None => None end
  end.

End System.

(** ** Vocabulary of the properties *)

(** The range of an [int64]. *)
Definition int64 (z : Z) : Prop := - 2 ^ 63 <= z <= 2 ^ 63 - 1.

(** A return that was served from the cache: it never had a response
    channel. *)
Definition servedFromCache (r : Return) : Prop := retChan r = None.

(** A return of a response that came through the response channel. *)
Definition completedNotCached (r : Return) : Prop :=
  match retChan r, retOutcome r with
  | Some _, Returned _ => True
  | _, _ => False
  end.

Global Instance servedFromCache_dec r : Decision (servedFromCache r).
Proof. unfold servedFromCache. apply _. Defined.

Global Instance completedNotCached_dec r : Decision (completedNotCached r).
Proof. unfold completedNotCached. destruct (retChan r), (retOutcome r); apply _. Defined.

(** The numbers of outcomes that were served from the cache, and of
    responses taken from a channel. *)
Definition servedCount (s : System) : nat :=
  length (filter servedFromCache (returns s)).

Definition completedCount (s : System) : nat :=
  length (filter completedNotCached (returns s)).

(** The activations that have taken and stored their response and have
    not yet called [recordRequest]. *)
Definition recording (s : System) : gmap nat Caller :=
  filter (fun kv => phase kv.2 = Recording) (callers s).

(** The two counters agree with the log of outcomes: [cacheHits] counts
    the calls served from the cache, and [totalRequests] the calls that
    took a response from their channel and have recorded it; response
    channels are allocated in order. *)
Definition accounted (s : System) : Prop :=
  cacheHits (metrics (opt s)) = wrap64 (Z.of_nat (servedCount s)) /\
  totalRequests (metrics (opt s))
  = wrap64 (Z.of_nat (completedCount s) - Z.of_nat (size (recording s))) /\
  (size (recording s) <= completedCount s)%nat /\
  (forall ch, (nextChan s <= ch)%nat -> callers s !! ch = None).

(** One request that misses the cache, is batched, flushed by the timer
    and returned, then the same request twice more. *)
Definition hitTrace : list Event :=
  [Call 0 "s1" "/user:build A" 0; Handoff 0; Recv 1; Tick 2; Select 0 true 3;
   Record 0 3; Call 0 "s1" "/user:build A" 4; Call 0 "s1" "/user:build A" 5].

(** What the collector keeps true for a batch size [C]: its buffer is
    shorter than [C] between two steps, no flushed batch was longer than
    [C], and the batches flushed on size had exactly [C] members. *)
Definition bounded (C : Z) (s : System) : Prop :=
  batchSize (opt s) = C /\
  Z.of_nat (length (batch s)) < C /\
  forall cause b, (cause, b) ∈ flushes s ->
    Z.of_nat (length b) <= C /\ (cause = BySize -> Z.of_nat (length b) = C).

(** Ten requests that are handed over and received one after the other. *)
Definition fullBatchTrace : list Event :=
  ((fun i => Call 0 "s1" ("/user:build " +:+ pretty i) 0) <$> seq 0 10)
  ++ (Handoff <$> seq 0 10) ++ replicate 10 (Recv 1).

Module WorkerPoolSpec.
Import WorkerPool.

(** The tasks that are being executed. *)
Definition running {Task} (wp : WorkerPool Task) : list Task :=
  omap id (workerOf wp).

(** The tasks that were submitted and have not started: those in the
    queue, and those whose [Submit] is still blocked at the send. *)
Definition waitingTasks {Task} (wp : WorkerPool Task) : list Task :=
  taskQueue wp ++ blocked wp.

(** What every state of a pool built for [w >= 0] workers satisfies. *)
Definition poolInv {Task} (w : Z) (wp : WorkerPool Task) : Prop :=
  workers wp = w /\
  taskQueueCap wp = w * 2 /\
  length (workerOf wp) = Z.to_nat w /\
  Z.of_nat (length (taskQueue wp)) <= w * 2 /\
  wg wp = Z.of_nat (length (running wp ++ waitingTasks wp)).

(** Six tasks on a pool of two workers. *)
Definition sixTasks : list (Event nat) :=
  [Submit 0%nat; Submit 1%nat; Take 0; Take 1; Submit 2%nat; Submit 3%nat;
   Submit 4%nat; Submit 5%nat; Finish 1; Take 1].

End WorkerPoolSpec.

(** ** What a dispatch delivers *)

(** A delivery: a request and the response sent on its channel. *)
Abbreviation Delivery := (OptimizedRequest * OptimizedResponse)%type.

(** The responses that a list of deliveries puts on channel [ch]. *)
Definition responsesOn (ch : nat) (D : list Delivery) : list OptimizedResponse :=
  (filter (fun p => Response p.1 = ch) D).*2.

(** [f] makes the deliveries [D], in this order on each channel, carries
    out the executions [E], and does nothing else. *)
Definition effects (f : Dispatch -> Dispatch) (D : list Delivery)
    (E : list Execution) : Prop :=
  forall d,
    executions (f d) = executions d ++ E /\
    forall ch, chans (f d) !!! ch = chans d !!! ch ++ responsesOn ch D.

(** The response [processSingleRequest] builds. *)
Definition singleResponse (now : Z) (r : OptimizedRequest) : OptimizedResponse :=
  {| Result := "Processed: " +:+ Command r; Error := None; CacheHit := false;
     BatchSize := 1; Duration := Time.Since now (Timestamp r) |}.

(** The response [combineAnalyzeRequests] builds for a request that
    shares the analysis of [target] with [n] requests in all. *)
Definition combinedResponse (now : Z) (target : string) (n : nat)
    (r : OptimizedRequest) : OptimizedResponse :=
  {| Result := "Combined analysis of " +:+ target +:+ " for "
                 +:+ pretty (Z.of_nat n) +:+ " requests";
     Error := None; CacheHit := false; BatchSize := Z.of_nat n;
     Duration := Time.Since now (Timestamp r) |}.

Definition commandTypeOf (r : OptimizedRequest) : string := extractCommandType (Command r).
Definition targetOf (r : OptimizedRequest) : string := extractTarget (Command r).

Section Deliveries.
Context {sched : Schedule}.

Definition singleDeliveries (now : Z) (l : list OptimizedRequest) : list Delivery :=
  (fun r => (r, singleResponse now r)) <$> l.

Definition targetDeliveries (now : Z) (entry : string * list OptimizedRequest)
    : list Delivery :=
  (fun r => (r, combinedResponse now entry.1 (length entry.2) r)) <$> entry.2.

(** The target groups and the command-type groups in the order in which
    the schedule takes them. *)
Definition targetsOf (requests : list OptimizedRequest)
    : list (string * list OptimizedRequest) :=
  order (map_to_list (groupBy (fun req => extractTarget (Command req)) requests)).

Definition groupsOf (batch : list OptimizedRequest)
    : list (string * list OptimizedRequest) :=
  order (map_to_list (groupBy (fun req => extractCommandType (Command req)) batch)).

Definition groupDeliveries (now : Z) (entry : string * list OptimizedRequest)
    : list Delivery :=
  if decide (entry.1 = "analyze") then targetsOf entry.2 ≫= targetDeliveries now
  else if decide (entry.1 = "test") then singleDeliveries now (order entry.2)
  else singleDeliveries now entry.2.

Definition groupExecutions (entry : string * list OptimizedRequest) : list Execution :=
  if decide (entry.1 = "analyze") then (fun t => Analyzed t.1) <$> targetsOf entry.2
  else if decide (entry.1 = "test") then (fun r => Processed (Command r)) <$> order entry.2
  else (fun r => Processed (Command r)) <$> entry.2.

Definition batchDeliveries (now : Z) (batch : list OptimizedRequest) : list Delivery :=
  groupsOf batch ≫= groupDeliveries now.

Definition batchExecutions (batch : list OptimizedRequest) : list Execution :=
  groupsOf batch ≫= groupExecutions.

End Deliveries.

(** ** Fulfilment of requests *)

(** The requests that have been handed over and not yet flushed. *)
Definition collected (s : System) : list OptimizedRequest :=
  batchQueue (opt s) ++ batch s.

(** The request of channel [ch] has not been dispatched yet: its caller
    is still at the first [select], or the request sits in the batch
    queue or in the collector's buffer. *)
Definition pendingCh (s : System) (ch : nat) : Prop :=
  phase <$> callers s !! ch = Some Handing \/ ch ∈ Response <$> collected s.

Global Instance pendingCh_dec s ch : Decision (pendingCh s ch).
Proof. unfold pendingCh. apply _. Defined.

(** The number of values sent so far on channel [ch]. *)
Definition written (s : System) (ch : nat) : nat :=
  length (chans (disp s) !!! ch).

(** What holds in every state of a run: callers are filed under the
    channel of their request; channels are allocated in order; a request
    is in at most one place; and every allocated channel has been written
    once, unless its request is still pending, in which case it has not
    been written at all. *)
Definition onceInv (s : System) : Prop :=
  (forall ch c, callers s !! ch = Some c ->
                Response (req c) = ch /\ (ch < nextChan s)%nat) /\
  (forall ch, ch ∈ Response <$> collected s ->
              (ch < nextChan s)%nat /\ phase <$> callers s !! ch <> Some Handing) /\
  NoDup (Response <$> collected s) /\
  (forall ch, (nextChan s <= ch)%nat -> written s ch = 0%nat) /\
  (forall ch, (ch < nextChan s)%nat -> pendingCh s ch -> written s ch = 0%nat) /\
  (forall ch, (ch < nextChan s)%nat -> ~ pendingCh s ch -> written s ch = 1%nat).

(** The requests of a batch that share the analysis with [r]: those of
    command type "analyze" with the target of [r]. *)
Definition sharers (batch : list OptimizedRequest) (r : OptimizedRequest)
    : list OptimizedRequest :=
  filter (fun r' => targetOf r' = targetOf r)
    (filter (fun r' => commandTypeOf r' = "analyze") batch).

(** Five requests with the same command, on channels 0 to 4. *)
Definition fiveRequests (command : string) : list OptimizedRequest :=
  (fun ch => {| Command := command; SessionID := "s1"; Context := 0;
                Response := ch; Timestamp := 0 |}) <$> seq 0 5.

(** Five concurrent calls of session "s1" with the same command, handed
    over, received, flushed by the timer and returned. *)
Definition fiveCalls (command : string) : list Event :=
  replicate 5 (Call 0 "s1" command 0) ++ (Handoff <$> seq 0 5)
  ++ replicate 5 (Recv 1) ++ [Tick 2]
  ++ ((fun ch => Select ch true 3) <$> seq 0 5)
  ++ ((fun ch => Record ch 4) <$> seq 0 5).

(** The batch sizes reported by the responses that were returned. *)
Definition reportedBatchSizes (s : System) : list Z :=
  omap (fun r => match retOutcome r with
                 | Returned resp => Some (BatchSize resp)
                 | Failed _ => None
                 end) (returns s).

(** A hundred calls whose requests fill the batch queue while the
    collector is busy. *)
Definition saturate : list Event :=
  replicate 100 (Call 0 "s0" "/user:build A" 0) ++ (Handoff <$> seq 0 100).

(** A schedule of the cache and its cleaner.  A call stores an entry and
    returns; sixteen minutes later the entry has expired, and a second
    call for the same key misses and is served through a batch; [Range]
    hands the old entry to the callback of [cleanCache], which finds it
    expired; the second call stores the fresh entry; the callback deletes
    by key; the second call returns. *)
Definition staleDelete : list Event :=
  [Call 0 "s1" "/user:build A" 0; Handoff 0; Recv 1; Tick 2; Select 0 true 3;
   Record 0 4;
   Call 1 "s1" "/user:build A" (16 * Time.Minute); Handoff 1;
   Recv (16 * Time.Minute + Time.Millisecond);
   Tick (16 * Time.Minute + 50 * Time.Millisecond);
   Visit "s1:/user:build A" (16 * Time.Minute + 51 * Time.Millisecond);
   Select 1 true (16 * Time.Minute + 52 * Time.Millisecond);
   Delete;
   Record 1 (16 * Time.Minute + 53 * Time.Millisecond)].

(** The same steps with the deletion before the store. *)
Definition promptDelete : list Event :=
  [Call 0 "s1" "/user:build A" 0; Handoff 0; Recv 1; Tick 2; Select 0 true 3;
   Record 0 4;
   Call 1 "s1" "/user:build A" (16 * Time.Minute); Handoff 1;
   Recv (16 * Time.Minute + Time.Millisecond);
   Tick (16 * Time.Minute + 50 * Time.Millisecond);
   Visit "s1:/user:build A" (16 * Time.Minute + 51 * Time.Millisecond);
   Delete;
   Select 1 true (16 * Time.Minute + 52 * Time.Millisecond);
   Record 1 (16 * Time.Minute + 53 * Time.Millisecond)].

(** ** The cache cleaner and the metrics collector *)

(** The body of the loop of [cleanCache], one round at the instant [now]:
    [Range] visits the entries in some order, the expired ones are deleted
    and counted.  The result is the cache and the count that is logged. *)
Definition cleanCacheRound {sched : Schedule} (now : Z)
    (cache : gmap string CacheEntry) : gmap string CacheEntry * Z :=
  foldl (fun '(c, count) '(key, entry) =>
           if CacheEntry.IsExpired now entry then (delete key c, count + 1)
           else (c, count))
        (cache, 0) (order (map_to_list cache)).

(** The steps of such a round on the optimizer when nothing else runs in
    between: every entry is visited, and deleted when it is expired. *)
Definition cleanerRound (now : Z) (entries : list (string * CacheEntry)) : list Event :=
  entries ≫= fun kv =>
    if CacheEntry.IsExpired now kv.2 then [Visit kv.1 now; Delete] else [Visit kv.1 now].

(** One sample of [collectMetrics]: [alloc] is the [m.Alloc] that
    [runtime.ReadMemStats] reported; the peak is raised to it when it is
    larger.  (The log line that follows changes nothing.) *)
Definition collectSample (alloc : Z) (m : Metrics) : Metrics :=
  if decide (alloc > peakMemory m) then
    {| totalRequests := totalRequests m; cacheHits := cacheHits m;
       avgDuration := avgDuration m; peakMemory := alloc |}
  else m.

(** The metrics after the requests with the durations [ds] have been
    recorded one after the other. *)
Definition recordAll (ds : list Z) (m : Metrics) : Metrics :=
  foldl (fun m d => recordRequest d m) m ds.

(** ** Waiting for the pool *)

Module WorkerPoolWait.
Import WorkerPool.

(** [Wait]: returns once the wait-group counter is zero, and blocks
    ([None]) as long as it is not. *)
Definition Wait {Task} (wp : WorkerPool Task) : option unit :=
  if decide (wg wp = 0) then Some tt else None.

(** How much is left to do: what has to happen before the pool is idle
    with nothing waiting. *)
Definition backlog {Task} (wp : WorkerPool Task) : nat :=
  3 * length (blocked wp) + 2 * length (taskQueue wp) + executing wp.

End WorkerPoolWait.


(** The shape of a response that went through a response channel. *)
Definition viaChannel (resp : OptimizedResponse) : Prop :=
  Error resp = None /\ CacheHit resp = false /\ 1 <= BatchSize resp.

(** The shape of what [OptimizeCommand] returned: a response that went
    through the channel, the response built from a cache entry, or the
    error of a context that is done. *)
Definition returnShape (ret : Return) : Prop :=
  match retOutcome ret, retChan ret with
  | Returned resp, Some _ => viaChannel resp
  | Returned resp, None =>
      Error resp = None /\ CacheHit resp = true /\ BatchSize resp = 0
  | Failed _, Some _ => True
  | Failed _, None => False
  end.

Definition shaped (s : System) : Prop :=
  (forall ch resp, resp ∈ chans (disp s) !!! ch -> viaChannel resp) /\
  (forall ret, ret ∈ returns s -> returnShape ret).

(** Every entry of the cache was returned to a caller that waited for it
    on its response channel. *)
Definition provenance (s : System) : Prop :=
  forall k e, cache (opt s) !! k = Some e ->
    exists ret resp,
      ret ∈ returns s /\ retKey ret = k /\ retChan ret <> None /\
      retOutcome ret = Returned resp /\ Result resp = CacheEntry.Data e.

(** The channels of the requests that went into the batch queue, in the
    order of the sends. *)
Definition handedOver (evs : list Event) : list nat :=
  omap (fun e => match e with Handoff ch => Some ch | _ => None end) evs.

(** The requests that went into the batch queue, by where they are now:
    in a batch that was flushed, in the collector's buffer, or still in
    the queue. *)
Definition inCollector (s : System) : list OptimizedRequest :=
  (flushes s ≫= snd) ++ batch s ++ batchQueue (opt s).

(** An optimizer with other values in the fields [cacheSize] and
    [cacheTTL]. *)
Definition withLimits (size ttl : Z) (o : Optimizer) : Optimizer :=
  {| cache := cache o; cacheSize := size; cacheTTL := ttl;
     batchQueue := batchQueue o; batchQueueCap := batchQueueCap o;
     batchSize := batchSize o; batchDelay := batchDelay o;
     workerPool := workerPool o; metrics := metrics o |}.

(** A family of commands that differ from one another. *)
Definition distinctCommand (i : nat) : string := "/user:build " +:+ pretty i.

(** One call of session "s1" that misses the cache, is batched, flushed by
    the timer and returned; [i] is the number of its response channel. *)
Definition servedRound (i : nat) : list Event :=
  [Call 0 "s1" (distinctCommand i) 0; Handoff i; Recv 0; Tick 0; Select i true 0;
   Record i 0].

(** [n] such calls, one after the other, each with a command of its own. *)
Definition servedRounds (n : nat) : list Event := seq 0 n ≫= servedRound.

(** The optimizer is at rest after [i] such calls. *)
Definition atRest (i : nat) (s : System) : Prop :=
  batch s = [] /\ batchQueue (opt s) = [] /\
  batchQueueCap (opt s) = 100 /\ batchSize (opt s) = 10 /\ cacheSize (opt s) = 1000 /\
  nextChan s = i /\
  (forall ch, (i <= ch)%nat -> callers s !! ch = None /\ chans (disp s) !!! ch = []) /\
  size (cache (opt s)) = i /\
  (forall j, (i <= j)%nat -> cache (opt s) !! cacheKey "s1" (distinctCommand j) = None).

(** A request to analyze the directory "src". *)
Definition analyzeSrc : OptimizedRequest :=
  {| Command := "/user:analyze src"; SessionID := "s1"; Context := 0%nat;
     Response := 0%nat; Timestamp := 2 |}.
(** * Properties *)

(** ** Command strings and cache keys *)

Example extractCommandType_user : extractCommandType "/user:analyze src --deep" = "analyze".
Proof. reflexivity. Qed.

Example extractCommandType_bare : extractCommandType "analyze src" = "unknown".
Proof. reflexivity. Qed.

Example extractTarget_second : extractTarget "/user:analyze src --deep" = "src".
Proof. reflexivity. Qed.

Example extractTarget_missing : extractTarget "/user:analyze" = ".".
Proof. reflexivity. Qed.

Example extractTarget_double_space : extractTarget "/user:analyze  src" = "".
Proof. reflexivity. Qed.

Lemma append_cons (a : ascii) (p t : string) :
  String a p +:+ t = String a (p +:+ t).
Proof. reflexivity. Qed.

Lemma Split_space_head (s : string) :
  exists rest, Strings.Split s " "%char = Strings.untilSpace s :: rest.
Proof.
  induction s as [|c s [rest IH]]; simpl.
  - by exists [].
  - destruct (decide (c = " "%char)); [by eexists|].
    rewrite IH. by eexists.
Qed.

Lemma HasPrefix_append (p t : string) : Strings.HasPrefix (p +:+ t) p = true.
Proof.
  induction p as [|a p IH]; simpl; [done|].
  destruct (decide (a = a)); [apply IH | done].
Qed.

Lemma dropBytes_append (p t : string) :
  Strings.dropBytes (String.length p) (p +:+ t) = t.
Proof. induction p as [|a p IH]; simpl; [by destruct t | apply IH]. Qed.

Lemma HasPrefix_split (s p : string) :
  Strings.HasPrefix s p = true ->
  s = p +:+ Strings.dropBytes (String.length p) s.
Proof.
  revert s. induction p as [|a p IH]; intros s Hs; simpl in *.
  - by destruct s.
  - destruct s as [|c s]; [done|].
    destruct (decide (c = a)) as [->|]; [|done].
    rewrite append_cons. f_equal. by apply IH.
Qed.

Lemma TrimPrefix_append (p t : string) : Strings.TrimPrefix (p +:+ t) p = t.
Proof.
  unfold Strings.TrimPrefix. rewrite HasPrefix_append. apply dropBytes_append.
Qed.

(** C2, as amended.  The command type that keys the groups of a batch is
    the leading space-separated field of the command with its "/user:"
    prefix taken off, and it is "unknown" for every command whose leading
    field does not start with "/user:". *)
Theorem extractCommandType_leading_field (command : string) :
  (forall t, Strings.untilSpace command = "/user:" +:+ t ->
             extractCommandType command = t) /\
  ((forall t, Strings.untilSpace command <> "/user:" +:+ t) ->
   extractCommandType command = "unknown").
Proof.
  unfold extractCommandType.
  destruct (Split_space_head command) as [rest ->]. split.
  - intros t ->. by rewrite HasPrefix_append, TrimPrefix_append.
  - intros Hno.
    destruct (Strings.HasPrefix (Strings.untilSpace command) "/user:") eqn:Hp; [|done].
    apply HasPrefix_split in Hp. by apply Hno in Hp.
Qed.

Lemma extractCommandType_leading_field_witness :
  extractCommandType "/user:analyze src" = "analyze" /\
  extractCommandType "analyze src" = "unknown".
Proof.
  split.
  - apply (proj1 (extractCommandType_leading_field "/user:analyze src")).
    reflexivity.
  - apply (proj2 (extractCommandType_leading_field "analyze src")).
    intros t Ht. vm_compute in Ht. discriminate Ht.
Defined.

(** The partition key is not the leading token itself: a bare "analyze"
    is keyed "unknown", and "/user:analyze" is keyed without its prefix. *)
Lemma extractCommandType_not_leading_token :
  extractCommandType "analyze src" = "unknown" /\
  Strings.leadingToken "analyze src" = "analyze" /\
  extractCommandType "/user:analyze src" = "analyze" /\
  Strings.leadingToken "/user:analyze src" = "/user:analyze" /\
  ~ (forall command : string,
       extractCommandType command = Strings.leadingToken command).
Proof.
  repeat split.
  intros Hall. specialize (Hall "analyze src"). vm_compute in Hall. discriminate Hall.
Qed.

Lemma cacheKey_cons (a : ascii) (s c : string) :
  cacheKey (String a s) c = String a (cacheKey s c).
Proof. reflexivity. Qed.

(** C4, as amended.  Among session identifiers that contain no ':' the
    cache key determines the session identifier and the command. *)
Theorem cacheKey_injective_without_colon (s1 c1 s2 c2 : string) :
  Strings.containsByte ":"%char s1 = false ->
  Strings.containsByte ":"%char s2 = false ->
  cacheKey s1 c1 = cacheKey s2 c2 ->
  s1 = s2 /\ c1 = c2.
Proof.
  revert s2. induction s1 as [|a s1 IH]; intros [|b s2] H1 H2 Hk.
  - split; [done|]. by injection Hk.
  - exfalso. rewrite cacheKey_cons in Hk. simpl in H2.
    destruct (decide (b = ":"%char)) as [->|Hb]; [done|].
    injection Hk as Hb' _. by rewrite Hb' in Hb.
  - exfalso. rewrite cacheKey_cons in Hk. simpl in H1.
    destruct (decide (a = ":"%char)) as [->|Ha]; [done|].
    injection Hk as Ha' _. by rewrite Ha' in Ha.
  - rewrite !cacheKey_cons in Hk. injection Hk as -> Hk.
    simpl in H1, H2.
    destruct (decide (b = ":"%char)); [done|].
    destruct (IH s2 H1 H2 Hk) as [-> ->]. done.
Qed.

Lemma cacheKey_injective_without_colon_witness :
  "s1" = "s1" /\ "/user:build A" = "/user:build A".
Proof.
  apply (cacheKey_injective_without_colon "s1" "/user:build A" "s1" "/user:build A");
    reflexivity.
Defined.

(** Two different pairs with the same key: the separator may also occur
    inside the session identifier. *)
Lemma cacheKey_collision :
  ("a", "b:c") <> ("a:b", "c") /\ cacheKey "a" "b:c" = cacheKey "a:b" "c".
Proof. split; [discriminate | reflexivity]. Qed.

(** ** Metrics *)

Lemma wrap64_id (z : Z) : int64 z -> wrap64 z = z.
Proof.
  unfold int64, wrap64. intros Hz.
  rewrite Z.mod_small; lia.
Qed.

Lemma wrap64_succ (z : Z) : wrap64 (wrap64 z + 1) = wrap64 (z + 1).
Proof.
  unfold wrap64. f_equal.
  replace ((z + 2 ^ 63) `mod` 2 ^ 64 - 2 ^ 63 + 1 + 2 ^ 63)
    with ((z + 2 ^ 63) `mod` 2 ^ 64 + 1) by lia.
  rewrite Z.add_mod_idemp_l by lia. f_equal. lia.
Qed.

(** C9.  While the counters stay inside [int64], one [recordRequest]
    adds exactly one to [totalRequests]; the average becomes the duration
    when it was zero and otherwise the sum of the old average and the
    duration halved by integer division (rounded towards zero, which is
    the floor for the non-negative sums of real durations), the other
    counters are left alone, and the value this gives is not the
    arithmetic mean: after 2, 4 and 12 it is 7, the mean is 6. *)
Theorem recordRequest_smoothed (m : Metrics) (duration : Z) :
  int64 (totalRequests m + 1) ->
  int64 (avgDuration m + duration) ->
  totalRequests (recordRequest duration m) = totalRequests m + 1 /\
  avgDuration (recordRequest duration m)
    = (if decide (avgDuration m = 0) then duration
       else (avgDuration m + duration) ÷ 2) /\
  (0 <= avgDuration m + duration ->
   (avgDuration m + duration) ÷ 2 = (avgDuration m + duration) / 2) /\
  cacheHits (recordRequest duration m) = cacheHits m /\
  peakMemory (recordRequest duration m) = peakMemory m /\
  avgDuration (recordRequest 12 (recordRequest 4 (recordRequest 2 noMetrics))) = 7 /\
  (2 + 4 + 12) / 3 = 6.
Proof.
  intros Ht Ha. simpl. rewrite !wrap64_id by done.
  repeat split; try done.
  intros Hnn. by rewrite Z.quot_div_nonneg by lia.
Qed.

Lemma recordRequest_smoothed_witness :
  totalRequests (recordRequest 10 (recordRequest 4 noMetrics)) = 2 /\
  avgDuration (recordRequest 10 (recordRequest 4 noMetrics)) = 7.
Proof.
  pose proof (recordRequest_smoothed (recordRequest 4 noMetrics) 10) as Hr.
  destruct Hr as (Ht & Ha & _).
  - vm_compute. split; discriminate.
  - vm_compute. split; discriminate.
  - split; [exact Ht | exact Ha].
Defined.

(** ** float64 *)

Lemma digits2_pos_size (p : positive) : SpecFloat.digits2_pos p = Pos.size p.
Proof. induction p as [p IH|p IH|]; simpl; congruence. Qed.

Lemma digits2_pos_log2 (p : positive) :
  Zpos (SpecFloat.digits2_pos p) = Z.log2 (Zpos p) + 1.
Proof.
  rewrite digits2_pos_size. destruct p as [p|p|]; [| |reflexivity].
  - change (Z.log2 (Zpos p~1)) with (Zpos (Pos.size p)).
    change (Pos.size p~1) with (Pos.succ (Pos.size p)). lia.
  - change (Z.log2 (Zpos p~0)) with (Zpos (Pos.size p)).
    change (Pos.size p~0) with (Pos.succ (Pos.size p)). lia.
Qed.

Lemma Zdigits2_53 (p : positive) :
  4503599627370496 <= Zpos p < 9007199254740992 ->
  SpecFloat.Zdigits2 (Zpos p) = 53.
Proof.
  intros Hb. cbn [SpecFloat.Zdigits2]. rewrite digits2_pos_log2.
  rewrite (Z.log2_unique (Zpos p) 52); [reflexivity|lia|].
  change (2 ^ 52) with 4503599627370496.
  change (2 ^ Z.succ 52) with 9007199254740992. exact Hb.
Qed.

Lemma Zdigits2_54 (p : positive) :
  9007199254740992 <= Zpos p < 18014398509481984 ->
  SpecFloat.Zdigits2 (Zpos p) = 54.
Proof.
  intros Hb. cbn [SpecFloat.Zdigits2]. rewrite digits2_pos_log2.
  rewrite (Z.log2_unique (Zpos p) 53); [reflexivity|lia|].
  change (2 ^ 53) with 9007199254740992.
  change (2 ^ Z.succ 53) with 18014398509481984. exact Hb.
Qed.

Lemma shr_1_pos (p : positive) (r s : bool) :
  SpecFloat.shr_1 {| SpecFloat.shr_m := Zpos p; SpecFloat.shr_r := r; SpecFloat.shr_s := s |}
  = {| SpecFloat.shr_m := Z.div2 (Zpos p); SpecFloat.shr_r := Z.odd (Zpos p);
       SpecFloat.shr_s := orb r s |}.
Proof. destruct p; reflexivity. Qed.

Lemma shr_m_of_loc (m : Z) (l : SpecFloat.location) :
  SpecFloat.shr_m (SpecFloat.shr_record_of_loc m l) = m.
Proof. destruct l as [|[]]; reflexivity. Qed.

Lemma loc_of_shr_of_loc (m : Z) (l : SpecFloat.location) :
  SpecFloat.loc_of_shr_record (SpecFloat.shr_record_of_loc m l) = l.
Proof. destruct l as [|[]]; reflexivity. Qed.

Lemma round_nearest_even_bounds (m : Z) (l : SpecFloat.location) :
  m <= SpecFloat.round_nearest_even m l <= m + 1.
Proof. destruct l as [|[]]; simpl; try destruct (Z.even m); lia. Qed.

(** A mantissa of 53 or 54 bits after rounding: the float it gives. *)
Lemma finish_round (m e : Z) :
  4503599627370496 <= m <= 9007199254740992 -> -1000 <= e <= 900 ->
  exists pm e',
    (let '(mrs, e'') := SpecFloat.shr_fexp 53 1024 m e SpecFloat.loc_Exact in
     match SpecFloat.shr_m mrs with
     | Z0 => SpecFloat.S754_zero false
     | Zpos p => if Z.leb e'' (1024 - 53) then SpecFloat.S754_finite false p e''
                 else SpecFloat.S754_infinity false
     | Zneg _ => SpecFloat.S754_nan
     end) = SpecFloat.S754_finite false pm e' /\
    ((m < 9007199254740992 /\ Zpos pm = m /\ e' = e) \/
     (m = 9007199254740992 /\ Zpos pm = 4503599627370496 /\ e' = e + 1)).
Proof.
  intros Hm He. destruct m as [|pm|pm]; try lia.
  destruct (Z.eq_dec (Zpos pm) 9007199254740992) as [Heq|Hne].
  - injection Heq as ->. exists 4503599627370496%positive, (e + 1).
    split; [|right; repeat split; reflexivity].
    unfold SpecFloat.shr_fexp. rewrite Zdigits2_54 by lia.
    unfold SpecFloat.fexp, SpecFloat.emin.
    replace (Z.max (54 + e - 53) (3 - 1024 - 53) - e) with 1 by lia.
    cbn [SpecFloat.shr SpecFloat.iter_pos SpecFloat.shr_record_of_loc].
    rewrite shr_1_pos. cbn [SpecFloat.shr_m].
    change (Z.div2 9007199254740992) with 4503599627370496.
    rewrite (proj2 (Z.leb_le _ _)) by lia. reflexivity.
  - exists pm, e. split; [|left; repeat split; lia].
    unfold SpecFloat.shr_fexp. rewrite Zdigits2_53 by lia.
    unfold SpecFloat.fexp, SpecFloat.emin.
    replace (Z.max (53 + e - 53) (3 - 1024 - 53) - e) with 0 by lia.
    cbn [SpecFloat.shr SpecFloat.shr_record_of_loc SpecFloat.shr_m].
    rewrite (proj2 (Z.leb_le _ _)) by lia. reflexivity.
Qed.

Lemma one_lt_finite (pm : positive) (e : Z) :
  -52 < e \/ (e = -52 /\ 4503599627370496 < Zpos pm) ->
  SpecFloat.SFltb Float64.one (SpecFloat.S754_finite false pm e) = true.
Proof.
  intros H. change Float64.one with (SpecFloat.S754_finite false 4503599627370496 (-52)).
  unfold SpecFloat.SFltb, SpecFloat.SFcompare.
  destruct (Z.compare_spec (-52) e) as [Heq|Hlt|Hgt]; [|reflexivity|lia].
  rewrite Pos.compare_cont_spec. simpl.
  assert (4503599627370496 < pm)%positive as Hp by lia.
  apply Pos.compare_lt_iff in Hp. rewrite Hp. reflexivity.
Qed.

Lemma round_gt_one (q e : Z) (l : SpecFloat.location) :
  4503599627370496 <= q < 18014398509481984 ->
  -105 <= e <= 100 ->
  (q < 9007199254740992 ->
   -52 < e \/ (e = -52 /\ (4503599627370496 < q \/ l = SpecFloat.loc_Inexact Gt))) ->
  (9007199254740992 <= q ->
   -53 < e \/ (e = -53 /\ (9007199254740994 <= q \/
                            (q = 9007199254740993 /\ l <> SpecFloat.loc_Exact)))) ->
  SpecFloat.SFltb Float64.one (SpecFloat.binary_round_aux 53 1024 false q e l) = true.
Proof.
  intros Hq He Hsmall Hbig. destruct q as [|pq|pq]; try lia.
  unfold SpecFloat.binary_round_aux.
  destruct (Z_lt_le_dec (Zpos pq) 9007199254740992) as [Hlt|Hge].
  - (* 53 bits: no shift before rounding *)
    specialize (Hsmall Hlt). clear Hbig.
    unfold SpecFloat.shr_fexp at 1. rewrite Zdigits2_53 by lia.
    unfold SpecFloat.fexp at 1, SpecFloat.emin.
    replace (Z.max (53 + e - 53) (3 - 1024 - 53) - e) with 0 by lia.
    cbn [SpecFloat.shr]. rewrite shr_m_of_loc, loc_of_shr_of_loc.
    pose proof (round_nearest_even_bounds (Zpos pq) l) as Hr.
    assert (l = SpecFloat.loc_Inexact Gt ->
            SpecFloat.round_nearest_even (Zpos pq) l = Zpos pq + 1) as Hup
      by (intros ->; reflexivity).
    destruct (finish_round (SpecFloat.round_nearest_even (Zpos pq) l) e)
      as (pm & e' & -> & Hres); [lia|lia|].
    apply one_lt_finite. destruct Hres as [(H1 & H2 & H3)|(H1 & H2 & H3)].
    + destruct Hsmall as [Hs|(Hs1 & [Hs2|Hs2])]; [lia| |].
      * right. lia.
      * right. rewrite (Hup Hs2) in H2. lia.
    + left. lia.
  - (* 54 bits: one shift before rounding *)
    specialize (Hbig Hge). clear Hsmall.
    unfold SpecFloat.shr_fexp at 1. rewrite Zdigits2_54 by lia.
    unfold SpecFloat.fexp at 1, SpecFloat.emin.
    replace (Z.max (54 + e - 53) (3 - 1024 - 53) - e) with 1 by lia.
    cbn [SpecFloat.shr SpecFloat.iter_pos].
    assert (exists r s, SpecFloat.shr_record_of_loc (Zpos pq) l
                        = {| SpecFloat.shr_m := Zpos pq; SpecFloat.shr_r := r;
                             SpecFloat.shr_s := s |} /\
                        (l <> SpecFloat.loc_Exact -> orb r s = true))
      as (r & s & -> & Hsticky).
    { destruct l as [|[]]; simpl; eexists _, _; (split; [reflexivity|]); intros H;
        try reflexivity; congruence. }
    rewrite shr_1_pos. cbn [SpecFloat.shr_m].
    set (l' := SpecFloat.loc_of_shr_record _).
    pose proof (round_nearest_even_bounds (Z.div2 (Zpos pq)) l') as Hr.
    pose proof (Z.div2_odd (Zpos pq)) as Hdiv.
    assert (Zpos pq = 9007199254740993 -> l <> SpecFloat.loc_Exact ->
            SpecFloat.round_nearest_even (Z.div2 (Zpos pq)) l'
            = Z.div2 (Zpos pq) + 1) as Hup.
    { intros Hq1 Hl. subst l'. rewrite (Hsticky Hl).
      injection Hq1 as ->. reflexivity. }
    assert (0 <= Z.b2z (Z.odd (Zpos pq)) <= 1) as Hb
      by (destruct (Z.odd (Zpos pq)); simpl; lia).
    destruct (finish_round (SpecFloat.round_nearest_even (Z.div2 (Zpos pq)) l') (e + 1))
      as (pm & e' & -> & Hres); [lia|lia|].
    apply one_lt_finite. destruct Hres as [(H1 & H2 & H3)|(H1 & H2 & H3)].
    + destruct Hbig as [Hs|(Hs1 & [Hs2|(Hs2 & Hs3)])]; [lia| |].
      * right. lia.
      * right. rewrite (Hup Hs2 Hs3) in H2.
        assert (Z.div2 (Zpos pq) = 4503599627370496) as Hd
          by (rewrite Hs2; reflexivity).
        lia.
    + left. lia.
Qed.

Lemma new_location_Gt (m r : Z) :
  0 < m -> m < 2 * r -> SpecFloat.new_location m r = SpecFloat.loc_Inexact Gt.
Proof.
  intros Hm0 Hm. unfold SpecFloat.new_location.
  destruct (Z.even m).
  - unfold SpecFloat.new_location_even.
    destruct (Z.eqb_spec r 0) as [->|_]; [lia|].
    rewrite (proj2 (Z.compare_gt_iff _ _)) by lia. reflexivity.
  - unfold SpecFloat.new_location_odd.
    destruct (Z.eqb_spec r 0) as [->|_]; [lia|].
    rewrite (proj2 (Z.compare_gt_iff _ _)) by lia. reflexivity.
Qed.

Lemma new_location_inexact (m r : Z) :
  r <> 0 -> SpecFloat.new_location m r <> SpecFloat.loc_Exact.
Proof.
  intros Hr. unfold SpecFloat.new_location.
  destruct (Z.even m).
  - unfold SpecFloat.new_location_even.
    destruct (Z.eqb_spec r 0) as [->|_]; [lia|discriminate].
  - unfold SpecFloat.new_location_odd.
    destruct (Z.eqb_spec r 0) as [->|_]; [lia|discriminate].
Qed.

(** The quotient of two normal floats, the first the larger, is above 1. *)
Lemma div_gt_one (m1 m2 : positive) (e1 e2 : Z) :
  4503599627370496 <= Zpos m1 < 9007199254740992 ->
  4503599627370496 <= Zpos m2 < 9007199254740992 ->
  -52 <= e1 <= 0 -> -52 <= e2 <= 0 ->
  e2 < e1 \/ (e1 = e2 /\ Zpos m2 < Zpos m1) ->
  Float64.lt Float64.one
    (Float64.div (SpecFloat.S754_finite false m1 e1) (SpecFloat.S754_finite false m2 e2)).
Proof.
  intros Hm1 Hm2 He1 He2 Hgt.
  unfold Float64.lt, Float64.div, SpecFloat.SFdiv, SpecFloat.SFdiv_core_binary.
  rewrite !Zdigits2_53 by lia.
  unfold Float64.prec, Float64.emax, SpecFloat.fexp, SpecFloat.emin.
  replace (Z.min (Z.max (53 + e1 - (53 + e2) - 53) (3 - 1024 - 53)) (e1 - e2))
    with (e1 - e2 - 53) by lia.
  replace (e1 - e2 - (e1 - e2 - 53)) with 53 by lia.
  cbv beta iota zeta. rewrite Z.shiftl_mul_pow2 by lia.
  change (2 ^ 53) with 9007199254740992.
  pose proof (Z_div_mod (Zpos m1 * 9007199254740992) (Zpos m2) eq_refl) as Hdiv.
  destruct (Z.div_eucl (Zpos m1 * 9007199254740992) (Zpos m2)) as [q r].
  destruct Hdiv as [Heq Hr]. simpl xorb.
  assert (4503599627370496 <= q) as Hq1 by nia.
  assert (q < 18014398509481984) as Hq2 by nia.
  apply round_gt_one; [lia|lia| |].
  - intros Hsmall. destruct Hgt as [Hgt|[Hgt1 Hgt2]]; [|nia].
    destruct (Z.eq_dec e1 (e2 + 1)) as [He|He]; [|left; lia].
    right. split; [lia|].
    destruct (Z.eq_dec q 4503599627370496) as [->|Hq]; [|left; lia].
    right. apply new_location_Gt; lia.
  - intros Hbig. destruct Hgt as [Hgt|[Hgt1 Hgt2]]; [left; lia|].
    right. split; [lia|].
    assert (9007199254740993 <= q) as Hq3 by nia.
    destruct (Z.eq_dec q 9007199254740993) as [->|Hq]; [|left; lia].
    right. split; [reflexivity|]. apply new_location_inexact. lia.
Qed.

Lemma iter_xO_value (p k : positive) :
  Zpos (Pos.iter xO p k) = Zpos p * 2 ^ Zpos k.
Proof.
  induction k as [|k IH] using Pos.peano_ind.
  - simpl. lia.
  - rewrite Pos.iter_succ, Pos2Z.inj_xO, IH, Pos2Z.inj_succ, Z.pow_succ_r by lia. lia.
Qed.

Lemma round_exact (pm : positive) (e : Z) :
  4503599627370496 <= Zpos pm < 9007199254740992 -> -1000 <= e <= 900 ->
  SpecFloat.binary_round_aux 53 1024 false (Zpos pm) e SpecFloat.loc_Exact
  = SpecFloat.S754_finite false pm e.
Proof.
  intros Hm He. unfold SpecFloat.binary_round_aux.
  unfold SpecFloat.shr_fexp at 1. rewrite Zdigits2_53 by lia.
  unfold SpecFloat.fexp at 1, SpecFloat.emin.
  replace (Z.max (53 + e - 53) (3 - 1024 - 53) - e) with 0 by lia.
  cbn [SpecFloat.shr SpecFloat.shr_record_of_loc SpecFloat.shr_m
       SpecFloat.loc_of_shr_record SpecFloat.round_nearest_even].
  destruct (finish_round (Zpos pm) e) as (pm' & e' & -> & Hres); [lia|lia|].
  destruct Hres as [(_ & H2 & ->)|(H1 & _)]; [|lia].
  injection H2 as ->. reflexivity.
Qed.

(** An integer below 2^53 is converted exactly, to a normal float. *)
Lemma ofInt64_normal (h : Z) :
  0 < h < 9007199254740992 ->
  exists m,
    Float64.ofInt64 h = SpecFloat.S754_finite false m (Z.log2 h - 52) /\
    Zpos m = h * 2 ^ (52 - Z.log2 h) /\
    4503599627370496 <= Zpos m < 9007199254740992 /\
    0 <= Z.log2 h <= 52.
Proof.
  intros Hh. destruct h as [|p|p]; try lia.
  pose proof (Z.log2_spec (Zpos p) eq_refl) as Hspec.
  pose proof (Z.log2_nonneg (Zpos p)) as Hnn.
  assert (Z.log2 (Zpos p) < 53) as Hlt.
  { apply Z.log2_lt_pow2; [lia|]. change (2 ^ 53) with 9007199254740992. lia. }
  set (k := Z.log2 (Zpos p)) in *.
  assert (2 ^ k * 2 ^ (52 - k) = 4503599627370496) as Hpow.
  { rewrite <- Z.pow_add_r by lia. replace (k + (52 - k)) with 52 by lia. reflexivity. }
  assert (0 < 2 ^ (52 - k)) as Hpos by (apply Z.pow_pos_nonneg; lia).
  rewrite Z.pow_succ_r in Hspec by lia.
  unfold Float64.ofInt64, SpecFloat.binary_normalize, SpecFloat.binary_round,
    SpecFloat.shl_align.
  rewrite digits2_pos_log2. fold k.
  unfold Float64.prec, Float64.emax, SpecFloat.fexp, SpecFloat.emin.
  replace (Z.max (k + 1 + 0 - 53) (3 - 1024 - 53) - 0) with (k - 52) by lia.
  replace (Z.max (k + 1 + 0 - 53) (3 - 1024 - 53)) with (k - 52) by lia.
  destruct (k - 52) as [|d|d] eqn:Hd; try lia.
  - exists p. assert (k = 52) as Hk by lia.
    rewrite round_exact by (rewrite Hk in *; simpl in *; lia).
    rewrite Hk in *. simpl in *. repeat split; lia.
  - exists (Pos.iter xO p d).
    assert (52 - k = Zpos d) as Hk by lia.
    pose proof (iter_xO_value p d) as Hval. rewrite <- Hk in Hval.
    rewrite round_exact by nia.
    repeat split; try lia; nia.
Qed.

(** The quotient of two counters below 2^53, the first the larger, is
    above 1 as a float64. *)
Lemma ofInt64_div_gt_one (h t : Z) :
  0 < t -> t < h -> h < 9007199254740992 ->
  Float64.lt Float64.one (Float64.div (Float64.ofInt64 h) (Float64.ofInt64 t)).
Proof.
  intros Ht Hlt Hh.
  destruct (ofInt64_normal h) as (mh & -> & Hvh & Hmh & Hkh); [lia|].
  destruct (ofInt64_normal t) as (mt & -> & Hvt & Hmt & Hkt); [lia|].
  pose proof (Z.log2_le_mono t h) as Hmono.
  apply div_gt_one; [lia|lia|lia|lia|].
  destruct (Z.eq_dec (Z.log2 t) (Z.log2 h)) as [Heq|Hne]; [|left; lia].
  right. split; [lia|]. rewrite Hvh, Hvt, Heq.
  assert (0 < 2 ^ (52 - Z.log2 h)) by (apply Z.pow_pos_nonneg; lia). nia.
Qed.

(** ** Hit-rate accounting *)

Lemma recording_keep (cs : gmap nat Caller) (ch : nat) (c' : Caller) :
  phase c' <> Recording ->
  (forall c, cs !! ch = Some c -> phase c <> Recording) ->
  filter (fun kv : nat * Caller => phase kv.2 = Recording) (<[ch := c']> cs)
  = filter (fun kv : nat * Caller => phase kv.2 = Recording) cs.
Proof. intros Hc' Hold. by apply map_filter_insert_not'. Qed.

Lemma recording_delete_other (cs : gmap nat Caller) (ch : nat) :
  (forall c, cs !! ch = Some c -> phase c <> Recording) ->
  filter (fun kv : nat * Caller => phase kv.2 = Recording) (delete ch cs)
  = filter (fun kv : nat * Caller => phase kv.2 = Recording) cs.
Proof.
  intros Hold. rewrite map_filter_delete. apply delete_id.
  apply map_lookup_filter_None. destruct (cs !! ch) as [c|] eqn:Hc; [|by left].
  right. intros c0 [= <-]. by apply Hold.
Qed.

Lemma recording_enter (cs : gmap nat Caller) (ch : nat) (c : Caller) :
  cs !! ch = Some c -> phase c <> Recording ->
  size (filter (fun kv : nat * Caller => phase kv.2 = Recording)
          (<[ch := setPhase Recording c]> cs))
  = S (size (filter (fun kv : nat * Caller => phase kv.2 = Recording) cs)).
Proof.
  intros Hc Hph. rewrite map_filter_insert_True by done.
  apply map_size_insert_None. apply map_lookup_filter_None.
  right. intros c0 Hc0. simplify_eq. done.
Qed.

Lemma recording_leave (cs : gmap nat Caller) (ch : nat) (c : Caller) :
  cs !! ch = Some c -> phase c = Recording ->
  S (size (filter (fun kv : nat * Caller => phase kv.2 = Recording) (delete ch cs)))
  = size (filter (fun kv : nat * Caller => phase kv.2 = Recording) cs).
Proof.
  intros Hc Hph. rewrite map_filter_delete.
  assert (filter (fun kv : nat * Caller => phase kv.2 = Recording) cs !! ch = Some c)
    as Hin by by apply map_lookup_filter_Some.
  rewrite map_size_delete_Some by by eexists.
  assert (size (filter (fun kv : nat * Caller => phase kv.2 = Recording) cs) <> 0%nat)
    as Hne.
  { intros H0. apply map_size_empty_inv in H0. by rewrite H0, lookup_empty in Hin. }
  lia.
Qed.

Section Accounting.
Context {sched : Schedule}.

Lemma step_accounted (s s' : System) (e : Event) :
  accounted s -> step s e = Some s' -> accounted s'.
Proof.
  unfold accounted, servedCount, completedCount, recording.
  intros (Hh & Ht & Hle & Hdom) Hstep.
  assert (forall n m : nat, Z.of_nat (n + m) = Z.of_nat n + Z.of_nat m) as Hadd by lia.
  destruct e; simpl in Hstep; repeat case_match; simplify_eq; simpl;
    rewrite ?filter_app, ?length_app; simpl; rewrite ?Nat.add_0_r, ?Hadd; simpl.
  all: try (split; [by rewrite ?Hh, ?wrap64_succ|]).
  all: try done.
  - (* a miss: a new activation at the first select *)
    rewrite recording_keep;
      [|done|intros x Hx; by rewrite Hdom in Hx by lia].
    split; [done|]. split; [done|]. intros ch Hch.
    rewrite lookup_insert_ne by lia. apply Hdom. lia.
  - rewrite recording_keep;
      [|done|intros x Hx; by rewrite Hdom in Hx by lia].
    split; [done|]. split; [done|]. intros ch Hch.
    rewrite lookup_insert_ne by lia. apply Hdom. lia.
  - (* the request is handed over *)
    rewrite recording_keep; [|done|intros x Hx; simplify_eq; congruence].
    split; [done|]. split; [done|]. intros ch0 Hch0.
    destruct (decide (ch0 = ch)) as [->|Hne]; [by rewrite Hdom in * by done|].
    rewrite lookup_insert_ne by done. by apply Hdom.
  - (* the fallback *)
    rewrite recording_keep; [|done|intros x Hx; simplify_eq; congruence].
    split; [done|]. split; [done|]. intros ch0 Hch0.
    destruct (decide (ch0 = ch)) as [->|Hne]; [by rewrite Hdom in * by done|].
    rewrite lookup_insert_ne by done. by apply Hdom.
  - (* the response is taken and stored *)
    rewrite (recording_enter _ _ _ H) by congruence.
    split; [rewrite Ht; f_equal; lia|]. split; [lia|]. intros ch0 Hch0.
    destruct (decide (ch0 = ch)) as [->|Hne]; [by rewrite Hdom in * by done|].
    rewrite lookup_insert_ne by done. by apply Hdom.
  - (* the context is done *)
    rewrite recording_delete_other by (intros x Hx; simplify_eq; congruence).
    split; [done|]. split; [done|]. intros ch0 Hch0.
    destruct (decide (ch0 = ch)) as [->|Hne]; [apply lookup_delete_eq|].
    rewrite lookup_delete_ne by done. by apply Hdom.
  - rewrite (recording_enter _ _ _ H) by congruence.
    split; [rewrite Ht; f_equal; lia|]. split; [lia|]. intros ch0 Hch0.
    destruct (decide (ch0 = ch)) as [->|Hne]; [by rewrite Hdom in * by done|].
    rewrite lookup_insert_ne by done. by apply Hdom.
  - rewrite recording_delete_other by (intros x Hx; simplify_eq; congruence).
    split; [done|]. split; [done|]. intros ch0 Hch0.
    destruct (decide (ch0 = ch)) as [->|Hne]; [apply lookup_delete_eq|].
    rewrite lookup_delete_ne by done. by apply Hdom.
  - (* the request is recorded *)
    pose proof (recording_leave _ _ _ H H0) as Hleave.
    rewrite <- Hleave in Ht, Hle.
    split; [rewrite Ht, wrap64_succ; f_equal; lia|]. split; [lia|]. intros ch0 Hch0.
    destruct (decide (ch0 = ch)) as [->|Hne]; [apply lookup_delete_eq|].
    rewrite lookup_delete_ne by done. by apply Hdom.
Qed.

Lemma run_accounted (evs : list Event) (s s' : System) :
  accounted s -> run s evs = Some s' -> accounted s'.
Proof.
  revert s. induction evs as [|e evs IH]; intros s Hs Hrun; simpl in Hrun.
  - by simplify_eq.
  - destruct (step s e) as [s1|] eqn:Hstep; [|done].
    eapply IH; [|done]. by eapply step_accounted.
Qed.

Lemma hit_rate_above_one (m : Metrics) :
  0 < totalRequests m < cacheHits m -> cacheHits m < 2 ^ 53 ->
  Float64.lt Float64.one (getCacheHitRate m).
Proof.
  intros [Ht Hh] Hb. unfold getCacheHitRate.
  destruct (decide (totalRequests m = 0)); [lia|].
  apply ofInt64_div_gt_one; [done|done|]. exact Hb.
Qed.

(** C10, as amended.  On every run of a new optimizer [cacheHits] counts
    the calls served from the cache and [totalRequests] only the calls
    that took a response from their channel and have recorded it (both
    modulo 2^64), so a cache hit leaves [totalRequests] alone;
    [getCacheHitRate] is 0 when [totalRequests] is 0 and otherwise the
    [float64] quotient of the two counters; and it is above 1 whenever
    the hits outnumber the recorded requests, at least one request has
    been recorded, and the counters are below 2^53. *)
Theorem hit_rate_accounting (numCPU : Z) (evs : list Event) (s : System) :
  run (initial (NewOptimizer numCPU)) evs = Some s ->
  let m := metrics (opt s) in
  cacheHits m = wrap64 (Z.of_nat (servedCount s)) /\
  totalRequests m
  = wrap64 (Z.of_nat (completedCount s) - Z.of_nat (size (recording s))) /\
  (size (recording s) <= completedCount s)%nat /\
  (totalRequests m = 0 -> getCacheHitRate m = Float64.zero) /\
  (totalRequests m <> 0 ->
   getCacheHitRate m
   = Float64.div (Float64.ofInt64 (cacheHits m)) (Float64.ofInt64 (totalRequests m))) /\
  (0 < totalRequests m < cacheHits m -> cacheHits m < 2 ^ 53 ->
   Float64.lt Float64.one (getCacheHitRate m)) /\
  (Z.of_nat (servedCount s) < 2 ^ 53 ->
   (0 < completedCount s - size (recording s) < servedCount s)%nat ->
   Float64.lt Float64.one (getCacheHitRate m)).
Proof.
  intros Hrun m.
  assert (accounted s) as (Hh & Ht & Hle & _).
  { eapply run_accounted; [|done].
    unfold accounted, servedCount, completedCount, recording. simpl.
    rewrite map_filter_empty, map_size_empty. done. }
  split; [done|]. split; [done|]. split; [done|].
  split; [|split; [|split]].
  - intros H0. unfold getCacheHitRate. by destruct (decide _).
  - intros H0. unfold getCacheHitRate. by destruct (decide _).
  - apply hit_rate_above_one.
  - intros Hrange Hlt. subst m.
    assert (2 ^ 53 < 2 ^ 63) as Hpow by done.
    apply hit_rate_above_one; rewrite ?Hh, ?Ht;
      rewrite !wrap64_id by (unfold int64; lia); lia.
Qed.

End Accounting.

Lemma hit_rate_accounting_witness :
  exists s,
    run (sched := inOrder) (initial (NewOptimizer 4)) hitTrace = Some s /\
    totalRequests (metrics (opt s)) = 1 /\
    cacheHits (metrics (opt s)) = 2 /\
    getCacheHitRate (metrics (opt s)) = Float64.ofInt64 2 /\
    Float64.lt Float64.one (getCacheHitRate (metrics (opt s))).
Proof.
  destruct (run (sched := inOrder) (initial (NewOptimizer 4)) hitTrace) as [s|] eqn:Hrun;
    [|vm_compute in Hrun; discriminate Hrun].
  pose proof (hit_rate_accounting (sched := inOrder) 4 hitTrace s Hrun)
    as (_ & _ & _ & _ & _ & Hgt & _).
  exists s. split; [reflexivity|].
  vm_compute in Hrun. injection Hrun as <-.
  split; [reflexivity|]. split; [reflexivity|]. split; [by vm_compute|].
  apply Hgt; vm_compute; [split; reflexivity|reflexivity].
Defined.

(** The claim as it was stated fails where the guard applies and where
    [float64] runs out of precision.  Two calls hit the entry that a
    third has stored but not yet recorded: two hits against the one
    request that missed the cache, no request recorded, and the rate is
    0.  And 2^53 + 1 hits over 2^53 requests give exactly 1, both
    counters being rounded to the same float. *)
Lemma hit_rate_not_above_one :
  (exists s,
     run (sched := inOrder) (initial (NewOptimizer 4))
       [Call 0 "s1" "/user:build A" 0; Handoff 0; Recv 1; Tick 2; Select 0 true 3;
        Call 1 "s1" "/user:build A" 4; Call 2 "s1" "/user:build A" 5]
     = Some s /\
     servedCount s = 2%nat /\ completedCount s = 1%nat /\ nextChan s = 1%nat /\
     cacheHits (metrics (opt s)) = 2 /\ totalRequests (metrics (opt s)) = 0 /\
     getCacheHitRate (metrics (opt s)) = Float64.zero /\
     ~ Float64.lt Float64.one (getCacheHitRate (metrics (opt s)))) /\
  (let m := {| totalRequests := 2 ^ 53; cacheHits := 2 ^ 53 + 1;
               avgDuration := 0; peakMemory := 0 |} in
   getCacheHitRate m = Float64.one /\ ~ Float64.lt Float64.one (getCacheHitRate m)).
Proof.
  split.
  - eexists. split; [by vm_compute|]. vm_compute. repeat split; try done.
  - vm_compute. split; [done|discriminate].
Qed.

(** ** Cache freshness *)

Lemma Since_expired (now t : Z) :
  Time.Since now t > 15 * Time.Minute <-> now - t > 15 * Time.Minute.
Proof.
  unfold Time.Since, Time.Sub, Time.minDuration, Time.maxDuration, Time.Minute,
    Time.Second, Time.Millisecond, Time.Microsecond, Time.Nanosecond.
  repeat case_decide; lia.
Qed.

Lemma IsExpired_true (now : Z) (e : CacheEntry) :
  CacheEntry.IsExpired now e = true <-> now - CacheEntry.Timestamp e > 15 * Time.Minute.
Proof.
  unfold CacheEntry.IsExpired. rewrite bool_decide_eq_true. apply Since_expired.
Qed.

Lemma IsExpired_false (now : Z) (e : CacheEntry) :
  CacheEntry.IsExpired now e = false <-> now - CacheEntry.Timestamp e <= 15 * Time.Minute.
Proof.
  unfold CacheEntry.IsExpired. rewrite bool_decide_eq_false, Since_expired. lia.
Qed.

(** C3.  The claim fails on the schedule [staleDelete].  The second call
    stores its response for the key 52 ms after minute 16, and that is
    the last store for the key; the callback of [cleanCache], which had
    tested the old entry a millisecond before, then deletes by key.  A
    lookup at minute 17, well within 15 minutes of the store, finds
    nothing: no outcome is served from the cache, [cacheHits] stays 0,
    and the call goes on as a new request.  With the deletion before the
    store ([promptDelete]) the same lookup is a hit that returns the
    stored value and counts. *)
Theorem cache_freshness_lost :
  17 * Time.Minute - (16 * Time.Minute + 52 * Time.Millisecond) <= 15 * Time.Minute /\
  (exists s s',
     run (sched := inOrder) (initial (NewOptimizer 4)) staleDelete = Some s /\
     last (returns s)
     = Some {| retKey := "s1:/user:build A"; retChan := Some 1%nat;
               retOutcome :=
                 Returned {| Result := "Processed: /user:build A"; Error := None;
                             CacheHit := false; BatchSize := 1;
                             Duration := 50 * Time.Millisecond |} |} /\
     cache (opt s) !! "s1:/user:build A" = None /\
     step (sched := inOrder) s (Call 2 "s1" "/user:build A" (17 * Time.Minute)) = Some s' /\
     returns s' = returns s /\
     cacheHits (metrics (opt s')) = 0 /\
     phase <$> callers s' !! 2%nat = Some Handing) /\
  (exists p p',
     run (sched := inOrder) (initial (NewOptimizer 4)) promptDelete = Some p /\
     cache (opt p) !! "s1:/user:build A"
     = Some {| CacheEntry.Data := "Processed: /user:build A";
               CacheEntry.Timestamp := 16 * Time.Minute + 52 * Time.Millisecond |} /\
     step (sched := inOrder) p (Call 2 "s1" "/user:build A" (17 * Time.Minute)) = Some p' /\
     returns p'
     = returns p
       ++ [{| retKey := "s1:/user:build A"; retChan := None;
              retOutcome :=
                Returned {| Result := "Processed: /user:build A"; Error := None;
                            CacheHit := true; BatchSize := 0; Duration := 0 |} |}] /\
     cacheHits (metrics (opt p')) = 1).
Proof.
  split; [by vm_compute|]. split.
  - eexists _, _. split; [vm_compute; reflexivity|].
    split; [vm_compute; reflexivity|]. split; [vm_compute; reflexivity|].
    split; [vm_compute; reflexivity|]. split; [vm_compute; reflexivity|].
    split; vm_compute; reflexivity.
  - eexists _, _. split; [vm_compute; reflexivity|].
    split; [vm_compute; reflexivity|]. split; [vm_compute; reflexivity|].
    split; vm_compute; reflexivity.
Qed.

(** ** The batch collector *)

Section Collector.
Context {sched : Schedule}.

Lemma step_bounded (C : Z) (s s' : System) (e : Event) :
  bounded C s -> step s e = Some s' -> bounded C s'.
Proof.
  intros (HC & Hlen & Hfl) Hstep. unfold bounded.
  destruct e; simpl in Hstep; repeat case_match; simplify_eq; simpl; try done.
  - (* flush on size *)
    split; [done|]. split; [lia|].
    intros cause b Hin. apply elem_of_app in Hin as [Hin|Hin]; [by apply Hfl|].
    apply list_elem_of_singleton in Hin. simplify_eq.
    match goal with Hd : decide _ = _ |- _ => clear Hd end.
    rewrite length_app in *. simpl in *. lia.
  - (* the buffer grows *)
    split; [done|]. split; [|done].
    match goal with Hd : decide _ = _ |- _ => clear Hd end.
    rewrite length_app in *. simpl in *. lia.
  - (* flush on the timer *)
    split; [done|]. split; [lia|].
    intros cause b Hin. apply elem_of_app in Hin as [Hin|Hin]; [by apply Hfl|].
    apply list_elem_of_singleton in Hin. simplify_eq. split; [lia|done].
Qed.

Lemma run_bounded (C : Z) (evs : list Event) (s s' : System) :
  bounded C s -> run s evs = Some s' -> bounded C s'.
Proof.
  revert s. induction evs as [|e evs IH]; intros s Hs Hrun; simpl in Hrun.
  - by simplify_eq.
  - destruct (step s e) as [s1|] eqn:Hstep; [|done].
    eapply IH; [|done]. by eapply step_bounded.
Qed.

(** C5.  On every run of an optimizer whose batch size [C] is at least 1
    (a new optimizer has 10), each batch that is flushed because the
    buffer reached [C] has exactly, hence at most, [C] members; no batch
    flushed on the timer is longer; and the buffer left behind by a step
    is shorter than [C]. *)
Theorem batch_size_bound (o : Optimizer) (evs : list Event) (s : System) :
  0 < batchSize o ->
  run (initial o) evs = Some s ->
  Z.of_nat (length (batch s)) < batchSize o /\
  forall cause b, (cause, b) ∈ flushes s ->
    Z.of_nat (length b) <= batchSize o /\
    (cause = BySize -> Z.of_nat (length b) = batchSize o).
Proof.
  intros Hpos Hrun.
  assert (bounded (batchSize o) s) as (_ & Hlen & Hfl).
  { eapply run_bounded; [|done].
    split; [done|]. split; [simpl; lia|]. intros cause b Hin. simpl in Hin.
    by apply not_elem_of_nil in Hin. }
  done.
Qed.

End Collector.

Lemma batch_size_bound_witness :
  exists s b,
    run (sched := inOrder) (initial (NewOptimizer 4)) fullBatchTrace = Some s /\
    flushes s = [(BySize, b)] /\
    Z.of_nat (length b) <= 10.
Proof.
  destruct (run (sched := inOrder) (initial (NewOptimizer 4)) fullBatchTrace) as [s|] eqn:Hrun;
    [|vm_compute in Hrun; discriminate Hrun].
  pose proof (batch_size_bound (sched := inOrder) (NewOptimizer 4) fullBatchTrace s
                ltac:(reflexivity) Hrun) as [_ Hfl].
  vm_compute in Hrun. injection Hrun as <-.
  eexists _, _. split; [reflexivity|]. split; [reflexivity|].
  eapply (Hfl BySize). left.
Defined.

(** ** The worker pool *)

Module WorkerPoolFacts.
Import WorkerPool WorkerPoolSpec.

Section Facts.
Context {Task : Type}.
Implicit Types (wp : WorkerPool Task) (ws : list (option Task)).

Lemma executing_running wp : executing wp = length (running wp).
Proof.
  unfold executing, running. induction (workerOf wp) as [|[t|] ws IH]; [done| |].
  - rewrite filter_cons_True by done. simpl. by rewrite IH.
  - rewrite filter_cons_False by (intros [? ?]; done). done.
Qed.

Lemma executing_le wp : (executing wp <= length (workerOf wp))%nat.
Proof. apply length_filter. Qed.

Lemma running_start ws i task :
  ws !! i = Some None -> omap id (<[i := Some task]> ws) ≡ₚ task :: omap id ws.
Proof.
  intros Hi.
  rewrite insert_take_drop by (by eapply lookup_lt_Some).
  rewrite <- (take_drop_middle ws i None) at 3 by done.
  rewrite !omap_app. simpl. by rewrite Permutation_middle.
Qed.

Lemma running_finish ws i task :
  ws !! i = Some (Some task) -> omap id ws ≡ₚ task :: omap id (<[i := None]> ws).
Proof.
  intros Hi.
  rewrite insert_take_drop by (by eapply lookup_lt_Some).
  rewrite <- (take_drop_middle ws i (Some task)) at 1 by done.
  rewrite !omap_app. simpl. by rewrite Permutation_middle.
Qed.

Lemma NewWorkerPool_inv (w : Z) wp :
  NewWorkerPool w = Some wp -> 0 <= w /\ poolInv w wp /\
  completed wp ++ running wp ++ waitingTasks wp = [].
Proof.
  unfold NewWorkerPool. case_decide; [done|]. intros [= <-].
  split; [lia|]. unfold poolInv, running, waitingTasks. simpl.
  assert (omap id (replicate (Z.to_nat w) (@None Task)) = []) as ->.
  { induction (Z.to_nat w); simpl; done. }
  rewrite length_replicate. simpl. repeat split; lia.
Qed.

Lemma step_poolInv (w : Z) wp wp' (e : Event Task) :
  poolInv w wp -> step wp e = Some wp' -> poolInv w wp'.
Proof.
  unfold poolInv, running, waitingTasks.
  intros (Hw & Hcap & Hlen & Hq & Hwg) Hstep.
  destruct e as [task|j|i|i]; simpl in Hstep; repeat case_match; simplify_eq; simpl.
  - repeat split; try done.
    + rewrite length_app. simpl. lia.
    + rewrite Hwg, !length_app. simpl. lia.
  - repeat split; try done.
    rewrite Hwg, !length_app. simpl. lia.
  - repeat split; try done.
    + rewrite length_app. simpl. lia.
    + rewrite Hwg, !length_app. simpl.
      match goal with Hb : blocked wp !! _ = Some _ |- _ =>
        apply delete_Permutation in Hb; revert Hb end.
      generalize (delete j (blocked wp)). intros d ->. simpl. lia.
  - repeat split; try done.
    + by rewrite length_insert.
    + simpl in Hq. lia.
    + rewrite Hwg, running_start by done. rewrite !length_app. simpl. lia.
  - repeat split; try done.
    + by rewrite length_insert.
    + rewrite Hwg.
      match goal with Hi : workerOf wp !! _ = Some (Some _) |- _ =>
        apply running_finish in Hi; revert Hi end.
      generalize (omap id (<[i:=None]> (workerOf wp))). intros r ->.
      rewrite !length_app. simpl. lia.
Qed.

Lemma step_accounting wp wp' (e : Event Task) :
  step wp e = Some wp' ->
  completed wp' ++ running wp' ++ waitingTasks wp'
  ≡ₚ (completed wp ++ running wp ++ waitingTasks wp) ++ submitted [e].
Proof.
  unfold running, waitingTasks. intros Hstep.
  destruct e as [task|j|i|i]; simpl in Hstep; repeat case_match; simplify_eq; simpl;
    rewrite ?app_nil_r.
  - solve_Permutation.
  - solve_Permutation.
  - match goal with Hb : blocked wp !! _ = Some _ |- _ =>
      apply delete_Permutation in Hb; revert Hb end.
    generalize (delete j (blocked wp)). intros d ->. solve_Permutation.
  - rewrite running_start by done. solve_Permutation.
  - match goal with Hi : workerOf wp !! _ = Some (Some _) |- _ =>
      apply running_finish in Hi; revert Hi end.
    generalize (omap id (<[i:=None]> (workerOf wp))). intros r ->. solve_Permutation.
Qed.

Lemma run_poolInv (w : Z) (evs : list (Event Task)) wp wp' :
  poolInv w wp -> run wp evs = Some wp' ->
  poolInv w wp' /\
  completed wp' ++ running wp' ++ waitingTasks wp'
  ≡ₚ (completed wp ++ running wp ++ waitingTasks wp) ++ submitted evs.
Proof.
  revert wp. induction evs as [|e evs IH]; intros wp Hinv Hrun; simpl in Hrun.
  - simplify_eq. split; [done|]. unfold submitted. simpl. by rewrite app_nil_r.
  - destruct (step wp e) as [wp1|] eqn:Hstep; [|done].
    destruct (IH wp1) as [Hinv' Hperm]; [by eapply step_poolInv|done|].
    split; [done|]. rewrite Hperm, (step_accounting _ _ _ Hstep).
    unfold submitted. simpl. destruct e; simpl; rewrite <- ?app_assoc; simpl; done.
Qed.

(** C8.  In every state that a pool built by [NewWorkerPool] for [w]
    workers can reach, at most [w] tasks are executing and at most [2 * w]
    are queued; every task that was submitted is completed, executing, or
    waiting (in the queue, or with its submitter blocked at the send on a
    full queue), each exactly once; and a new optimizer builds its pool
    for twice the number of CPUs. *)
Theorem worker_pool_bound (w : Z) (evs : list (Event Task)) wp0 wp :
  NewWorkerPool w = Some wp0 ->
  run wp0 evs = Some wp ->
  Z.of_nat (executing wp) <= w /\
  executing wp = length (running wp) /\
  Z.of_nat (length (taskQueue wp)) <= w * 2 /\
  completed wp ++ running wp ++ waitingTasks wp ≡ₚ submitted evs /\
  (forall numCPU, workerPool (NewOptimizer numCPU) = numCPU * 2).
Proof.
  intros Hnew Hrun.
  destruct (NewWorkerPool_inv w wp0 Hnew) as (Hw & Hinv0 & Hempty).
  destruct (run_poolInv w evs wp0 wp Hinv0 Hrun) as [(_ & _ & Hlen & Hq & _) Hperm].
  split; [|split; [|split; [|split]]].
  - pose proof (executing_le wp). lia.
  - apply executing_running.
  - done.
  - by rewrite Hperm, Hempty.
  - done.
Qed.

(** Once nothing is executing or waiting any more, the tasks that have
    completed are the tasks that were submitted, each once: this is what
    [parallelTestRequests] relies on when it joins its tasks. *)
Lemma drained_completed (w : Z) (evs : list (Event Task)) wp0 wp :
  NewWorkerPool w = Some wp0 ->
  run wp0 evs = Some wp ->
  running wp = [] -> waitingTasks wp = [] ->
  completed wp ≡ₚ submitted evs.
Proof.
  intros Hnew Hrun Hr Hw.
  destruct (NewWorkerPool_inv w wp0 Hnew) as (_ & Hinv0 & Hempty).
  destruct (run_poolInv w evs wp0 wp Hinv0 Hrun) as [_ Hperm].
  by rewrite Hr, Hw, Hempty, !app_nil_r in Hperm.
Qed.

End Facts.

Lemma worker_pool_bound_witness :
  exists wp0 wp,
    NewWorkerPool 2 = Some wp0 /\ run wp0 sixTasks = Some wp /\
    executing wp = 2%nat /\ Z.of_nat (executing wp) <= 2.
Proof.
  destruct (NewWorkerPool (Task := nat) 2) as [wp0|] eqn:Hnew;
    [|vm_compute in Hnew; discriminate Hnew].
  destruct (run wp0 sixTasks) as [wp|] eqn:Hrun;
    [|vm_compute in Hnew; injection Hnew as <-; vm_compute in Hrun; discriminate Hrun].
  pose proof (worker_pool_bound 2 sixTasks wp0 wp Hnew Hrun) as (Hle & _).
  exists wp0, wp. split; [reflexivity|]. split; [exact Hrun|]. split; [|exact Hle].
  vm_compute in Hnew. injection Hnew as <-. vm_compute in Hrun. injection Hrun as <-.
  reflexivity.
Defined.

End WorkerPoolFacts.

(** ** The effects of a dispatch *)

Lemma responsesOn_app (ch : nat) (D1 D2 : list Delivery) :
  responsesOn ch (D1 ++ D2) = responsesOn ch D1 ++ responsesOn ch D2.
Proof. unfold responsesOn. by rewrite filter_app, fmap_app. Qed.

Lemma effects_id : effects (fun d => d) [] [].
Proof. intros d. split; [by rewrite app_nil_r|]. intros ch. by rewrite app_nil_r. Qed.

Lemma effects_send (r : OptimizedRequest) (v : OptimizedResponse) :
  effects (send (Response r) v) [(r, v)] [].
Proof.
  intros d. split; [by rewrite app_nil_r|]. intros ch. simpl.
  unfold responsesOn. rewrite filter_cons, filter_nil. simpl.
  destruct (decide (Response r = ch)) as [->|Hne]; simpl.
  - by rewrite lookup_total_insert_eq.
  - rewrite lookup_total_insert_ne by done. by rewrite app_nil_r.
Qed.

Lemma effects_execute (x : Execution) : effects (execute x) [] [x].
Proof. intros d. split; [done|]. intros ch. simpl. by rewrite app_nil_r. Qed.

Lemma effects_comp (f g : Dispatch -> Dispatch) D1 E1 D2 E2 :
  effects f D1 E1 -> effects g D2 E2 ->
  effects (fun d => g (f d)) (D1 ++ D2) (E1 ++ E2).
Proof.
  intros Hf Hg d. destruct (Hf d) as [Hfe Hfc], (Hg (f d)) as [Hge Hgc]. split.
  - by rewrite Hge, Hfe, app_assoc.
  - intros ch. by rewrite Hgc, Hfc, responsesOn_app, app_assoc.
Qed.

Lemma effects_foldl {A} (f : Dispatch -> A -> Dispatch)
    (D : A -> list Delivery) (E : A -> list Execution) (l : list A) :
  (forall a, effects (fun d => f d a) (D a) (E a)) ->
  effects (fun d => foldl f d l) (l ≫= D) (l ≫= E).
Proof.
  intros Hf. induction l as [|a l IH].
  - apply effects_id.
  - rewrite !bind_cons. simpl.
    apply (effects_comp (fun d => f d a) (fun d => foldl f d l)); [apply Hf | apply IH].
Qed.

Lemma bind_singleton_fmap {A B} (g : A -> B) (l : list A) :
  l ≫= (fun x => [g x]) = g <$> l.
Proof. induction l as [|a l IH]; [done|]. by rewrite bind_cons, fmap_cons, IH. Qed.

Section DispatchEffects.
Context {sched : Schedule}.

Lemma processSingleRequest_effects (now : Z) (r : OptimizedRequest) :
  effects (processSingleRequest now r) [(r, singleResponse now r)]
    [Processed (Command r)].
Proof.
  pose proof (effects_comp _ _ _ _ _ _ (effects_execute (Processed (Command r)))
                (effects_send r (singleResponse now r))) as Hc.
  simpl in Hc. exact Hc.
Qed.

Lemma processEach_effects (now : Z) (l : list OptimizedRequest) :
  effects (fun d => foldl (fun d req => processSingleRequest now req d) d l)
    (singleDeliveries now l) ((fun r => Processed (Command r)) <$> l).
Proof.
  unfold singleDeliveries. rewrite <- !bind_singleton_fmap.
  apply (effects_foldl (fun d req => processSingleRequest now req d)).
  intros r. apply processSingleRequest_effects.
Qed.

Lemma bind_nil_const {A B} (l : list A) : l ≫= (fun _ => @nil B) = [].
Proof. induction l as [|a l IH]; [done|]. by rewrite bind_cons. Qed.

Lemma analyzeTarget_effects (now : Z) (entry : string * list OptimizedRequest) :
  effects (fun d => analyzeTarget now d entry) (targetDeliveries now entry)
    [Analyzed entry.1].
Proof.
  destruct entry as [target reqs]. unfold targetDeliveries. simpl.
  pose proof (effects_comp _ _ _ _ _ _ (effects_execute (Analyzed target))
    (effects_foldl
       (fun d req => send (Response req) (combinedResponse now target (length reqs) req) d)
       (fun r => [(r, combinedResponse now target (length reqs) r)])
       (fun _ => []) reqs
       (fun r => effects_send r (combinedResponse now target (length reqs) r)))) as Hc.
  rewrite bind_nil_const, bind_singleton_fmap in Hc. simpl in Hc. exact Hc.
Qed.

Lemma combineAnalyzeRequests_effects (now : Z) (requests : list OptimizedRequest) :
  effects (combineAnalyzeRequests now requests)
    (targetsOf requests ≫= targetDeliveries now)
    ((fun t => Analyzed t.1) <$> targetsOf requests).
Proof.
  unfold combineAnalyzeRequests. rewrite <- bind_singleton_fmap.
  apply (effects_foldl (analyzeTarget now)). apply analyzeTarget_effects.
Qed.

Lemma processCommandGroup_effects (now : Z) (entry : string * list OptimizedRequest) :
  effects (processCommandGroup now entry.1 entry.2) (groupDeliveries now entry)
    (groupExecutions entry).
Proof.
  unfold processCommandGroup, groupDeliveries, groupExecutions.
  destruct (decide (entry.1 = "analyze")); [apply combineAnalyzeRequests_effects|].
  destruct (decide (entry.1 = "test")); apply processEach_effects.
Qed.

Lemma processBatch_effects (now : Z) (batch : list OptimizedRequest) :
  effects (processBatch now batch) (batchDeliveries now batch) (batchExecutions batch).
Proof.
  unfold processBatch, batchDeliveries, batchExecutions.
  apply (effects_foldl (fun d '(cmdType, reqs) => processCommandGroup now cmdType reqs d)).
  intros [ct reqs]. apply (processCommandGroup_effects now (ct, reqs)).
Qed.

End DispatchEffects.

(** ** Grouping *)

Section Grouping.
Context (f : OptimizedRequest -> string).
Implicit Types (m : gmap string (list OptimizedRequest)) (l : list OptimizedRequest).

Local Abbreviation grow := (foldl (fun m req => groupAppend (f req) req m)).

Lemma groupAppend_lookup_total m (r : OptimizedRequest) (k : string) :
  groupAppend (f r) r m !!! k
  = m !!! k ++ (if decide (f r = k) then [r] else []).
Proof.
  unfold groupAppend. destruct (decide (f r = k)) as [->|Hne].
  - by rewrite lookup_total_insert_eq.
  - rewrite lookup_total_insert_ne by done. by rewrite app_nil_r.
Qed.

Lemma grow_lookup_total l m (k : string) :
  grow m l !!! k = m !!! k ++ filter (fun r => f r = k) l.
Proof.
  revert m. induction l as [|r l IH]; intros m; simpl.
  - by rewrite app_nil_r.
  - rewrite IH, groupAppend_lookup_total, filter_cons.
    destruct (decide (f r = k)); simpl; by rewrite <- app_assoc.
Qed.

Lemma groupAppend_is_Some m (r : OptimizedRequest) (k : string) :
  is_Some (m !! k) \/ f r = k -> is_Some (groupAppend (f r) r m !! k).
Proof.
  unfold groupAppend. rewrite lookup_insert_is_Some.
  intros [Hk| ->]; [|by left].
  destruct (decide (f r = k)); [by left | by right].
Qed.

Lemma grow_is_Some l m (k : string) :
  is_Some (m !! k) \/ (exists r, r ∈ l /\ f r = k) -> is_Some (grow m l !! k).
Proof.
  revert m. induction l as [|r l IH]; intros m; simpl.
  - intros [Hk|(r & Hr & _)]; [done|]. by apply not_elem_of_nil in Hr.
  - intros [Hk|(r' & Hr' & Hf)]; apply IH.
    + left. apply groupAppend_is_Some. by left.
    + apply elem_of_cons in Hr' as [->|Hr'].
      * left. apply groupAppend_is_Some. by right.
      * right. by exists r'.
Qed.

Lemma groupAppend_members m (r : OptimizedRequest) :
  map_to_list (groupAppend (f r) r m) ≫= snd ≡ₚ (map_to_list m ≫= snd) ++ [r].
Proof.
  unfold groupAppend. destruct (m !! f r) as [g|] eqn:Hk.
  - rewrite (lookup_total_correct _ _ _ Hk).
    rewrite <- insert_delete_eq.
    rewrite map_to_list_insert by apply lookup_delete_eq.
    rewrite <- (map_to_list_delete m (f r) g Hk).
    rewrite !bind_cons. simpl. solve_Permutation.
  - rewrite lookup_total_alt, Hk. simpl.
    rewrite map_to_list_insert by done.
    rewrite bind_cons. simpl. solve_Permutation.
Qed.

Lemma grow_members l m :
  map_to_list (grow m l) ≫= snd ≡ₚ (map_to_list m ≫= snd) ++ l.
Proof.
  revert m. induction l as [|r l IH]; intros m; simpl.
  - by rewrite app_nil_r.
  - rewrite IH, groupAppend_members. by rewrite <- app_assoc.
Qed.

(** The groups partition the list: together they hold every request
    exactly once. *)
Lemma groupBy_members l : map_to_list (groupBy f l) ≫= snd ≡ₚ l.
Proof.
  unfold groupBy. rewrite grow_members, map_to_list_empty. done.
Qed.

(** The group under a key holds the requests with that key, in order. *)
Lemma groupBy_entry l (k : string) (g : list OptimizedRequest) :
  (k, g) ∈ map_to_list (groupBy f l) -> g = filter (fun r => f r = k) l.
Proof.
  rewrite elem_of_map_to_list. intros Hk.
  apply lookup_total_correct in Hk. rewrite <- Hk.
  unfold groupBy. by rewrite grow_lookup_total, lookup_total_empty.
Qed.

(** Every request is in the group of its key. *)
Lemma groupBy_has_entry l (r : OptimizedRequest) :
  r ∈ l -> (f r, filter (fun r' => f r' = f r) l) ∈ map_to_list (groupBy f l).
Proof.
  intros Hr.
  destruct (grow_is_Some l ∅ (f r)) as [g Hg]; [right; by exists r|].
  fold (groupBy f l) in Hg.
  assert ((f r, g) ∈ map_to_list (groupBy f l)) as Hin by by apply elem_of_map_to_list.
  by rewrite <- (groupBy_entry _ _ _ Hin).
Qed.

End Grouping.

(** ** Who gets what from a batch *)

Lemma bind_Permutation_pointwise {A B} (g1 g2 : A -> list B) (l : list A) :
  (forall x, g1 x ≡ₚ g2 x) -> l ≫= g1 ≡ₚ l ≫= g2.
Proof.
  intros Hg. induction l as [|a l IH]; [done|].
  by rewrite !bind_cons, IH, Hg.
Qed.

Lemma fmap_bind_list {A B C} (h : B -> C) (g : A -> list B) (l : list A) :
  h <$> (l ≫= g) = l ≫= (fun x => h <$> g x).
Proof.
  induction l as [|a l IH]; [done|].
  by rewrite !bind_cons, fmap_app, IH.
Qed.

Lemma filter_fst_fmap (ch : nat) (D : list Delivery) :
  (filter (fun p => Response p.1 = ch) D).*1 = filter (fun r => Response r = ch) D.*1.
Proof.
  induction D as [|p D IH]; [done|].
  rewrite fmap_cons, !filter_cons.
  destruct (decide (Response p.1 = ch)); rewrite ?fmap_cons, IH; done.
Qed.

Lemma NoDup_fmap_eq {A B} (h : A -> B) (l : list A) (x y : A) :
  NoDup (h <$> l) -> x ∈ l -> y ∈ l -> h x = h y -> x = y.
Proof.
  induction l as [|a l IH]; intros Hnd Hx Hy Hxy; [by apply not_elem_of_nil in Hx|].
  rewrite fmap_cons in Hnd. apply NoDup_cons in Hnd as [Ha Hnd].
  apply elem_of_cons in Hx as [->|Hx], Hy as [->|Hy]; [done| | |by apply IH].
  - exfalso. apply Ha. rewrite Hxy. by apply list_elem_of_fmap_2.
  - exfalso. apply Ha. rewrite <- Hxy. by apply list_elem_of_fmap_2.
Qed.

Lemma filter_NoDup_length {A B} `{EqDecision B} (h : A -> B) (l : list A) (b : B) :
  NoDup (h <$> l) ->
  length (filter (fun x => h x = b) l) = if decide (b ∈ h <$> l) then 1%nat else 0%nat.
Proof.
  induction l as [|a l IH]; intros Hnd.
  - rewrite fmap_nil, filter_nil.
    case_decide as Hin; [by apply not_elem_of_nil in Hin | done].
  - rewrite fmap_cons in *. apply NoDup_cons in Hnd as [Ha Hnd].
    rewrite filter_cons. specialize (IH Hnd).
    destruct (decide (h a = b)) as [<-|Hne].
    + simpl length. rewrite IH. repeat case_decide; try done.
      exfalso. match goal with Hn : ~ _ ∈ _ :: _ |- _ => apply Hn end. left.
    + rewrite IH. repeat case_decide; try done; exfalso.
      * match goal with Hn : ~ _ ∈ _ :: _ |- _ => apply Hn end. by right.
      * match goal with Hi : _ ∈ _ :: _ |- _ => apply elem_of_cons in Hi as [?|?] end;
          by simplify_eq.
Qed.

Section BatchDeliveries.
Context {sched : Schedule}.

Lemma targetsOf_perm (requests : list OptimizedRequest) :
  targetsOf requests ≡ₚ map_to_list (groupBy targetOf requests).
Proof. apply order_perm. Qed.

Lemma groupsOf_perm (batch : list OptimizedRequest) :
  groupsOf batch ≡ₚ map_to_list (groupBy commandTypeOf batch).
Proof. apply order_perm. Qed.

Lemma singleDeliveries_fst (now : Z) (l : list OptimizedRequest) :
  (singleDeliveries now l).*1 = l.
Proof.
  unfold singleDeliveries. rewrite <- list_fmap_compose.
  induction l as [|r l IH]; [done|]. rewrite fmap_cons. simpl. by rewrite IH.
Qed.

Lemma targetDeliveries_fst (now : Z) (entry : string * list OptimizedRequest) :
  (targetDeliveries now entry).*1 = entry.2.
Proof.
  unfold targetDeliveries. rewrite <- list_fmap_compose.
  induction (entry.2) as [|r l IH] at 2 3; [done|]. rewrite fmap_cons. simpl. by rewrite IH.
Qed.

(** The deliveries of a group go to the members of the group, one each. *)
Lemma groupDeliveries_fst (now : Z) (entry : string * list OptimizedRequest) :
  (groupDeliveries now entry).*1 ≡ₚ entry.2.
Proof.
  unfold groupDeliveries.
  destruct (decide (entry.1 = "analyze")).
  - rewrite fmap_bind_list.
    rewrite (bind_Permutation_pointwise _ snd)
      by (intros te; by rewrite targetDeliveries_fst).
    rewrite targetsOf_perm. apply groupBy_members.
  - destruct (decide (entry.1 = "test")); rewrite singleDeliveries_fst; [|done].
    apply order_perm.
Qed.

(** The deliveries of a batch go to the members of the batch, one each. *)
Lemma batchDeliveries_fst (now : Z) (batch : list OptimizedRequest) :
  (batchDeliveries now batch).*1 ≡ₚ batch.
Proof.
  unfold batchDeliveries. rewrite fmap_bind_list.
  rewrite (bind_Permutation_pointwise _ snd) by apply groupDeliveries_fst.
  rewrite groupsOf_perm. apply groupBy_members.
Qed.

(** How many values [processBatch] sends on a channel: one for every
    member of the batch that owns the channel. *)
Lemma processBatch_written (now : Z) (batch : list OptimizedRequest) (d : Dispatch)
    (ch : nat) :
  length (chans (processBatch now batch d) !!! ch)
  = (length (chans d !!! ch) + length (filter (fun r => Response r = ch) batch))%nat.
Proof.
  destruct (processBatch_effects now batch d) as [_ Hch].
  rewrite Hch, length_app. f_equal.
  unfold responsesOn. rewrite length_fmap.
  rewrite <- (length_fmap fst), filter_fst_fmap.
  by rewrite batchDeliveries_fst.
Qed.

End BatchDeliveries.

(** ** Exactly one response per request *)

Section Once.
Context {sched : Schedule}.

Lemma processSingleRequest_written (now : Z) (r : OptimizedRequest) (d : Dispatch)
    (ch : nat) :
  length (chans (processSingleRequest now r d) !!! ch)
  = (length (chans d !!! ch) + if decide (Response r = ch) then 1 else 0)%nat.
Proof.
  destruct (processSingleRequest_effects now r d) as [_ Hch].
  rewrite Hch, length_app. f_equal. unfold responsesOn.
  rewrite filter_cons, filter_nil. simpl. by destruct (decide (Response r = ch)).
Qed.

Lemma flush_written (now : Z) (b : list OptimizedRequest) (d : Dispatch) (ch : nat) :
  NoDup (Response <$> b) ->
  length (chans (processBatch now b d) !!! ch)
  = (length (chans d !!! ch) + if decide (ch ∈ Response <$> b) then 1 else 0)%nat.
Proof.
  intros Hnd. rewrite processBatch_written. f_equal.
  by apply filter_NoDup_length.
Qed.

Lemma initial_onceInv (o : Optimizer) : batchQueue o = [] -> onceInv (initial o).
Proof.
  intros Hq. unfold onceInv, collected, written, pendingCh. simpl. rewrite Hq. simpl.
  split; [|split; [|split; [|split; [|split]]]].
  - intros ch c Hc. by rewrite lookup_empty in Hc.
  - intros ch Hch. by apply not_elem_of_nil in Hch.
  - constructor.
  - done.
  - intros ch Hlt. lia.
  - intros ch Hlt. lia.
Qed.

(** A step that leaves the callers' phases, the collected requests, the
    channel counter and the channels alone keeps the invariant. *)
Lemma onceInv_frame (s s' : System) :
  (forall ch c, callers s' !! ch = Some c ->
                exists c0, callers s !! ch = Some c0 /\ req c0 = req c) ->
  (forall ch, phase <$> callers s' !! ch = Some Handing <->
              phase <$> callers s !! ch = Some Handing) ->
  collected s' ≡ₚ collected s ->
  nextChan s' = nextChan s ->
  chans (disp s') = chans (disp s) ->
  onceInv s -> onceInv s'.
Proof.
  intros Hsub Hph Hcol Hn Hd (I1 & I2 & I3 & I4 & I5 & I6).
  unfold onceInv, written, pendingCh in *. rewrite Hn, Hd.
  setoid_rewrite Hcol.
  split; [|split; [|split; [|split; [|split]]]].
  - intros ch c Hc. destruct (Hsub ch c Hc) as (c0 & Hc0 & <-). by apply I1.
  - intros ch Hch. destruct (I2 ch Hch) as [Hlt Hnh]. split; [done|]. by rewrite Hph.
  - done.
  - done.
  - intros ch Hlt Hp. apply I5; [done|]. by rewrite <- Hph.
  - intros ch Hlt Hp. apply I6; [done|]. by rewrite <- Hph.
Qed.

Lemma complete_onceInv (now : Z) (ch : nat) (c : Caller) (resp : OptimizedResponse)
    (s : System) :
  callers s !! ch = Some c -> phase c = Awaiting ->
  onceInv s -> onceInv (complete now ch c resp s).
Proof.
  intros Hc Hph. apply onceInv_frame; simpl; try done.
  - intros ch' c' Hc'. apply lookup_insert_Some in Hc' as [[<- <-]|[_ Hc']]; eauto.
  - intros ch'. destruct (decide (ch = ch')) as [<-|Hne].
    + rewrite lookup_insert_eq, Hc. simpl. rewrite Hph. done.
    + by rewrite lookup_insert_ne.
Qed.

Lemma finish_onceInv (now : Z) (ch : nat) (c : Caller) (s : System) :
  callers s !! ch = Some c -> phase c = Recording ->
  onceInv s -> onceInv (finish now ch c s).
Proof.
  intros Hc Hph. apply onceInv_frame; simpl; try done.
  - intros ch' c' Hc'. apply lookup_delete_Some in Hc' as [_ ?]. eauto.
  - intros ch'. destruct (decide (ch = ch')) as [<-|Hne].
    + rewrite lookup_delete_eq, Hc. simpl. rewrite Hph. done.
    + by rewrite lookup_delete_ne.
Qed.

Lemma abandon_onceInv (ch : nat) (c : Caller) (err : CtxErr) (s : System) :
  callers s !! ch = Some c -> phase c = Awaiting ->
  onceInv s -> onceInv (abandon ch c err s).
Proof.
  intros Hc Hph. apply onceInv_frame; simpl; try done.
  - intros ch' c' Hc'. apply lookup_delete_Some in Hc' as [_ ?]. eauto.
  - intros ch'. destruct (decide (ch = ch')) as [<-|Hne].
    + rewrite lookup_delete_eq, Hc. simpl. rewrite Hph. done.
    + by rewrite lookup_delete_ne.
Qed.

Lemma notCached_onceInv (ctx : nat) (sessionID command : string) (now : Z)
    (key : string) (s : System) :
  onceInv s -> onceInv (notCached ctx sessionID command now key s).
Proof.
  intros (I1 & I2 & I3 & I4 & I5 & I6).
  assert (callers s !! nextChan s = None) as Hfresh.
  { destruct (callers s !! nextChan s) as [c|] eqn:Hc; [|done].
    apply I1 in Hc as [_ Hlt]. lia. }
  unfold onceInv, written, pendingCh, collected in *. simpl.
  split; [|split; [|split; [|split; [|split]]]].
  - intros ch c Hc. apply lookup_insert_Some in Hc as [[<- <-]|[Hne Hc]].
    + simpl. split; [done|lia].
    + destruct (I1 ch c Hc). split; [done|lia].
  - intros ch Hch. destruct (I2 ch Hch) as [Hlt Hnh]. split; [lia|].
    rewrite lookup_insert_ne by lia. done.
  - done.
  - intros ch Hle. apply I4. lia.
  - intros ch Hlt Hp. destruct (decide (ch = nextChan s)) as [->|Hne].
    + apply I4. lia.
    + apply I5; [lia|]. by rewrite lookup_insert_ne in Hp.
  - intros ch Hlt Hp. destruct (decide (ch = nextChan s)) as [->|Hne].
    + exfalso. apply Hp. left. by rewrite lookup_insert_eq.
    + apply I6; [lia|]. by rewrite lookup_insert_ne in Hp.
Qed.

Lemma elem_of_responses_snoc (ch : nat) (q b : list OptimizedRequest)
    (r : OptimizedRequest) :
  ch ∈ Response <$> ((q ++ [r]) ++ b) <-> ch = Response r \/ ch ∈ Response <$> (q ++ b).
Proof.
  rewrite !fmap_app, !elem_of_app, fmap_cons, list_elem_of_singleton. tauto.
Qed.

Lemma Handoff_onceInv (ch : nat) (c : Caller) (s : System) :
  callers s !! ch = Some c -> phase c = Handing ->
  onceInv s ->
  onceInv (withCallers (<[ch := setPhase Awaiting c]> (callers s))
             (withOpt (withQueue (batchQueue (opt s) ++ [req c]) (opt s)) s)).
Proof.
  intros Hc Hph (I1 & I2 & I3 & I4 & I5 & I6).
  destruct (I1 ch c Hc) as [Hresp Hlt].
  assert (ch ∉ Response <$> collected s) as Hnew.
  { intros Hin. destruct (I2 ch Hin) as [_ Hnh]. apply Hnh. by rewrite Hc; simpl; f_equal. }
  unfold onceInv, written, pendingCh, collected in *. simpl.
  split; [|split; [|split; [|split; [|split]]]].
  - intros ch' c' Hc'. apply lookup_insert_Some in Hc' as [[<- <-]|[Hne Hc']]; [done|].
    by apply I1.
  - intros ch' Hch'. apply elem_of_responses_snoc in Hch' as [->|Hch'].
    + rewrite Hresp. split; [done|]. by rewrite lookup_insert_eq.
    + destruct (I2 ch' Hch') as [Hlt' Hnh]. split; [done|].
      rewrite lookup_insert_ne; [done|]. by intros ->.
  - assert (Response <$> (batchQueue (opt s) ++ [req c]) ++ batch s
            ≡ₚ ch :: (Response <$> batchQueue (opt s) ++ batch s)) as ->.
    { rewrite !fmap_app, fmap_cons, Hresp. simpl. solve_Permutation. }
    by apply NoDup_cons.
  - done.
  - intros ch' Hlt' Hp. apply I5; [done|]. destruct (decide (ch' = ch)) as [->|Hne].
    + left. rewrite Hc. simpl. by f_equal.
    + destruct Hp as [Hp|Hp].
      * left. by rewrite lookup_insert_ne in Hp.
      * right. apply elem_of_responses_snoc in Hp as [Hp|Hp]; [congruence|done].
  - intros ch' Hlt' Hp. apply I6; [done|]. intros Hp'. apply Hp.
    destruct (decide (ch' = ch)) as [->|Hne].
    + right. apply elem_of_responses_snoc. by left.
    + destruct Hp' as [Hp'|Hp'].
      * left. by rewrite lookup_insert_ne.
      * right. apply elem_of_responses_snoc. by right.
Qed.

Lemma Timeout_onceInv (now : Z) (ch : nat) (c : Caller) (s : System) :
  callers s !! ch = Some c -> phase c = Handing ->
  onceInv s ->
  onceInv (withCallers (<[ch := setPhase Awaiting c]> (callers s))
             (withDisp (processSingleRequest now (req c) (disp s)) s)).
Proof.
  intros Hc Hph (I1 & I2 & I3 & I4 & I5 & I6).
  destruct (I1 ch c Hc) as [Hresp Hlt].
  assert (ch ∉ Response <$> collected s) as Hnew.
  { intros Hin. destruct (I2 ch Hin) as [_ Hnh]. apply Hnh. by rewrite Hc; simpl; f_equal. }
  unfold onceInv, written, pendingCh, collected in *. simpl.
  setoid_rewrite processSingleRequest_written. rewrite Hresp.
  split; [|split; [|split; [|split; [|split]]]].
  - intros ch' c' Hc'. apply lookup_insert_Some in Hc' as [[<- <-]|[Hne Hc']]; [done|].
    by apply I1.
  - intros ch' Hch'. destruct (I2 ch' Hch') as [Hlt' Hnh]. split; [done|].
    rewrite lookup_insert_ne; [done|]. by intros ->.
  - done.
  - intros ch' Hle. rewrite I4 by done. rewrite decide_False by lia. done.
  - intros ch' Hlt' Hp. destruct (decide (ch = ch')) as [<-|Hne].
    + exfalso. destruct Hp as [Hp|Hp]; [|done]. by rewrite lookup_insert_eq in Hp.
    + rewrite lookup_insert_ne in Hp by done. rewrite I5 by done. done.
  - intros ch' Hlt' Hp. destruct (decide (ch = ch')) as [<-|Hne].
    + rewrite I5; [done|done|]. left. rewrite Hc. simpl. by f_equal.
    + rewrite lookup_insert_ne in Hp by done. rewrite I6 by done. done.
Qed.

Lemma Recv_onceInv (r : OptimizedRequest) (rest : list OptimizedRequest) (s : System) :
  batchQueue (opt s) = r :: rest ->
  onceInv s ->
  onceInv (withBatch (batch s ++ [r]) (withOpt (withQueue rest (opt s)) s)).
Proof.
  intros Hq. apply onceInv_frame; simpl; try done; [by eauto|].
  unfold collected. simpl. rewrite Hq. solve_Permutation.
Qed.

Lemma flushed_onceInv (now : Z) (cause : FlushCause) (b : list OptimizedRequest)
    (s : System) :
  onceInv (withBatch b s) -> onceInv (flushed now cause b s).
Proof.
  intros (I1 & I2 & I3 & I4 & I5 & I6).
  unfold onceInv, written, pendingCh, collected in *. simpl in *.
  rewrite app_nil_r.
  assert (NoDup (Response <$> b)) as Hb.
  { rewrite fmap_app in I3. by apply NoDup_app in I3 as (_ & _ & ?). }
  setoid_rewrite (fun ch => flush_written now b (disp s) ch Hb).
  setoid_rewrite fmap_app in I2. setoid_rewrite fmap_app in I5.
  setoid_rewrite fmap_app in I6. setoid_rewrite elem_of_app in I2.
  setoid_rewrite elem_of_app in I5. setoid_rewrite elem_of_app in I6.
  rewrite fmap_app in I3. apply NoDup_app in I3 as (Hq & Hdisj & _).
  split; [|split; [|split; [|split; [|split]]]].
  - done.
  - intros ch Hch. apply I2. by left.
  - done.
  - intros ch Hle. rewrite I4 by done. rewrite decide_False; [done|].
    intros Hin. destruct (I2 ch) as [Hlt _]; [by right|lia].
  - intros ch Hlt Hp. rewrite I5; [|done|tauto].
    rewrite decide_False; [done|]. intros Hin. destruct Hp as [Hp|Hp].
    + destruct (I2 ch) as [_ Hnh]; [by right|done].
    + by apply (Hdisj ch).
  - intros ch Hlt Hp. destruct (decide (ch ∈ Response <$> b)) as [Hin|Hnin].
    + rewrite I5; [done|done|]. by right; right.
    + rewrite I6; [done|done|]. tauto.
Qed.

Lemma withBatch_same_onceInv (s : System) : onceInv s -> onceInv (withBatch (batch s) s).
Proof. apply onceInv_frame; by eauto. Qed.

Lemma step_onceInv (s s' : System) (e : Event) :
  onceInv s -> step s e = Some s' -> onceInv s'.
Proof.
  intros Hinv Hstep.
  destruct e; simpl in Hstep; repeat case_match; simplify_eq;
    first
      [ done
      | by apply notCached_onceInv
      | by apply Handoff_onceInv
      | by apply Timeout_onceInv
      | by apply Recv_onceInv
      | by (apply (flushed_onceInv _ _ _ (withOpt (withQueue _ (opt s)) s));
            apply Recv_onceInv)
      | by (apply flushed_onceInv; apply withBatch_same_onceInv)
      | by apply complete_onceInv
      | by apply finish_onceInv
      | by apply abandon_onceInv
      | by (revert Hinv; apply onceInv_frame; eauto) ].
Qed.

Lemma run_onceInv (evs : list Event) (s s' : System) :
  onceInv s -> run s evs = Some s' -> onceInv s'.
Proof.
  revert s. induction evs as [|e evs IH]; intros s Hs Hrun; simpl in Hrun.
  - by simplify_eq.
  - destruct (step s e) as [s1|] eqn:Hstep; [|done].
    eapply IH; [|done]. by eapply step_onceInv.
Qed.

End Once.

(** ** Every pending request gets dispatched *)

Section Progress.
Context {sched : Schedule}.

(** A tick flushes whatever is in the collector's buffer. *)
Lemma Tick_settles (s : System) (ch : nat) (now : Z) :
  onceInv s -> ch ∈ Response <$> batch s ->
  exists s', run s [Tick now] = Some s' /\ written s' ch = 1%nat.
Proof.
  intros Hinv Hin.
  assert (Z.of_nat (length (batch s)) > 0) as Hlen.
  { destruct (batch s); [by apply not_elem_of_nil in Hin | simpl; lia]. }
  eexists. split; [simpl; by rewrite decide_True by done|].
  assert (onceInv (flushed now ByTimer (batch s) s)) as (_ & _ & _ & _ & _ & I6).
  { apply flushed_onceInv. by apply withBatch_same_onceInv. }
  destruct Hinv as (_ & I2 & I3 & _).
  unfold collected in I2, I3. rewrite fmap_app in I3.
  apply NoDup_app in I3 as (_ & Hdisj & _).
  apply I6; simpl.
  - apply I2. rewrite fmap_app, elem_of_app. by right.
  - unfold pendingCh, collected. simpl. rewrite app_nil_r. intros [Hp|Hp].
    + destruct (I2 ch) as [_ Hnh]; [|done]. rewrite fmap_app, elem_of_app. by right.
    + by apply (Hdisj ch).
Qed.

(** Receiving the queue up to a request and ticking dispatches it. *)
Lemma queue_settles (n : nat) (s : System) (ch : nat) :
  length (batchQueue (opt s)) = n ->
  onceInv s -> ch ∈ Response <$> batchQueue (opt s) ->
  exists evs s', run s evs = Some s' /\ written s' ch = 1%nat.
Proof.
  revert s. induction n as [|n IH]; intros s Hlen Hinv Hin.
  { destruct (batchQueue (opt s)); [by apply not_elem_of_nil in Hin | done]. }
  destruct (batchQueue (opt s)) as [|r rest] eqn:Hq; [done|].
  destruct (step s (Recv 0)) as [s1|] eqn:Hstep; [|by simpl in Hstep; rewrite Hq in Hstep; case_decide].
  pose proof (step_onceInv _ _ _ Hinv Hstep) as Hinv1.
  rewrite fmap_cons in Hin. apply elem_of_cons in Hin as [->|Hin].
  - (* the request is the one received *)
    simpl in Hstep. rewrite Hq in Hstep. case_decide; simplify_eq.
    + exists [Recv 0]. eexists. split; [simpl; rewrite Hq; by rewrite decide_True by done|].
      destruct Hinv1 as (_ & _ & _ & _ & _ & I6).
      destruct Hinv as (_ & I2 & I3 & _).
      unfold collected in I2, I3. rewrite Hq in I2, I3.
      rewrite fmap_app, fmap_cons in I3. simpl in I3. apply NoDup_cons in I3 as [Hnin I3].
      apply I6; simpl.
      * apply I2. rewrite fmap_app, fmap_cons. by left.
      * unfold pendingCh, collected. simpl. rewrite app_nil_r. intros [Hp|Hp].
        -- destruct (I2 (Response r)) as [_ Hnh]; [|done].
           rewrite fmap_app, fmap_cons. by left.
        -- apply Hnin. rewrite elem_of_app. by left.
    + destruct (Tick_settles _ (Response r) 0 Hinv1) as (s2 & Hrun & Hw).
      { simpl. rewrite fmap_app, elem_of_app. right. rewrite fmap_cons. by left. }
      exists [Recv 0; Tick 0], s2. split; [|done].
      simpl. rewrite Hq. rewrite decide_False by done. exact Hrun.
  - (* the request is further down the queue *)
    destruct (IH s1) as (evs & s2 & Hrun & Hw); [| done | |].
    + simpl in Hstep. rewrite Hq in Hstep. case_decide; simplify_eq; simpl in *; lia.
    + simpl in Hstep. rewrite Hq in Hstep. by case_decide; simplify_eq.
    + exists (Recv 0 :: evs), s2. split; [|done].
      change (run s (Recv 0 :: evs)) with
        (match step s (Recv 0) with Some s' => run s' evs | None => None end).
      by rewrite Hstep.
Qed.

(** A request that has not been dispatched yet can always be driven to
    its response: the handoff goes through or times out, the collector
    receives it, and the next tick at the latest flushes it. *)
Lemma pending_settles (s : System) (ch : nat) :
  onceInv s -> (ch < nextChan s)%nat ->
  exists evs s', run s evs = Some s' /\ written s' ch = 1%nat.
Proof.
  intros Hinv Hlt.
  destruct (decide (pendingCh s ch)) as [Hp|Hp].
  2: { exists [], s. split; [done|]. destruct Hinv as (_ & _ & _ & _ & _ & I6). by apply I6. }
  destruct Hp as [Hp|Hp].
  - (* still at the first select *)
    destruct (callers s !! ch) as [c|] eqn:Hc; [|done].
    simpl in Hp. injection Hp as Hph.
    destruct (decide (Z.of_nat (length (batchQueue (opt s))) < batchQueueCap (opt s)))
      as [Hroom|Hfull].
    + destruct (step s (Handoff ch)) as [s1|] eqn:Hstep.
      2: { simpl in Hstep. rewrite Hc, Hph in Hstep. by rewrite decide_True in Hstep. }
      pose proof (step_onceInv _ _ _ Hinv Hstep) as Hinv1.
      destruct (queue_settles _ s1 ch eq_refl Hinv1) as (evs & s2 & Hrun & Hw).
      { simpl in Hstep. rewrite Hc, Hph in Hstep. rewrite decide_True in Hstep by done.
        simplify_eq. simpl. rewrite fmap_app, elem_of_app. right.
        destruct Hinv as (I1 & _). destruct (I1 ch c Hc) as [Hr _].
        rewrite fmap_cons, Hr. by left. }
      exists (Handoff ch :: evs), s2. split; [|done].
      change (run s (Handoff ch :: evs)) with
        (match step s (Handoff ch) with Some s' => run s' evs | None => None end).
      by rewrite Hstep.
    + destruct (step s (Timeout ch 0)) as [s1|] eqn:Hstep.
      2: { simpl in Hstep. rewrite Hc, Hph in Hstep. by rewrite decide_False in Hstep. }
      pose proof (step_onceInv _ _ _ Hinv Hstep) as (_ & I2' & _ & _ & _ & I6).
      exists [Timeout ch 0], s1. split; [simpl in *; by rewrite Hstep|].
      simpl in Hstep. rewrite Hc, Hph in Hstep. rewrite decide_False in Hstep by done.
      simplify_eq. apply I6; [done|].
      unfold pendingCh, collected. simpl. intros [Hp|Hp].
      * by rewrite lookup_insert_eq in Hp.
      * destruct (I2' ch Hp) as [_ Hnh]. simpl in Hnh.
        destruct Hinv as (_ & I2 & _). destruct (I2 ch Hp) as [_ Hnh'].
        apply Hnh'. rewrite Hc. simpl. by f_equal.
  - unfold collected in Hp. rewrite fmap_app in Hp. apply elem_of_app in Hp as [Hp|Hp].
    + by eapply queue_settles.
    + destruct (Tick_settles s ch 0 Hinv Hp) as (s' & Hrun & Hw). by exists [Tick 0], s'.
Qed.

End Progress.

Section ExactlyOnce.
Context {sched : Schedule}.

(** Channels are never taken back and what was sent stays sent. *)
Lemma step_mono (s s' : System) (e : Event) :
  step s e = Some s' ->
  (nextChan s <= nextChan s')%nat /\ forall ch, (written s ch <= written s' ch)%nat.
Proof.
  intros Hstep. unfold written.
  destruct e; cbn -[processSingleRequest processBatch] in Hstep;
    repeat case_match; simplify_eq; cbn -[processSingleRequest processBatch];
    (split; [lia|intros ch']);
    rewrite ?processSingleRequest_written, ?processBatch_written; lia.
Qed.

Lemma run_mono (evs : list Event) (s s' : System) :
  run s evs = Some s' ->
  (nextChan s <= nextChan s')%nat /\ forall ch, (written s ch <= written s' ch)%nat.
Proof.
  revert s. induction evs as [|e evs IH]; intros s Hrun; simpl in Hrun.
  - by simplify_eq.
  - destruct (step s e) as [s1|] eqn:Hstep; [|done].
    destruct (step_mono _ _ _ Hstep) as [Hn Hw], (IH _ Hrun) as [Hn' Hw'].
    split; [lia|]. intros ch. specialize (Hw ch). specialize (Hw' ch). lia.
Qed.

(** C6.  On every run of an optimizer that starts with an empty batch
    queue, along every path (handoff to the collector and the combine,
    parallel or default strategy, or the synchronous fallback after the
    handoff timed out), the response channel of every request that was
    built has been written exactly once as soon as the request is
    dispatched, and not at all while the request is still pending; it is
    never written a second time, whatever happens next; and a pending
    request can always be driven to its one response. *)
Theorem exactly_once_fulfillment (o : Optimizer) (evs : list Event) (s : System)
    (ch : nat) :
  batchQueue o = [] ->
  run (initial o) evs = Some s ->
  (ch < nextChan s)%nat ->
  (pendingCh s ch -> written s ch = 0%nat) /\
  (~ pendingCh s ch -> written s ch = 1%nat) /\
  (forall evs' s', run s evs' = Some s' ->
                   (written s' ch <= 1)%nat /\
                   (written s ch = 1%nat -> written s' ch = 1%nat)) /\
  (exists evs' s', run s evs' = Some s' /\ written s' ch = 1%nat).
Proof.
  intros Hq Hrun Hlt.
  assert (onceInv s) as Hinv by (eapply run_onceInv; [by apply initial_onceInv|done]).
  pose proof Hinv as (_ & _ & _ & _ & I5 & I6).
  split; [by apply I5|]. split; [by apply I6|]. split.
  - intros evs' s' Hrun'.
    pose proof (run_onceInv _ _ _ Hinv Hrun') as (_ & _ & _ & _ & I5' & I6').
    destruct (run_mono _ _ _ Hrun') as [Hn Hw]. specialize (Hw ch).
    assert (written s' ch <= 1)%nat as Hle.
    { destruct (decide (pendingCh s' ch)) as [Hp|Hp].
      - rewrite I5'; [lia|lia|done].
      - rewrite I6'; [lia|lia|done]. }
    split; [done|lia].
  - by apply pending_settles.
Qed.

End ExactlyOnce.

Lemma exactly_once_fulfillment_witness :
  exists s,
    run (sched := inOrder) (initial (NewOptimizer 4))
      [Call 0 "s1" "/user:test ./..." 0; Handoff 0; Recv 1; Tick 2] = Some s /\
    written s 0 = 1%nat.
Proof.
  destruct (run (sched := inOrder) (initial (NewOptimizer 4))
              [Call 0 "s1" "/user:test ./..." 0; Handoff 0; Recv 1; Tick 2])
    as [s|] eqn:Hrun; [|vm_compute in Hrun; discriminate Hrun].
  pose proof (exactly_once_fulfillment (sched := inOrder) (NewOptimizer 4) _ s 0%nat
                eq_refl Hrun) as Hx.
  exists s. split; [reflexivity|].
  vm_compute in Hrun. injection Hrun as <-.
  destruct Hx as (_ & Hone & _); [simpl; lia|].
  apply Hone. vm_compute. intros [Hp|Hp]; [discriminate Hp|].
  by apply not_elem_of_nil in Hp.
Defined.

(** ** Combined analysis *)

Lemma filter_fmap_length {A B} (P : B -> Prop) `{forall y, Decision (P y)}
    (g : A -> B) (l : list A) :
  length (filter P (g <$> l)) = length (filter (fun x => P (g x)) l).
Proof.
  induction l as [|a l IH]; [done|].
  rewrite fmap_cons, !filter_cons. destruct (decide (P (g a))); simpl; by rewrite IH.
Qed.

Lemma filter_bind_nil {A B} (P : B -> Prop) `{forall y, Decision (P y)}
    (g : A -> list B) (l : list A) :
  (forall x, x ∈ l -> filter P (g x) = []) -> filter P (l ≫= g) = [].
Proof.
  induction l as [|a l IH]; intros Hall; [done|].
  rewrite bind_cons, filter_app, Hall by left. simpl. apply IH.
  intros x Hx. apply Hall. by right.
Qed.

Lemma filter_Processed_nil (t : string) (l : list OptimizedRequest) :
  filter (fun x => x = Analyzed t) ((fun r => Processed (Command r)) <$> l) = [].
Proof.
  induction l as [|r l IH]; [done|].
  rewrite fmap_cons, filter_cons_False by done. exact IH.
Qed.

Section Combine.
Context {sched : Schedule}.

Lemma targetDeliveries_elem (now : Z) (entry : string * list OptimizedRequest)
    (r : OptimizedRequest) (v : OptimizedResponse) :
  (r, v) ∈ targetDeliveries now entry ->
  r ∈ entry.2 /\ v = combinedResponse now entry.1 (length entry.2) r.
Proof.
  unfold targetDeliveries. intros (r' & Heq & Hr')%list_elem_of_fmap.
  by simplify_eq.
Qed.

Lemma singleDeliveries_elem (now : Z) (l : list OptimizedRequest)
    (r : OptimizedRequest) (v : OptimizedResponse) :
  (r, v) ∈ singleDeliveries now l -> r ∈ l /\ v = singleResponse now r.
Proof.
  unfold singleDeliveries. intros (r' & Heq & Hr')%list_elem_of_fmap.
  by simplify_eq.
Qed.

(** What a member of a batch is sent: the shared analysis of its target
    when its command type is "analyze", its own processing otherwise. *)
Lemma batchDeliveries_elem (now : Z) (batch : list OptimizedRequest)
    (r : OptimizedRequest) (v : OptimizedResponse) :
  (r, v) ∈ batchDeliveries now batch ->
  r ∈ batch /\
  v = if decide (commandTypeOf r = "analyze")
      then combinedResponse now (targetOf r) (length (sharers batch r)) r
      else singleResponse now r.
Proof.
  unfold batchDeliveries. intros ([ct g] & Hin & Hg)%list_elem_of_bind.
  rewrite groupsOf_perm in Hg. apply groupBy_entry in Hg. subst g.
  unfold groupDeliveries in Hin. simpl in Hin.
  destruct (decide (ct = "analyze")) as [->|Hct].
  - apply list_elem_of_bind in Hin as ([t tg] & Hin & Htg).
    rewrite targetsOf_perm in Htg. apply groupBy_entry in Htg. subst tg.
    apply targetDeliveries_elem in Hin as [Hr ->]. simpl in *.
    apply list_elem_of_filter in Hr as [<- Hr].
    apply list_elem_of_filter in Hr as [Hty Hr].
    split; [done|]. by rewrite decide_True by done.
  - assert (r ∈ filter (fun r' => commandTypeOf r' = ct) batch /\ v = singleResponse now r)
      as [Hr ->].
    { destruct (decide (ct = "test")); apply singleDeliveries_elem in Hin as [Hr ->];
        [|done]. split; [|done]. by rewrite order_perm in Hr. }
    apply list_elem_of_filter in Hr as [Hty Hr].
    split; [done|]. rewrite decide_False; [done|]. by rewrite Hty.
Qed.

(** The analysis of the target of an "analyze" request of the batch is
    carried out exactly once. *)
Lemma batchExecutions_once (batch : list OptimizedRequest) (r : OptimizedRequest) :
  r ∈ batch -> commandTypeOf r = "analyze" ->
  length (filter (fun x => x = Analyzed (targetOf r)) (batchExecutions batch)) = 1%nat.
Proof.
  intros Hr Hty. unfold batchExecutions. rewrite groupsOf_perm.
  set (A := filter (fun r' => commandTypeOf r' = "analyze") batch).
  assert (groupBy commandTypeOf batch !! "analyze" = Some A) as HA.
  { pose proof (groupBy_has_entry commandTypeOf batch r Hr) as Hent.
    rewrite Hty in Hent. by apply elem_of_map_to_list. }
  rewrite <- (map_to_list_delete _ _ _ HA), bind_cons, filter_app, length_app.
  rewrite (filter_bind_nil _ _ (map_to_list (delete "analyze" _))).
  2: { intros [ct g] Hin. apply elem_of_map_to_list in Hin.
       apply lookup_delete_Some in Hin as [Hne _].
       unfold groupExecutions. simpl. rewrite decide_False by done.
       destruct (decide (ct = "test")); apply filter_Processed_nil. }
  rewrite Nat.add_0_r. unfold groupExecutions. simpl.
  rewrite filter_fmap_length, targetsOf_perm.
  rewrite (list_filter_iff _ (fun te => te.1 = targetOf r))
    by (intros te; split; [by intros [= ->] | by intros ->]).
  rewrite (filter_NoDup_length fst) by apply NoDup_fst_map_to_list.
  rewrite decide_True; [done|].
  apply list_elem_of_fmap. eexists (_, _). split; [done|].
  apply (groupBy_has_entry targetOf A r).
  apply list_elem_of_filter. done.
Qed.

End Combine.

Section CombineSharing.
Context {sched : Schedule}.

(** On a batch whose requests have distinct channels, a member has sent
    to it exactly the delivery that [batchDeliveries] lists for it. *)
Lemma processBatch_response (now : Z) (batch : list OptimizedRequest) (d : Dispatch)
    (r : OptimizedRequest) :
  NoDup (Response <$> batch) -> r ∈ batch ->
  chans (processBatch now batch d) !!! Response r
  = chans d !!! Response r
    ++ [if decide (commandTypeOf r = "analyze")
        then combinedResponse now (targetOf r) (length (sharers batch r)) r
        else singleResponse now r].
Proof.
  intros Hnd Hr.
  destruct (processBatch_effects now batch d) as [_ Hch]. rewrite Hch. f_equal.
  unfold responsesOn.
  set (F := filter (fun p => Response p.1 = Response r) (batchDeliveries now batch)).
  assert (length F = 1%nat) as Hlen.
  { unfold F. rewrite <- (length_fmap fst), filter_fst_fmap, batchDeliveries_fst.
    rewrite (filter_NoDup_length Response) by done.
    rewrite decide_True; [done|]. by apply list_elem_of_fmap_2. }
  destruct F as [|[r' v] [|]] eqn:HF; simpl in Hlen; try lia.
  assert ((r', v) ∈ F) as Hin by (rewrite HF; left).
  apply list_elem_of_filter in Hin as [Hresp Hin]. simpl in Hresp.
  apply batchDeliveries_elem in Hin as [Hr' ->].
  assert (r' = r) as -> by by eapply (NoDup_fmap_eq Response).
  done.
Qed.

Lemma sharers_elem (batch : list OptimizedRequest) (r r' : OptimizedRequest) :
  r' ∈ sharers batch r <->
  r' ∈ batch /\ commandTypeOf r' = "analyze" /\ targetOf r' = targetOf r.
Proof. unfold sharers. rewrite !list_elem_of_filter. tauto. Qed.

Lemma sharers_same (batch : list OptimizedRequest) (r r' : OptimizedRequest) :
  targetOf r' = targetOf r -> sharers batch r' = sharers batch r.
Proof. unfold sharers. by intros ->. Qed.

(** C1, as amended.  When a batch is flushed, the requests in it whose
    command type is "analyze" (leading field "/user:analyze") and whose
    target is the same share one analysis: with [N] such requests, each of
    them is sent one response, all with the same result and with
    [BatchSize = N], and the analysis of that target is carried out
    exactly once. *)
Theorem combine_sharing (now : Z) (batch : list OptimizedRequest) (d : Dispatch)
    (r : OptimizedRequest) :
  NoDup (Response <$> batch) ->
  r ∈ batch ->
  commandTypeOf r = "analyze" ->
  r ∈ sharers batch r /\
  (forall r', r' ∈ sharers batch r ->
     chans (processBatch now batch d) !!! Response r'
     = chans d !!! Response r'
       ++ [combinedResponse now (targetOf r) (length (sharers batch r)) r']) /\
  (exists E, executions (processBatch now batch d) = executions d ++ E /\
             length (filter (fun x => x = Analyzed (targetOf r)) E) = 1%nat).
Proof.
  intros Hnd Hr Hty. split; [by apply sharers_elem|]. split.
  - intros r' (Hr' & Hty' & Htg)%sharers_elem.
    rewrite processBatch_response by done.
    by rewrite decide_True, (sharers_same _ _ _ Htg), Htg by done.
  - exists (batchExecutions batch). split.
    + by destruct (processBatch_effects now batch d) as [He _].
    + by apply batchExecutions_once.
Qed.

(** Five "/user:analyze src" requests flushed together: one analysis,
    and every response reports a batch size of 5. *)
Lemma five_analyze_src (now : Z) (d : Dispatch) (ch : nat) :
  (ch < 5)%nat ->
  BatchSize <$> chans (processBatch now (fiveRequests "/user:analyze src") d) !!! ch
  = (BatchSize <$> chans d !!! ch) ++ [5] /\
  executions (processBatch now (fiveRequests "/user:analyze src") d)
  = executions d ++ batchExecutions (fiveRequests "/user:analyze src") /\
  length (filter (fun x => x = Analyzed "src")
            (batchExecutions (fiveRequests "/user:analyze src"))) = 1%nat.
Proof.
  intros Hch.
  set (r := {| Command := "/user:analyze src"; SessionID := "s1"; Context := 0;
               Response := ch; Timestamp := 0 |}).
  assert (r ∈ fiveRequests "/user:analyze src") as Hr.
  { unfold fiveRequests. apply list_elem_of_fmap. exists ch. split; [done|].
    apply elem_of_seq. lia. }
  split; [|split].
  - change ch with (Response r).
    rewrite processBatch_response; [|compute_done|done].
    rewrite fmap_app. f_equal.
  - by destruct (processBatch_effects now (fiveRequests "/user:analyze src") d) as [He _].
  - by apply (batchExecutions_once _ r).
Qed.

End CombineSharing.

Lemma combine_sharing_witness :
  let batch := fiveRequests "/user:analyze src" in
  let d := processBatch (sched := inOrder) 7 batch {| chans := ∅; executions := [] |} in
  chans d !!! 0%nat
  = [{| Result := "Combined analysis of src for 5 requests"; Error := None;
        CacheHit := false; BatchSize := 5; Duration := 7 |}] /\
  chans d !!! 4%nat
  = [{| Result := "Combined analysis of src for 5 requests"; Error := None;
        CacheHit := false; BatchSize := 5; Duration := 7 |}].
Proof.
  intros batch d.
  set (r0 := {| Command := "/user:analyze src"; SessionID := "s1"; Context := 0;
                Response := 0%nat; Timestamp := 0 |}).
  set (r4 := {| Command := "/user:analyze src"; SessionID := "s1"; Context := 0;
                Response := 4%nat; Timestamp := 0 |}).
  assert (NoDup (Response <$> batch)) as Hnd by compute_done.
  assert (r0 ∈ batch) as Hr0 by (vm_compute; repeat constructor).
  destruct (combine_sharing (sched := inOrder) 7 batch {| chans := ∅; executions := [] |} r0
              Hnd Hr0 eq_refl) as (_ & Hall & _).
  assert (r0 ∈ sharers batch r0) as Hs0 by (vm_compute; repeat constructor).
  assert (r4 ∈ sharers batch r0) as Hs4 by (vm_compute; repeat constructor).
  split.
  - etrans; [exact (Hall r0 Hs0)|]. vm_compute. reflexivity.
  - etrans; [exact (Hall r4 Hs4)|]. vm_compute. reflexivity.
Defined.

(** With the bare command "analyze src" nothing is shared: five calls are
    processed five times and every response reports a batch size of 1. *)
Lemma combine_sharing_bare_command :
  exists s,
    run (sched := inOrder) (initial (NewOptimizer 4)) (fiveCalls "analyze src") = Some s /\
    reportedBatchSizes s = [1; 1; 1; 1; 1] /\
    executions (disp s) = replicate 5 (Processed "analyze src") /\
    ~ (reportedBatchSizes s = [5; 5; 5; 5; 5] /\ length (executions (disp s)) = 1%nat).
Proof.
  eexists. split; [vm_compute; reflexivity|].
  split; [reflexivity|]. split; [reflexivity|].
  intros [Hsizes _]. discriminate Hsizes.
Qed.

(** With "/user:analyze src" the five calls share one analysis. *)
Lemma combine_sharing_user_command :
  exists s,
    run (sched := inOrder) (initial (NewOptimizer 4)) (fiveCalls "/user:analyze src") = Some s /\
    reportedBatchSizes s = [5; 5; 5; 5; 5] /\
    executions (disp s) = [Analyzed "src"].
Proof.
  eexists. split; [vm_compute; reflexivity|].
  split; reflexivity.
Qed.

(** ** Cancellation *)

Section Cancellation.
Context {sched : Schedule}.

(** C7, as amended.  When the activation of [OptimizeCommand] that owns
    channel [ch] evaluates its second [select] while its context is done
    and nothing has been sent on [ch], it returns the error of the
    context and no response; nothing is stored in the cache, no request
    is recorded in the metrics, the request is not dispatched again and
    the activation takes no further step.  When a response is already on
    the channel at that moment, the done context does not decide: the
    [select] may return the response as well as the error. *)
Theorem cancellation_returns_error (s : System) (ch : nat) (c : Caller) (err : CtxErr)
    (pick : bool) (now : Z) :
  callers s !! ch = Some c ->
  phase c = Awaiting ->
  doneCtx s !! Context (req c) = Some err ->
  (chans (disp s) !!! ch = [] ->
   exists s',
     step s (Select ch pick now) = Some s' /\
     returns s' = returns s ++ [{| retKey := callerKey c; retChan := Some ch;
                                   retOutcome := Failed err |}] /\
     opt s' = opt s /\ disp s' = disp s /\ batch s' = batch s /\
     callers s' = delete ch (callers s) /\
     (forall e, (exists p t, e = Select ch p t) \/ e = Handoff ch \/
                (exists t, e = Timeout ch t) \/ (exists t, e = Record ch t) ->
                step s' e = None)) /\
  (forall resp rest, chans (disp s) !!! ch = resp :: rest ->
     step s (Select ch true now) = Some (complete now ch c resp s) /\
     step s (Select ch false now) = Some (abandon ch c err s)).
Proof.
  intros Hc Hph Hdone. split.
  - intros Hempty. exists (abandon ch c err s).
    split; [simpl; by rewrite Hc, Hph, Hempty, Hdone|].
    repeat split; try done.
    intros e He. simpl.
    destruct He as [(p & t & ->)|[->|[(t & ->)|(t & ->)]]]; simpl;
      by rewrite lookup_delete_eq.
  - intros resp rest Hfull. simpl. by rewrite Hc, Hph, Hfull, Hdone.
Qed.

End Cancellation.

Lemma cancellation_returns_error_witness :
  exists s s',
    run (sched := inOrder) (initial (NewOptimizer 4))
      [Call 7 "s2" "/user:build B" 0; Handoff 0; CancelCtx 7 Canceled] = Some s /\
    step (sched := inOrder) s (Select 0 true 9) = Some s' /\
    retOutcome <$> returns s' = [Failed Canceled].
Proof.
  destruct (run (sched := inOrder) (initial (NewOptimizer 4))
              [Call 7 "s2" "/user:build B" 0; Handoff 0; CancelCtx 7 Canceled])
    as [s|] eqn:Hrun; [|vm_compute in Hrun; discriminate Hrun].
  vm_compute in Hrun. injection Hrun as <-.
  match goal with |- exists s0 s', Some ?s = Some s0 /\ _ =>
    destruct (cancellation_returns_error (sched := inOrder) s 0%nat
                {| callerKey := "s2:/user:build B"; start := 0;
                   req := {| Command := "/user:build B"; SessionID := "s2"; Context := 7;
                             Response := 0; Timestamp := 0 |};
                   phase := Awaiting |} Canceled true 9 eq_refl eq_refl eq_refl)
      as [Hcancel _];
    destruct (Hcancel eq_refl) as (s' & Hstep & Hret & _);
    exists s, s'
  end.
  split; [reflexivity|]. split; [exact Hstep|]. rewrite Hret. reflexivity.
Defined.

(** The context is cancelled before the request is even built, the
    handoff times out on the full queue, the request is processed
    synchronously, and the second [select], finding both cases ready,
    takes the response: the call records the request and returns a
    result, not the error. *)
Lemma cancelled_call_returns_result :
  exists s1 s2,
    run (sched := inOrder) (initial (NewOptimizer 4)) (saturate ++ [CancelCtx 7 Canceled])
    = Some s1 /\
    doneCtx s1 !! 7%nat = Some Canceled /\
    written s1 100 = 0%nat /\
    run (sched := inOrder) s1
      [Call 7 "s2" "/user:build B" 5; Timeout 100 6; Select 100 true 7; Record 100 8]
    = Some s2 /\
    last (returns s2)
    = Some {| retKey := "s2:/user:build B"; retChan := Some 100%nat;
              retOutcome :=
                Returned {| Result := "Processed: /user:build B"; Error := None;
                            CacheHit := false; BatchSize := 1; Duration := 1 |} |}.
Proof.
  eexists _, _. split; [vm_compute; reflexivity|].
  split; [reflexivity|]. split; [reflexivity|].
  split; [vm_compute; reflexivity|]. reflexivity.
Qed.

(** * Further properties *)

(** ** Fields of a command *)

Lemma Split_no_sep (s : string) (sep : ascii) :
  Strings.containsByte sep s = false -> Strings.Split s sep = [s].
Proof.
  induction s as [|c s IH]; simpl; [done|].
  destruct (decide (c = sep)); [done|]. intros Hs. by rewrite IH.
Qed.

Lemma Split_append_sep (a rest : string) (sep : ascii) :
  Strings.containsByte sep a = false ->
  Strings.Split (a +:+ String sep rest) sep = a :: Strings.Split rest sep.
Proof.
  induction a as [|c a IH].
  - intros _. change ("" +:+ String sep rest) with (String sep rest). simpl.
    by rewrite decide_True.
  - simpl. destruct (decide (c = sep)); [done|]. intros Ha. by rewrite IH.
Qed.

Lemma Split_pieces_no_sep (s : string) (sep : ascii) :
  Forall (fun p => Strings.containsByte sep p = false) (Strings.Split s sep).
Proof.
  induction s as [|c s IH]; simpl.
  - by repeat constructor.
  - destruct (decide (c = sep)) as [->|Hne].
    + by constructor.
    + destruct (Strings.Split s sep) as [|p ps]; simpl.
      * repeat constructor. simpl. by rewrite decide_False.
      * apply Forall_cons in IH as [Hp Hps]. constructor; [|done].
        simpl. by rewrite decide_False.
Qed.

Lemma untilSpace_no_space (s : string) :
  Strings.containsByte " "%char s = false -> Strings.untilSpace s = s.
Proof.
  induction s as [|c s IH]; simpl; [done|].
  destruct (decide (c = " "%char)); [done|]. intros Hs. by rewrite IH.
Qed.

Lemma untilSpace_append_space (g rest : string) :
  Strings.containsByte " "%char g = false ->
  Strings.untilSpace (g +:+ String " "%char rest) = g.
Proof.
  induction g as [|c g IH].
  - intros _. reflexivity.
  - simpl. destruct (decide (c = " "%char)); [done|]. intros Hg. by rewrite IH.
Qed.

Lemma dropBytes_no_sep (n : nat) (s : string) (sep : ascii) :
  Strings.containsByte sep s = false ->
  Strings.containsByte sep (Strings.dropBytes n s) = false.
Proof.
  revert s. induction n as [|n IH]; intros [|c s]; simpl; try done.
  destruct (decide (c = sep)); [done|]. apply IH.
Qed.

(** X1.  [extractTarget] gives "." for every command without a space, and
    for a command with a space the text between the first space and the
    next one (all the rest when there is no other space): the empty
    string when two spaces follow each other or the command ends in a
    space. *)
Theorem extractTarget_fields (command : string) :
  (Strings.containsByte " "%char command = false -> extractTarget command = ".") /\
  (forall a rest,
     Strings.containsByte " "%char a = false ->
     command = a +:+ String " "%char rest ->
     extractTarget command = Strings.untilSpace rest).
Proof.
  unfold extractTarget. split.
  - intros Hc. by rewrite Split_no_sep.
  - intros a rest Ha ->. rewrite Split_append_sep by done.
    by destruct (Split_space_head rest) as [tl ->].
Qed.

Lemma extractTarget_fields_witness :
  extractTarget "/user:analyze" = "." /\
  extractTarget "/user:analyze src --deep" = "src" /\
  extractTarget "/user:analyze  src" = "" /\
  extractTarget "/user:analyze " = "".
Proof.
  split; [|split; [|split]].
  - apply (proj1 (extractTarget_fields "/user:analyze")). reflexivity.
  - apply (proj2 (extractTarget_fields "/user:analyze src --deep")
             "/user:analyze" "src --deep"); reflexivity.
  - apply (proj2 (extractTarget_fields "/user:analyze  src") "/user:analyze" " src");
      reflexivity.
  - apply (proj2 (extractTarget_fields "/user:analyze ") "/user:analyze" "");
      reflexivity.
Defined.

(** X2.  Building a command from a type and a target without spaces, with
    or without further arguments, and taking it apart again gives back
    the type and the target. *)
Theorem command_round_trip (type target : string) :
  Strings.containsByte " "%char type = false ->
  Strings.containsByte " "%char target = false ->
  (extractCommandType ("/user:" +:+ type +:+ " " +:+ target) = type /\
   extractTarget ("/user:" +:+ type +:+ " " +:+ target) = target) /\
  (forall flags,
     extractCommandType ("/user:" +:+ type +:+ " " +:+ target +:+ " " +:+ flags) = type /\
     extractTarget ("/user:" +:+ type +:+ " " +:+ target +:+ " " +:+ flags) = target) /\
  extractCommandType ("/user:" +:+ type) = type /\
  extractTarget ("/user:" +:+ type) = ".".
Proof.
  intros Hty Htg.
  assert (Strings.containsByte " "%char ("/user:" +:+ type) = false) as Hhead.
  { simpl. exact Hty. }
  assert (forall tail, extractCommandType (("/user:" +:+ type) +:+ String " "%char tail) = type)
    as Htype.
  { intros tail. unfold extractCommandType. rewrite Split_append_sep by done.
    by rewrite HasPrefix_append, TrimPrefix_append. }
  assert (forall tail, extractTarget (("/user:" +:+ type) +:+ String " "%char tail)
                       = Strings.untilSpace tail) as Htarget.
  { intros tail. unfold extractTarget. rewrite Split_append_sep by done.
    by destruct (Split_space_head tail) as [tl ->]. }
  split; [|split; [|split]].
  - split.
    + apply (Htype target).
    + etrans; [apply (Htarget target)|]. by apply untilSpace_no_space.
  - intros flags. split.
    + apply (Htype (target +:+ " " +:+ flags)).
    + etrans; [apply (Htarget (target +:+ " " +:+ flags))|].
      by apply untilSpace_append_space.
  - unfold extractCommandType. rewrite Split_no_sep by done.
    by rewrite HasPrefix_append, TrimPrefix_append.
  - unfold extractTarget. by rewrite Split_no_sep.
Qed.

Lemma command_round_trip_witness :
  extractCommandType "/user:analyze src --deep" = "analyze" /\
  extractTarget "/user:analyze src --deep" = "src".
Proof.
  exact (proj1 (proj2 (command_round_trip "analyze" "src" eq_refl eq_refl)) "--deep").
Defined.

(** X3.  The keys under which requests are grouped hold no space: neither
    the command type nor the target of any command does. *)
Theorem group_keys_no_space (command : string) :
  Strings.containsByte " "%char (extractCommandType command) = false /\
  Strings.containsByte " "%char (extractTarget command) = false.
Proof.
  pose proof (Split_pieces_no_sep command " "%char) as Hall.
  unfold extractCommandType, extractTarget.
  destruct (Strings.Split command " "%char) as [|p0 [|p1 ps]]; [done| |].
  - apply Forall_cons in Hall as [Hp0 _]. split; [|done].
    destruct (Strings.HasPrefix p0 "/user:"); [|done].
    unfold Strings.TrimPrefix. destruct (Strings.HasPrefix p0 "/user:"); [|done].
    by apply dropBytes_no_sep.
  - apply Forall_cons in Hall as [Hp0 Hall]. apply Forall_cons in Hall as [Hp1 _].
    split; [|done].
    destruct (Strings.HasPrefix p0 "/user:"); [|done].
    unfold Strings.TrimPrefix. destruct (Strings.HasPrefix p0 "/user:"); [|done].
    by apply dropBytes_no_sep.
Qed.

(** ** Cache keys and expiry *)

Lemma string_length_append (a b : string) :
  String.length (a +:+ b) = (String.length a + String.length b)%nat.
Proof. induction a as [|c a IH]; [done|]. rewrite append_cons. simpl. by rewrite IH. Qed.

(** X4.  For one session the cache key tells the commands apart, and for
    one command it tells the sessions apart. *)
Theorem cacheKey_injective_each (s1 s2 c1 c2 : string) :
  (cacheKey s1 c1 = cacheKey s1 c2 -> c1 = c2) /\
  (cacheKey s1 c1 = cacheKey s2 c1 -> s1 = s2).
Proof.
  split.
  - induction s1 as [|a s1 IH]; intros Hk.
    + by injection Hk.
    + rewrite !cacheKey_cons in Hk. injection Hk as Hk. by apply IH.
  - revert s2. induction s1 as [|a s1 IH]; intros [|b s2] Hk; [done| | |].
    + exfalso. apply (f_equal String.length) in Hk.
      unfold cacheKey in Hk. rewrite !string_length_append in Hk. simpl in Hk. lia.
    + exfalso. apply (f_equal String.length) in Hk.
      unfold cacheKey in Hk. rewrite !string_length_append in Hk. simpl in Hk. lia.
    + rewrite !cacheKey_cons in Hk. injection Hk as -> Hk. f_equal. by apply IH.
Qed.

Lemma cacheKey_injective_each_witness : "/user:build A" = "/user:build A" /\ "s1" = "s1".
Proof.
  destruct (cacheKey_injective_each "s1" "s1" "/user:build A" "/user:build A")
    as [Hc Hs].
  split; [apply Hc | apply Hs]; reflexivity.
Defined.

(** X5.  A cache entry is not expired at the instant it was stamped, nor
    15 minutes later to the nanosecond; it is expired one nanosecond after
    that; and once expired it stays expired at every later instant, also
    where [time.Since] saturates. *)
Theorem IsExpired_boundary (e : CacheEntry) (now later : Z) :
  CacheEntry.IsExpired (CacheEntry.Timestamp e) e = false /\
  CacheEntry.IsExpired (CacheEntry.Timestamp e + 15 * Time.Minute) e = false /\
  CacheEntry.IsExpired (CacheEntry.Timestamp e + 15 * Time.Minute + 1) e = true /\
  (now <= later -> CacheEntry.IsExpired now e = true ->
   CacheEntry.IsExpired later e = true).
Proof.
  repeat split.
  - apply IsExpired_false. unfold Time.Minute, Time.Second, Time.Millisecond,
      Time.Microsecond, Time.Nanosecond. lia.
  - apply IsExpired_false. lia.
  - apply IsExpired_true. lia.
  - intros Hle Hexp. apply IsExpired_true. apply IsExpired_true in Hexp. lia.
Qed.

Lemma IsExpired_boundary_witness :
  CacheEntry.IsExpired (20 * Time.Minute)
    {| CacheEntry.Data := "x"; CacheEntry.Timestamp := 0 |} = true.
Proof.
  apply (proj2 (proj2 (proj2 (IsExpired_boundary
           {| CacheEntry.Data := "x"; CacheEntry.Timestamp := 0 |}
           (16 * Time.Minute) (20 * Time.Minute))))).
  - vm_compute. discriminate.
  - vm_compute. reflexivity.
Defined.

(** ** The cache cleaner *)

Lemma lookup_foldl_delete {A} (m : gmap string A) (ks : list string) (k : string) :
  foldl (fun c key => delete key c) m ks !! k
  = if decide (k ∈ ks) then None else m !! k.
Proof.
  revert m. induction ks as [|key ks IH]; intros m.
  - cbn [foldl]. case_decide as Hin; [by apply not_elem_of_nil in Hin | done].
  - cbn [foldl]. rewrite IH. destruct (decide (k ∈ ks)) as [Hin|Hnin].
    + by rewrite decide_True by (by right).
    + destruct (decide (k = key)) as [->|Hne].
      * rewrite decide_True by left. apply lookup_delete_eq.
      * rewrite decide_False by (intros [?|?]%elem_of_cons; done).
        by apply lookup_delete_ne.
Qed.

Lemma filter_map_to_list_length {A} (P : string * A -> Prop)
    `{forall x, Decision (P x)} (m : gmap string A) :
  length (filter P (map_to_list m)) = size (filter P m).
Proof.
  induction m as [|i x m Hi IH] using map_ind.
  - by rewrite map_to_list_empty, map_filter_empty, map_size_empty.
  - rewrite map_to_list_insert, filter_cons by done.
    destruct (decide (P (i, x))) as [HP|HP].
    + rewrite map_filter_insert_True by done.
      rewrite map_size_insert_None by (apply map_lookup_filter_None; by left).
      simpl. by rewrite IH.
    + rewrite map_filter_insert_False by done.
      rewrite delete_id by done. exact IH.
Qed.

Section CleanCache.
Context {sched : Schedule}.

Lemma cleanCache_fold (now : Z) (l : list (string * CacheEntry))
    (c : gmap string CacheEntry) (n : Z) :
  foldl (fun '(c, count) '(key, entry) =>
           if CacheEntry.IsExpired now entry then (delete key c, count + 1)
           else (c, count)) (c, n) l
  = (foldl (fun c key => delete key c) c
       (filter (fun kv => CacheEntry.IsExpired now kv.2 = true) l).*1,
     n + Z.of_nat (length (filter (fun kv => CacheEntry.IsExpired now kv.2 = true) l))).
Proof.
  revert c n. induction l as [|[key entry] l IH]; intros c n.
  - simpl. f_equal. lia.
  - rewrite filter_cons. simpl.
    destruct (CacheEntry.IsExpired now entry) eqn:Hexp.
    + rewrite decide_True by done. rewrite IH. simpl. f_equal. lia.
    + rewrite decide_False by done. by rewrite IH.
Qed.

Lemma run_app (evs1 evs2 : list Event) (s : System) :
  run s (evs1 ++ evs2) = run s evs1 ≫= fun s1 => run s1 evs2.
Proof.
  revert s. induction evs1 as [|e evs1 IH]; intros s; [done|].
  simpl. destruct (step s e); [apply IH|done].
Qed.

(** The steps of a round that nothing interrupts, on the optimizer. *)
Lemma cleanerRound_run (now : Z) (l : list (string * CacheEntry)) (s : System) :
  cleaner s = None -> NoDup l.*1 ->
  (forall k e, (k, e) ∈ l -> cache (opt s) !! k = Some e) ->
  run s (cleanerRound now l)
  = Some (withOpt
            (withCache
               (foldl (fun c key => delete key c) (cache (opt s))
                  (filter (fun kv => CacheEntry.IsExpired now kv.2 = true) l).*1)
               (opt s)) s).
Proof.
  revert s. induction l as [|[k e] l IH]; intros s Hcl Hnd Hin.
  - destruct s as [[] ? ? ? ? ? ? ? ?]. simpl in *. by subst.
  - apply NoDup_cons in Hnd as [Hk Hnd].
    assert (cache (opt s) !! k = Some e) as Hke by (apply Hin; left).
    unfold cleanerRound. rewrite bind_cons, run_app. fold (cleanerRound now l).
    rewrite filter_cons. simpl.
    destruct (CacheEntry.IsExpired now e) eqn:Hexp.
    + rewrite decide_True by done. simpl. rewrite Hcl, Hke, Hexp. simpl.
      rewrite IH; [|done|done|].
      * destruct s as [[] ? ? ? ? ? ? ? ?]. simpl in *. by subst.
      * intros k' e' Hin'. simpl. rewrite lookup_delete_ne; [apply Hin; by right|].
        intros <-. apply Hk. apply list_elem_of_fmap. by exists (k, e').
    + rewrite decide_False by (simpl; congruence). simpl. rewrite Hcl, Hke, Hexp. simpl.
      apply IH; [done|done|]. intros k' e' Hin'. apply Hin. by right.
Qed.

(** X6.  One round of the cache cleaner, in whatever order it visits the
    entries, leaves exactly the entries that are not expired; it counts
    the entries that were expired; a second round at the same instant
    finds nothing to remove; and this is the cache that the steps of the
    cleaner leave on the optimizer when nothing else runs in between. *)
Theorem cleanCache_round (now : Z) (entries : gmap string CacheEntry) (s : System) :
  (cleanCacheRound now entries).1
  = filter (fun kv => CacheEntry.IsExpired now kv.2 = false) entries /\
  (cleanCacheRound now entries).2
  = Z.of_nat (size (filter (fun kv : string * CacheEntry =>
                              CacheEntry.IsExpired now kv.2 = true) entries)) /\
  (forall k e, (cleanCacheRound now entries).1 !! k = Some e ->
               entries !! k = Some e /\ CacheEntry.IsExpired now e = false) /\
  (cleanCacheRound now (cleanCacheRound now entries).1).2 = 0 /\
  (cleaner s = None ->
   run s (cleanerRound now (order (map_to_list (cache (opt s)))))
   = Some (withOpt (withCache (cleanCacheRound now (cache (opt s))).1 (opt s)) s)).
Proof.
  assert (forall c : gmap string CacheEntry,
            (cleanCacheRound now c).1
            = filter (fun kv => CacheEntry.IsExpired now kv.2 = false) c) as Hfst.
  { intros c. unfold cleanCacheRound. rewrite cleanCache_fold. simpl.
    apply map_eq. intros k. rewrite lookup_foldl_delete.
    destruct (c !! k) as [e|] eqn:Hk.
    - destruct (CacheEntry.IsExpired now e) eqn:Hexp.
      + rewrite decide_True.
        * symmetry. apply map_lookup_filter_None. right. intros e' He'.
          simplify_eq. simpl. by rewrite Hexp.
        * apply list_elem_of_fmap. exists (k, e). split; [done|].
          apply list_elem_of_filter. split; [done|].
          rewrite order_perm. by apply elem_of_map_to_list.
      + rewrite decide_False.
        * symmetry. by apply map_lookup_filter_Some.
        * intros ([k' e'] & Heq & Hin)%list_elem_of_fmap. simpl in Heq. subst k'.
          apply list_elem_of_filter in Hin as [Hexp' Hin]. simpl in Hexp'.
          rewrite order_perm in Hin. apply elem_of_map_to_list in Hin.
          simplify_eq. congruence.
    - assert (filter (fun kv => CacheEntry.IsExpired now kv.2 = false) c !! k = None)
        as -> by (apply map_lookup_filter_None; by left).
      by destruct (decide _). }
  assert (forall c : gmap string CacheEntry,
            (cleanCacheRound now c).2
            = Z.of_nat (size (filter (fun kv : string * CacheEntry =>
                                        CacheEntry.IsExpired now kv.2 = true) c))) as Hsnd.
  { intros c. unfold cleanCacheRound. rewrite cleanCache_fold. simpl.
    rewrite order_perm, filter_map_to_list_length. lia. }
  split; [apply Hfst|]. split; [apply Hsnd|]. split; [|split].
  - intros k e. rewrite Hfst. intros Hk.
    by apply map_lookup_filter_Some in Hk.
  - rewrite Hsnd, Hfst.
    replace (filter (fun kv : string * CacheEntry => CacheEntry.IsExpired now kv.2 = true)
               (filter (fun kv => CacheEntry.IsExpired now kv.2 = false) entries))
      with (∅ : gmap string CacheEntry); [done|].
    symmetry. apply map_empty. intros k.
    apply map_lookup_filter_None. right. intros e He.
    apply map_lookup_filter_Some in He as [_ He]. simpl in *. congruence.
  - intros Hcl. rewrite cleanerRound_run; [|done| |].
    + unfold cleanCacheRound. by rewrite cleanCache_fold.
    + rewrite order_perm. apply NoDup_fst_map_to_list.
    + intros k e. rewrite order_perm. apply elem_of_map_to_list.
Qed.

End CleanCache.

(** ** The metrics collector and the smoothed average *)

Lemma collectSample_peak (alloc : Z) (m : Metrics) :
  peakMemory (collectSample alloc m) = Z.max (peakMemory m) alloc.
Proof. unfold collectSample. case_decide; simpl; lia. Qed.

(** X7.  The peak memory is a high-water mark: after any samples it is the
    largest of the peak before and the samples, so it never goes down, it
    is at least every sample, and it is the old peak or one of the
    samples; sampling changes no other counter. *)
Theorem peakMemory_high_water (samples : list Z) (m : Metrics) :
  let m' := foldl (fun m alloc => collectSample alloc m) m samples in
  peakMemory m' = foldl Z.max (peakMemory m) samples /\
  peakMemory m <= peakMemory m' /\
  (forall alloc, alloc ∈ samples -> alloc <= peakMemory m') /\
  (peakMemory m' = peakMemory m \/ peakMemory m' ∈ samples) /\
  totalRequests m' = totalRequests m /\
  cacheHits m' = cacheHits m /\
  avgDuration m' = avgDuration m.
Proof.
  revert m. induction samples as [|a samples IH]; intros m; simpl.
  - split; [done|]. split; [lia|]. split; [|split; [by left|done]].
    intros alloc Hin. by apply not_elem_of_nil in Hin.
  - destruct (IH (collectSample a m)) as (Hpk & Hge & Hall & Hone & Ht & Hc & Ha).
    pose proof (collectSample_peak a m) as Hs.
    assert (totalRequests (collectSample a m) = totalRequests m /\
            cacheHits (collectSample a m) = cacheHits m /\
            avgDuration (collectSample a m) = avgDuration m) as (Ht' & Hc' & Ha').
    { unfold collectSample. by case_decide. }
    split; [by rewrite Hpk, Hs|]. split; [lia|]. split; [|split].
    + intros alloc [->|Hin]%elem_of_cons; [lia|by apply Hall].
    + destruct Hone as [Hone|Hone]; [|right; by right].
      rewrite Hone, Hs. destruct (Z.max_spec (peakMemory m) a) as [[_ ->]|[_ ->]];
        [right; left | by left].
    + by rewrite Ht, Hc, Ha.
Qed.

Lemma recordRequest_in_range (m : Metrics) (d lo hi : Z) :
  0 <= lo -> 2 * hi <= 2 ^ 63 - 1 -> lo <= d <= hi ->
  avgDuration m = 0 \/ lo <= avgDuration m <= hi ->
  lo <= avgDuration (recordRequest d m) <= hi.
Proof.
  intros Hlo Hhi Hd Havg. simpl. case_decide as Hz; [lia|].
  destruct Havg as [?|Havg]; [done|].
  rewrite wrap64_id by (unfold int64; lia).
  rewrite Z.quot_div_nonneg by lia.
  split.
  - apply Z.div_le_lower_bound; lia.
  - apply Z.div_le_upper_bound; lia.
Qed.

(** X8.  The smoothed average stays inside the range of the durations it
    was fed: when every recorded duration lies between [lo] and [hi]
    (non-negative, and small enough for the sum of two not to overflow)
    and the average before was unset or in that range, the average after
    at least one request lies between [lo] and [hi]; and [totalRequests]
    has grown by the number of requests. *)
Theorem smoothed_average_in_range (ds : list Z) (m : Metrics) (lo hi : Z) :
  0 <= lo -> 2 * hi <= 2 ^ 63 - 1 ->
  Forall (fun d => lo <= d <= hi) ds ->
  ds <> [] ->
  avgDuration m = 0 \/ lo <= avgDuration m <= hi ->
  int64 (totalRequests m) ->
  int64 (totalRequests m + Z.of_nat (length ds)) ->
  lo <= avgDuration (recordAll ds m) <= hi /\
  totalRequests (recordAll ds m) = totalRequests m + Z.of_nat (length ds).
Proof.
  intros Hlo Hhi Hall Hne Havg Ht0 Ht.
  assert (forall ds m,
            Forall (fun d => lo <= d <= hi) ds ->
            lo <= avgDuration m <= hi ->
            lo <= avgDuration (recordAll ds m) <= hi) as Hkeep.
  { clear -Hlo Hhi. intros ds. induction ds as [|d ds IH]; intros m Hall Havg; [done|].
    apply Forall_cons in Hall as [Hd Hall]. unfold recordAll. simpl foldl.
    apply IH; [done|]. apply recordRequest_in_range; [done|done|done|by right]. }
  assert (forall ds m,
            int64 (totalRequests m) ->
            int64 (totalRequests m + Z.of_nat (length ds)) ->
            totalRequests (recordAll ds m) = totalRequests m + Z.of_nat (length ds))
    as Hcount.
  { clear. intros ds. induction ds as [|d ds IH]; intros m Ht0 Ht.
    - simpl. lia.
    - unfold recordAll. simpl foldl. fold (recordAll ds (recordRequest d m)).
      unfold int64 in *. simpl length in *.
      assert (totalRequests (recordRequest d m) = totalRequests m + 1) as Hone.
      { simpl. apply wrap64_id. unfold int64. lia. }
      rewrite IH; unfold int64; rewrite Hone; lia. }
  split; [|by apply Hcount].
  destruct ds as [|d ds]; [done|].
  apply Forall_cons in Hall as [Hd Hall]. unfold recordAll. simpl foldl.
  apply (Hkeep ds); [done|]. by apply recordRequest_in_range.
Qed.

Lemma smoothed_average_in_range_witness :
  100 <= avgDuration (recordAll [100; 300; 200] noMetrics) <= 300 /\
  totalRequests (recordAll [100; 300; 200] noMetrics) = 3.
Proof.
  apply (smoothed_average_in_range [100; 300; 200] noMetrics 100 300).
  - lia.
  - lia.
  - repeat constructor; lia.
  - discriminate.
  - by left.
  - vm_compute. split; discriminate.
  - vm_compute. split; discriminate.
Defined.

(** ** Waiting for the worker pool *)

Module WorkerPoolMore.
Import WorkerPool WorkerPoolSpec WorkerPoolFacts WorkerPoolWait.

Section More.
Context {Task : Type}.
Implicit Types (wp : WorkerPool Task) (ws : list (option Task)).

(** X9.  The wait-group counter of a pool is the number of tasks submitted
    minus the number completed, so it is never negative, and [Wait]
    returns in exactly the states in which every submitted task has
    completed. *)
Theorem Wait_returns_when_done (w : Z) (evs : list (Event Task)) wp0 wp :
  NewWorkerPool w = Some wp0 ->
  run wp0 evs = Some wp ->
  wg wp = Z.of_nat (length (submitted evs)) - Z.of_nat (length (completed wp)) /\
  0 <= wg wp /\
  (is_Some (Wait wp) <-> completed wp ≡ₚ submitted evs).
Proof.
  intros Hnew Hrun.
  destruct (NewWorkerPool_inv w wp0 Hnew) as (_ & Hinv0 & Hempty).
  destruct (run_poolInv w evs wp0 wp Hinv0 Hrun) as [(_ & _ & _ & _ & Hwg) Hperm].
  rewrite Hempty in Hperm. simpl in Hperm.
  pose proof (Permutation_length Hperm) as Hlen. rewrite !length_app in Hlen.
  rewrite length_app in Hwg.
  split; [lia|]. split; [lia|].
  unfold Wait. split.
  - intros [u Hu]. case_decide as Hz; [|done].
    assert (running wp = [] /\ waitingTasks wp = []) as [Hr Hwt].
    { split; apply length_zero_iff_nil; lia. }
    by rewrite Hr, Hwt, !app_nil_r in Hperm.
  - intros Hdone. rewrite decide_True; [done|].
    apply Permutation_length in Hdone. lia.
Qed.

(** X10.  A pool built for zero workers never runs anything: its channel
    is unbuffered and nobody receives, so every [Submit] stays blocked at
    the send, nothing is queued, executed or completed, and [Wait] blocks
    as soon as one task has been submitted. *)
Theorem zero_workers_run_nothing (evs : list (Event Task)) wp0 wp :
  NewWorkerPool 0 = Some wp0 ->
  run wp0 evs = Some wp ->
  completed wp = [] /\ executing wp = 0%nat /\ taskQueue wp = [] /\
  blocked wp = submitted evs /\
  (submitted evs <> [] -> Wait wp = None).
Proof.
  intros Hnew Hrun.
  assert (forall evs wp1 wp2,
            workerOf wp1 = [] -> taskQueueCap wp1 = 0 -> taskQueue wp1 = [] ->
            completed wp1 = [] ->
            run wp1 evs = Some wp2 ->
            workerOf wp2 = [] /\ taskQueue wp2 = [] /\ completed wp2 = [] /\
            blocked wp2 = blocked wp1 ++ submitted evs /\
            wg wp2 = wg wp1 + Z.of_nat (length (submitted evs))) as Hgen.
  { clear. intros evs. induction evs as [|e evs IH]; intros wp1 wp2 Hws Hcap Hq Hc Hrun2.
    - simpl in Hrun2. simplify_eq. unfold submitted. simpl.
      rewrite app_nil_r. repeat split; try done. lia.
    - simpl in Hrun2. destruct (step wp1 e) as [wp'|] eqn:Hstep; [|done].
      destruct e as [task|j|i|i]; simpl in Hstep.
      + rewrite Hq, Hcap in Hstep. simpl in Hstep. simplify_eq.
        apply IH in Hrun2 as (H1 & H2 & H3 & H4 & H5); [|done..].
        simpl in *. repeat split; try done.
        * rewrite H4. unfold submitted. simpl. by rewrite <- app_assoc.
        * rewrite H5. unfold submitted. simpl. lia.
      + destruct (blocked wp1 !! j); [|done].
        rewrite Hq, Hcap in Hstep. simpl in Hstep. done.
      + by rewrite Hws in Hstep.
      + by rewrite Hws in Hstep. }
  unfold NewWorkerPool in Hnew. simpl in Hnew. simplify_eq.
  apply Hgen in Hrun as (Hws & Hq & Hc & Hb & Hwg); [|done..].
  simpl in *. split; [done|]. split; [by unfold executing; rewrite Hws|].
  split; [done|]. split; [done|].
  intros Hne. unfold Wait. rewrite decide_False; [done|].
  rewrite Hwg. destruct (submitted evs); [done|]. simpl. lia.
Qed.

Lemma omap_id_nonempty ws :
  omap id ws <> [] -> exists i t, ws !! i = Some (Some t).
Proof.
  induction ws as [|[t|] ws IH]; intros Hne; [done| |].
  - by exists 0%nat, t.
  - destruct (IH Hne) as (i & t & Hi). by exists (S i), t.
Qed.

Lemma omap_id_empty ws i x : omap id ws = [] -> ws !! i = Some x -> x = None.
Proof.
  revert i. induction ws as [|[t|] ws IH]; intros i Hnil Hi.
  - by rewrite lookup_nil in Hi.
  - simpl in Hnil. discriminate Hnil.
  - simpl in Hnil. destruct i as [|i]; simpl in Hi.
    + by injection Hi as <-.
    + by eapply IH.
Qed.

(** While something is left to do, a pool with at least one worker can
    take a step, other than a new submission, that leaves less to do. *)
Lemma backlog_step (w : Z) wp :
  1 <= w -> poolInv w wp -> (0 < backlog wp)%nat ->
  exists e wp', submitted [e] = [] /\ step wp e = Some wp' /\
                (backlog wp' < backlog wp)%nat.
Proof.
  intros Hw (Hws & Hcap & Hlen & Hq & Hwg) Hpos.
  unfold backlog in *. rewrite executing_running in Hpos.
  destruct (decide (running wp = [])) as [Hidle|Hbusy].
  - assert (workerOf wp !! 0%nat = Some None) as Hw0.
    { destruct (workerOf wp !! 0%nat) as [x|] eqn:H0.
      - by rewrite (omap_id_empty _ _ _ Hidle H0).
      - apply lookup_ge_None in H0. lia. }
    destruct (taskQueue wp) as [|t rest] eqn:Hqueue.
    + destruct (blocked wp) as [|t bs] eqn:Hb.
      { rewrite Hidle in Hpos. simpl in Hpos. lia. }
      eexists (Unblock 0), _. split; [done|]. split.
      * simpl. rewrite Hb. simpl. rewrite Hqueue, Hcap. simpl.
        rewrite decide_True by lia. reflexivity.
      * rewrite !executing_running. unfold running. simpl. lia.
    + eexists (Take 0), _. split; [done|]. split.
      * simpl. rewrite Hw0, Hqueue. reflexivity.
      * rewrite !executing_running. unfold running. simpl.
        rewrite (running_start _ _ _ Hw0). fold (running wp). rewrite Hidle. simpl. lia.
  - destruct (omap_id_nonempty _ Hbusy) as (i & t & Hi).
    eexists (Finish i), _. split; [done|]. split.
    + simpl. rewrite Hi. reflexivity.
    + rewrite !executing_running. unfold running. simpl.
      rewrite (running_finish _ _ _ Hi). simpl. lia.
Qed.

Lemma drain (w : Z) (n : nat) wp :
  1 <= w -> poolInv w wp -> (backlog wp <= n)%nat ->
  exists evs wp', submitted evs = [] /\ run wp evs = Some wp' /\ backlog wp' = 0%nat.
Proof.
  intros Hw. revert wp. induction n as [|n IH]; intros wp Hinv Hn.
  - exists [], wp. split; [done|]. split; [done|lia].
  - destruct (decide (backlog wp = 0%nat)) as [Hz|Hnz].
    { by exists [], wp. }
    destruct (backlog_step w wp Hw Hinv) as (e & wp1 & He & Hstep & Hlt); [lia|].
    destruct (IH wp1) as (evs & wp2 & Hevs & Hrun & Hzero);
      [by eapply step_poolInv | lia |].
    exists (e :: evs), wp2. split; [|split; [|done]].
    + unfold submitted in *. simpl. destruct e; simpl in *; done.
    + simpl. by rewrite Hstep.
Qed.

(** X11.  A pool with at least one worker never gets stuck: from every
    state it can reach, without any further submission, the workers can
    carry on until every task that was submitted has completed, nothing
    is queued or blocked, and [Wait] returns. *)
Theorem pool_can_drain (w : Z) (evs : list (Event Task)) wp0 wp :
  1 <= w ->
  NewWorkerPool w = Some wp0 ->
  run wp0 evs = Some wp ->
  exists evs' wp',
    submitted evs' = [] /\
    run wp evs' = Some wp' /\
    completed wp' ≡ₚ submitted evs /\
    executing wp' = 0%nat /\ taskQueue wp' = [] /\ blocked wp' = [] /\
    Wait wp' = Some tt.
Proof.
  intros Hw Hnew Hrun.
  destruct (NewWorkerPool_inv w wp0 Hnew) as (_ & Hinv0 & Hempty).
  destruct (run_poolInv w evs wp0 wp Hinv0 Hrun) as [Hinv Hperm].
  destruct (drain w (backlog wp) wp Hw Hinv (le_n _)) as (evs' & wp' & Hsub & Hrun' & Hz).
  destruct (run_poolInv w evs' wp wp' Hinv Hrun') as [(_ & _ & _ & _ & Hwg) Hperm'].
  unfold backlog in Hz.
  assert (blocked wp' = [] /\ taskQueue wp' = [] /\ executing wp' = 0%nat)
    as (Hb & Hq & He).
  { repeat split; [apply length_zero_iff_nil; lia | apply length_zero_iff_nil; lia | lia]. }
  assert (running wp' = []) as Hr.
  { apply length_zero_iff_nil. by rewrite <- executing_running. }
  exists evs', wp'. split; [done|]. split; [done|]. split.
  - rewrite Hsub, app_nil_r in Hperm'. rewrite Hempty in Hperm. simpl in Hperm.
    unfold waitingTasks in Hperm'. rewrite Hr, Hq, Hb in Hperm'. simpl in Hperm'.
    rewrite app_nil_r in Hperm'. by rewrite Hperm'.
  - split; [done|]. split; [done|]. split; [done|].
    unfold Wait. rewrite decide_True; [done|].
    rewrite Hwg. unfold waitingTasks. by rewrite Hr, Hq, Hb.
Qed.

End More.

Lemma Wait_returns_when_done_witness :
  exists wp0 wp,
    NewWorkerPool 2 = Some wp0 /\ run wp0 sixTasks = Some wp /\ wg wp = 5.
Proof.
  destruct (NewWorkerPool (Task := nat) 2) as [wp0|] eqn:Hnew;
    [|vm_compute in Hnew; discriminate Hnew].
  destruct (run wp0 sixTasks) as [wp|] eqn:Hrun;
    [|vm_compute in Hnew; injection Hnew as <-; vm_compute in Hrun; discriminate Hrun].
  pose proof (Wait_returns_when_done 2 sixTasks wp0 wp Hnew Hrun) as (Hwg & _).
  exists wp0, wp. split; [reflexivity|]. split; [exact Hrun|].
  rewrite Hwg.
  vm_compute in Hnew. injection Hnew as <-. vm_compute in Hrun. injection Hrun as <-.
  reflexivity.
Defined.

Lemma zero_workers_run_nothing_witness :
  exists wp0 wp,
    NewWorkerPool 0 = Some wp0 /\
    run wp0 [Submit 7%nat; Submit 8%nat] = Some wp /\
    completed wp = [] /\ blocked wp = [7%nat; 8%nat].
Proof.
  destruct (NewWorkerPool (Task := nat) 0) as [wp0|] eqn:Hnew;
    [|vm_compute in Hnew; discriminate Hnew].
  destruct (run wp0 [Submit 7%nat; Submit 8%nat]) as [wp|] eqn:Hrun;
    [|vm_compute in Hnew; injection Hnew as <-; vm_compute in Hrun; discriminate Hrun].
  pose proof (zero_workers_run_nothing _ wp0 wp Hnew Hrun) as (Hc & _ & _ & Hb & _).
  exists wp0, wp. split; [reflexivity|]. split; [exact Hrun|]. split; [exact Hc|].
  exact Hb.
Defined.

Lemma pool_can_drain_witness :
  exists wp0 wp evs' wp',
    NewWorkerPool 2 = Some wp0 /\ run wp0 sixTasks = Some wp /\
    run wp evs' = Some wp' /\ completed wp' ≡ₚ submitted sixTasks.
Proof.
  destruct (NewWorkerPool (Task := nat) 2) as [wp0|] eqn:Hnew;
    [|vm_compute in Hnew; discriminate Hnew].
  destruct (run wp0 sixTasks) as [wp|] eqn:Hrun;
    [|vm_compute in Hnew; injection Hnew as <-; vm_compute in Hrun; discriminate Hrun].
  destruct (pool_can_drain 2 sixTasks wp0 wp ltac:(lia) Hnew Hrun)
    as (evs' & wp' & _ & Hrun' & Hperm & _).
  exists wp0, wp, evs', wp'. split; [reflexivity|]. split; [exact Hrun|].
  split; [exact Hrun'|exact Hperm].
Defined.

End WorkerPoolMore.

(** ** The work done for a batch *)

Lemma bind_Permutation_members {A B} (g1 g2 : A -> list B) (l : list A) :
  (forall x, x ∈ l -> g1 x ≡ₚ g2 x) -> l ≫= g1 ≡ₚ l ≫= g2.
Proof.
  induction l as [|a l IH]; intros Hg; [done|].
  rewrite !bind_cons, IH, Hg; [done|by left|].
  intros x Hx. apply Hg. by right.
Qed.

Lemma groupBy_nonempty (f : OptimizedRequest -> string) (l : list OptimizedRequest)
    (k : string) (g : list OptimizedRequest) :
  groupBy f l !! k = Some g -> g <> [].
Proof.
  unfold groupBy.
  assert (forall (m : gmap string (list OptimizedRequest)),
            (forall k g, m !! k = Some g -> g <> []) ->
            forall k g, foldl (fun m req => groupAppend (f req) req m) m l !! k = Some g ->
                        g <> []) as Hgen.
  { induction l as [|r l IH]; intros m Hm k' g' Hk; simpl in Hk; [by eapply Hm|].
    eapply IH; [|exact Hk]. intros k2 g2. unfold groupAppend.
    rewrite lookup_insert_Some. intros [[_ <-]|[_ Hk2]]; [|by eapply Hm].
    by destruct (m !!! f r). }
  apply Hgen. intros k' g'. by rewrite lookup_empty.
Qed.

(** The keys of the groups are the keys of the requests. *)
Lemma groupBy_keys (f : OptimizedRequest -> string) (l : list OptimizedRequest) :
  (map_to_list (groupBy f l)).*1 ≡ₚ remove_dups (f <$> l).
Proof.
  apply NoDup_Permutation; [apply NoDup_fst_map_to_list | apply NoDup_remove_dups|].
  intros k. rewrite elem_of_remove_dups, !list_elem_of_fmap. split.
  - intros ([k' g] & -> & Hin). simpl.
    pose proof Hin as Hk. apply elem_of_map_to_list in Hk.
    apply groupBy_nonempty in Hk. apply groupBy_entry in Hin. subst g.
    destruct (filter (fun r => f r = k') l) as [|r rest] eqn:Hf; [done|].
    assert (r ∈ filter (fun r => f r = k') l) as Hr by (rewrite Hf; left).
    apply list_elem_of_filter in Hr as [Hfr Hr]. by exists r.
  - intros (r & -> & Hr). eexists (_, _). split; [|by apply groupBy_has_entry]. done.
Qed.

(** The members of the groups other than the one under [k]. *)
Lemma groupBy_other_members (f : OptimizedRequest -> string) (l : list OptimizedRequest)
    (k : string) :
  map_to_list (delete k (groupBy f l)) ≫= snd ≡ₚ filter (fun r => f r <> k) l.
Proof.
  destruct (groupBy f l !! k) as [g|] eqn:Hk.
  - pose proof (groupBy_members f l) as Hall.
    rewrite <- (map_to_list_delete _ _ _ Hk), bind_cons in Hall. simpl in Hall.
    apply elem_of_map_to_list, groupBy_entry in Hk. subst g.
    rewrite <- (filter_app_complement (fun r => f r = k) l) in Hall at 3.
    by apply (inj (app _)) in Hall.
  - rewrite delete_id by done. rewrite groupBy_members.
    symmetry. rewrite <- (filter_app_complement (fun r => f r = k) l) at 2.
    assert (filter (fun r => f r = k) l = []) as ->; [|done].
    destruct (filter (fun r => f r = k) l) as [|r rest] eqn:Hf; [done|].
    assert (r ∈ filter (fun r => f r = k) l) as Hr by (rewrite Hf; left).
    apply list_elem_of_filter in Hr as [<- Hr].
    apply groupBy_has_entry with (f := f) in Hr.
    apply elem_of_map_to_list in Hr. congruence.
Qed.

Lemma remove_dups_length (l : list string) :
  (length (remove_dups l) <= length l)%nat.
Proof.
  induction l as [|x l IH]; [done|].
  simpl. destruct (decide_rel elem_of x l); simpl; lia.
Qed.

Section BatchWork.
Context {sched : Schedule}.

(** The executions of a batch: one per request that is not an "analyze"
    request, and one per target of the "analyze" requests. *)
Lemma batchExecutions_perm (batch : list OptimizedRequest) :
  batchExecutions batch
  ≡ₚ ((fun r => Processed (Command r))
        <$> filter (fun r => commandTypeOf r <> "analyze") batch)
     ++ (Analyzed <$> remove_dups
           (targetOf <$> filter (fun r => commandTypeOf r = "analyze") batch)).
Proof.
  unfold batchExecutions. rewrite groupsOf_perm.
  set (G := groupBy commandTypeOf batch).
  set (A := filter (fun r => commandTypeOf r = "analyze") batch).
  assert (map_to_list (delete "analyze" G) ≫= groupExecutions
          ≡ₚ (fun r => Processed (Command r))
               <$> filter (fun r => commandTypeOf r <> "analyze") batch) as Hrest.
  { rewrite <- (groupBy_other_members commandTypeOf batch "analyze").
    rewrite fmap_bind_list. apply bind_Permutation_members.
    intros [ct g] Hin. apply elem_of_map_to_list in Hin.
    apply lookup_delete_Some in Hin as [Hne _].
    unfold groupExecutions. simpl. rewrite decide_False by done.
    destruct (decide (ct = "test")); [|done]. by rewrite order_perm. }
  destruct (G !! "analyze") as [g|] eqn:Hk.
  - rewrite <- (map_to_list_delete _ _ _ Hk), bind_cons, Hrest.
    rewrite (comm (++)). apply Permutation_app; [done|].
    apply elem_of_map_to_list, groupBy_entry in Hk. subst g. fold A.
    unfold groupExecutions. simpl.
    rewrite targetsOf_perm, <- groupBy_keys, <- list_fmap_compose. done.
  - rewrite <- (delete_id G "analyze") by done. rewrite Hrest.
    assert (A = []) as ->; [|by rewrite app_nil_r].
    destruct A as [|r rest] eqn:HA; [done|].
    assert (r ∈ A) as Hr by (rewrite HA; left).
    apply list_elem_of_filter in Hr as [Hty Hr].
    apply groupBy_has_entry with (f := commandTypeOf) in Hr.
    apply elem_of_map_to_list in Hr. rewrite Hty in Hr. fold G in Hr. congruence.
Qed.

(** X12.  A request of a flushed batch whose command type is not "analyze"
    (the parallel strategy of "test" and the default strategy alike) is
    processed on its own: it is sent the one response "Processed: " and
    its command, with a batch size of 1, and the handler runs once for
    every such request, also when several of them carry the same
    command. *)
Theorem individual_processing (now : Z) (batch : list OptimizedRequest) (d : Dispatch)
    (r : OptimizedRequest) :
  NoDup (Response <$> batch) ->
  r ∈ batch ->
  commandTypeOf r <> "analyze" ->
  chans (processBatch now batch d) !!! Response r
  = chans d !!! Response r
    ++ [{| Result := "Processed: " +:+ Command r; Error := None; CacheHit := false;
           BatchSize := 1; Duration := Time.Since now (Timestamp r) |}] /\
  length (filter (fun x => x = Processed (Command r)) (batchExecutions batch))
  = length (filter (fun r' => commandTypeOf r' <> "analyze" /\ Command r' = Command r)
              batch).
Proof.
  intros Hnd Hr Hty. split.
  - rewrite processBatch_response by done. by rewrite decide_False by done.
  - rewrite batchExecutions_perm, filter_app, length_app.
    assert (forall l : list string,
              filter (fun x => x = Processed (Command r)) (Analyzed <$> l) = []) as Hnone.
    { intros l. induction l as [|x l IH]; [done|].
      by rewrite fmap_cons, filter_cons_False. }
    rewrite Hnone, Nat.add_0_r, filter_fmap_length, list_filter_filter.
    f_equal. apply list_filter_iff. intros r'. split.
    + intros [[= Hc] Hne]. by split.
    + intros [Hne Hc]. split; [by rewrite Hc|done].
Qed.

(** X13.  Combining never adds work: a batch costs one execution for every
    request that is not an "analyze" request plus one for every distinct
    target among its "analyze" requests, which is at most one execution
    per request; [processBatch] adds exactly these executions to the
    log. *)
Theorem batch_work_bound (now : Z) (batch : list OptimizedRequest) (d : Dispatch) :
  executions (processBatch now batch d) = executions d ++ batchExecutions batch /\
  length (batchExecutions batch)
  = (length (filter (fun r => commandTypeOf r <> "analyze") batch)
     + length (remove_dups
                 (targetOf <$> filter (fun r => commandTypeOf r = "analyze") batch)))%nat /\
  (length (batchExecutions batch) <= length batch)%nat.
Proof.
  split; [by destruct (processBatch_effects now batch d) as [He _]|].
  rewrite batchExecutions_perm, length_app, !length_fmap. split; [done|].
  rewrite <- (filter_app_complement (fun r => commandTypeOf r = "analyze") batch) at 3.
  rewrite length_app.
  pose proof (remove_dups_length
                (targetOf <$> filter (fun r => commandTypeOf r = "analyze") batch)) as Hsub.
  rewrite length_fmap in Hsub. lia.
Qed.

(** A batch of one request. *)
Lemma batchDeliveries_one (now : Z) (r : OptimizedRequest) :
  batchDeliveries now [r]
  = [(r, if decide (commandTypeOf r = "analyze")
         then combinedResponse now (targetOf r) 1 r
         else singleResponse now r)].
Proof.
  pose proof (batchDeliveries_fst now [r]) as Hfst.
  apply Permutation_singleton_r in Hfst.
  destruct (batchDeliveries now [r]) as [|[r' v] [|? ?]] eqn:HD; [done| |done].
  simpl in Hfst. injection Hfst as ->.
  assert ((r, v) ∈ batchDeliveries now [r]) as Hin by (rewrite HD; left).
  apply batchDeliveries_elem in Hin as [_ ->]. do 2 f_equal.
  destruct (decide (commandTypeOf r = "analyze")) as [Hty|Hty]; [|done].
  unfold sharers. by rewrite !filter_cons_True, !filter_nil by done.
Qed.

Lemma batchExecutions_one (r : OptimizedRequest) :
  batchExecutions [r]
  = [if decide (commandTypeOf r = "analyze")
     then Analyzed (targetOf r) else Processed (Command r)].
Proof.
  pose proof (batchExecutions_perm [r]) as Hp.
  destruct (decide (commandTypeOf r = "analyze")) as [Hty|Hty].
  - rewrite filter_cons_False, filter_cons_True, !filter_nil in Hp by (done || by intros []).
    by apply Permutation_singleton_r in Hp.
  - rewrite filter_cons_True, filter_cons_False, !filter_nil in Hp by done.
    by apply Permutation_singleton_r in Hp.
Qed.

(** X14.  The two ways a request can be served.  When the queue is full
    [OptimizeCommand] calls [processSingleRequest] itself; otherwise the
    request goes through [processBatch].  For a request that is alone in
    its batch the two agree, in what is sent on every channel and in what
    is executed, unless the command type is "analyze": there the fallback
    answers "Processed: ..." where the batch path answers "Combined
    analysis of ... for 1 requests", so the answer to one and the same
    command depends on how full the queue was. *)
Theorem fallback_vs_batch (now : Z) (r : OptimizedRequest) (d : Dispatch) :
  (commandTypeOf r <> "analyze" ->
   executions (processBatch now [r] d) = executions (processSingleRequest now r d) /\
   forall ch, chans (processBatch now [r] d) !!! ch
              = chans (processSingleRequest now r d) !!! ch) /\
  (commandTypeOf r = "analyze" ->
   chans (processSingleRequest now r d) !!! Response r
   = chans d !!! Response r ++ [singleResponse now r] /\
   chans (processBatch now [r] d) !!! Response r
   = chans d !!! Response r ++ [combinedResponse now (targetOf r) 1 r] /\
   Result (singleResponse now r) <> Result (combinedResponse now (targetOf r) 1 r) /\
   executions (processSingleRequest now r d) = executions d ++ [Processed (Command r)] /\
   executions (processBatch now [r] d) = executions d ++ [Analyzed (targetOf r)]).
Proof.
  destruct (processBatch_effects now [r] d) as [HbE HbC].
  destruct (processSingleRequest_effects now r d) as [HsE HsC].
  rewrite batchExecutions_one in HbE.
  split; intros Hty.
  - rewrite decide_False in HbE by done. split; [congruence|].
    intros ch. rewrite HbC, HsC, batchDeliveries_one. by rewrite decide_False by done.
  - rewrite decide_True in HbE by done.
    split; [|split; [|split; [|done]]].
    + rewrite HsC. unfold responsesOn. by rewrite filter_cons_True by done.
    + rewrite HbC, batchDeliveries_one, decide_True by done.
      unfold responsesOn. by rewrite filter_cons_True by done.
    + simpl. rewrite !append_cons. discriminate.
Qed.

End BatchWork.

Lemma individual_processing_witness :
  chans (processBatch (sched := inOrder) 7 (fiveRequests "/user:test ./...")
           {| chans := ∅; executions := [] |}) !!! 3%nat
  = [{| Result := "Processed: /user:test ./..."; Error := None; CacheHit := false;
        BatchSize := 1; Duration := 7 |}].
Proof.
  assert (NoDup (Response <$> fiveRequests "/user:test ./...")) as Hnd by compute_done.
  assert ({| Command := "/user:test ./..."; SessionID := "s1"; Context := 0%nat;
             Response := 3%nat; Timestamp := 0 |} ∈ fiveRequests "/user:test ./...")
    as Hr3 by (vm_compute; repeat constructor).
  destruct (individual_processing (sched := inOrder) 7 _
              {| chans := ∅; executions := [] |} _ Hnd Hr3) as [Hresp _].
  { vm_compute. discriminate. }
  etrans; [exact Hresp|]. vm_compute. reflexivity.
Defined.

Lemma fallback_vs_batch_witness :
  Result (singleResponse 5 analyzeSrc) = "Processed: /user:analyze src" /\
  Result (combinedResponse 5 "src" 1 analyzeSrc)
  = "Combined analysis of src for 1 requests" /\
  executions (processBatch (sched := inOrder) 5 [analyzeSrc]
                {| chans := ∅; executions := [] |})
  = [Analyzed "src"].
Proof.
  destruct (fallback_vs_batch (sched := inOrder) 5 analyzeSrc
              {| chans := ∅; executions := [] |}) as [_ Han].
  destruct Han as (_ & _ & _ & _ & Hex); [by vm_compute|].
  split; [by vm_compute|]. split; [by vm_compute|].
  etrans; [exact Hex|]. by vm_compute.
Defined.

(** ** The responses in flight and the values returned *)

Lemma responsesOn_elem (ch : nat) (D : list Delivery) (resp : OptimizedResponse) :
  resp ∈ responsesOn ch D -> exists r, (r, resp) ∈ D.
Proof.
  unfold responsesOn. intros ([r v] & -> & Hin)%list_elem_of_fmap.
  apply list_elem_of_filter in Hin as [_ Hin]. by exists r.
Qed.

Lemma viaChannel_single (now : Z) (r : OptimizedRequest) :
  viaChannel (singleResponse now r).
Proof. by unfold viaChannel. Qed.

Section Shape.
Context {sched : Schedule}.

Lemma viaChannel_batch (now : Z) (b : list OptimizedRequest) (r : OptimizedRequest)
    (v : OptimizedResponse) :
  (r, v) ∈ batchDeliveries now b -> viaChannel v.
Proof.
  intros [Hr ->]%batchDeliveries_elem.
  destruct (decide (commandTypeOf r = "analyze")) as [Hty|Hty];
    [|apply viaChannel_single].
  split; [done|]. split; [done|]. simpl.
  assert (r ∈ sharers b r) as Hin by by apply sharers_elem.
  destruct (sharers b r); [by apply not_elem_of_nil in Hin|]. simpl. lia.
Qed.

Lemma step_shaped (s s' : System) (e : Event) :
  shaped s -> step s e = Some s' -> shaped s'.
Proof.
  intros [Hch Hret] Hstep.
  destruct e; cbn -[processSingleRequest processBatch] in Hstep;
    repeat case_match; simplify_eq; (split; [intros ch' resp'|intros ret']);
    cbn -[processSingleRequest processBatch]; try (by apply Hch); try (by apply Hret).
  - (* served from the cache *)
    intros [Hin| ->%list_elem_of_singleton]%elem_of_app; [by apply Hret|done].
  - (* the fallback *)
    destruct (processSingleRequest_effects now (req c) (disp s)) as [_ ->].
    intros [Hin|[r Hin]%responsesOn_elem]%elem_of_app; [by eapply Hch|].
    apply list_elem_of_singleton in Hin as [= -> ->]. apply viaChannel_single.
  - (* a flush on size *)
    destruct (processBatch_effects now (batch s ++ [o]) (disp s)) as [_ ->].
    intros [Hin|[r Hin]%responsesOn_elem]%elem_of_app; [by eapply Hch|].
    by eapply viaChannel_batch.
  - (* a flush on the timer *)
    destruct (processBatch_effects now (batch s) (disp s)) as [_ ->].
    intros [Hin|[r Hin]%responsesOn_elem]%elem_of_app; [by eapply Hch|].
    by eapply viaChannel_batch.
  - intros [Hin| ->%list_elem_of_singleton]%elem_of_app; [by apply Hret|].
    apply (Hch ch). destruct (chans (disp s) !!! ch); simplify_eq/=. left.
  - intros [Hin| ->%list_elem_of_singleton]%elem_of_app; [by apply Hret|done].
  - intros [Hin| ->%list_elem_of_singleton]%elem_of_app; [by apply Hret|].
    apply (Hch ch). destruct (chans (disp s) !!! ch); simplify_eq/=. left.
  - intros [Hin| ->%list_elem_of_singleton]%elem_of_app; [by apply Hret|done].
Qed.

Lemma run_shaped (evs : list Event) (s s' : System) :
  shaped s -> run s evs = Some s' -> shaped s'.
Proof.
  revert s. induction evs as [|e evs IH]; intros s Hs Hrun; simpl in Hrun.
  - by simplify_eq.
  - destruct (step s e) as [s1|] eqn:Hstep; [|done].
    eapply IH; [|done]. by eapply step_shaped.
Qed.

(** X15.  What travels through the optimizer.  In every state of a run
    each response sent on a response channel has no error, is not a cache
    hit and reports a batch size of at least 1; what [OptimizeCommand]
    returned is such a response, or the response built from a cache entry
    (a cache hit, batch size 0), or the error of a context that is done:
    never a response that carries an error.  So the test before the store
    in [OptimizeCommand] always succeeds: whenever the second [select]
    takes the response, the response is cached under the caller's key with
    the instant of the store. *)
Theorem responses_shape (o : Optimizer) (evs : list Event) (s : System) :
  run (initial o) evs = Some s ->
  (forall ch resp, resp ∈ chans (disp s) !!! ch ->
     Error resp = None /\ CacheHit resp = false /\ 1 <= BatchSize resp) /\
  (forall ret, ret ∈ returns s -> returnShape ret) /\
  (forall ch c pick now s',
     callers s !! ch = Some c ->
     step s (Select ch pick now) = Some s' ->
     (exists err, s' = abandon ch c err s) \/
     (exists resp,
        s' = complete now ch c resp s /\
        cache (opt s') !! callerKey c
        = Some {| CacheEntry.Data := Result resp; CacheEntry.Timestamp := now |})).
Proof.
  intros Hrun.
  assert (shaped s) as [Hch Hret].
  { eapply run_shaped; [|done]. split.
    - intros ch resp. simpl. rewrite lookup_total_empty. by intros ?%not_elem_of_nil.
    - intros ret. simpl. by intros ?%not_elem_of_nil. }
  split; [done|]. split; [done|].
  intros ch c pick now s' Hc Hstep. simpl in Hstep. rewrite Hc in Hstep.
  assert (forall resp, head (chans (disp s) !!! ch) = Some resp ->
            cache (opt (complete now ch c resp s)) !! callerKey c
            = Some {| CacheEntry.Data := Result resp; CacheEntry.Timestamp := now |})
    as Hstore.
  { intros resp Hhd.
    assert (viaChannel resp) as (He & Hh & _).
    { apply (Hch ch). destruct (chans (disp s) !!! ch); simplify_eq/=. left. }
    unfold complete. simpl. rewrite decide_True by done. by rewrite lookup_insert_eq. }
  repeat case_match; simplify_eq.
  - right. eexists. split; [done|]. by apply Hstore.
  - left. by eexists.
  - right. eexists. split; [done|]. by apply Hstore.
  - left. by eexists.
Qed.

End Shape.

Lemma responses_shape_witness :
  exists s,
    run (sched := inOrder) (initial (NewOptimizer 4)) hitTrace = Some s /\
    forall ret, ret ∈ returns s -> returnShape ret.
Proof.
  destruct (run (sched := inOrder) (initial (NewOptimizer 4)) hitTrace) as [s|] eqn:Hrun;
    [|vm_compute in Hrun; discriminate Hrun].
  exists s. split; [done|].
  destruct (responses_shape (sched := inOrder) _ _ _ Hrun) as (_ & Hret & _). exact Hret.
Defined.

(** ** Where the cache entries come from *)

Section Provenance.
Context {sched : Schedule}.

Lemma provenance_returns (s s' : System) (rets : list Return) :
  provenance s -> cache (opt s') = cache (opt s) -> returns s' = returns s ++ rets ->
  provenance s'.
Proof.
  intros Hp Hc Hr k e. rewrite Hc, Hr. intros (ret & resp & Hin & H)%Hp.
  exists ret, resp. split; [|done]. apply elem_of_app. by left.
Qed.

Lemma step_provenance (s s' : System) (e : Event) :
  provenance s -> step s e = Some s' -> provenance s'.
Proof.
  intros Hp Hstep.
  assert (forall now ch c resp, provenance (complete now ch c resp s)) as Hcomplete.
  { intros now ch c resp k e'. unfold complete. simpl.
    case_decide as Hok.
    - rewrite lookup_insert_Some. intros [[<- <-]|[_ Hk]].
      + eexists _, resp. split; [apply elem_of_app; right; left|]. done.
      + apply Hp in Hk as (ret & resp' & Hin & H).
        exists ret, resp'. split; [|done]. apply elem_of_app. by left.
    - intros (ret & resp' & Hin & H)%Hp.
      exists ret, resp'. split; [|done]. apply elem_of_app. by left. }
  destruct e; cbn -[processSingleRequest processBatch complete] in Hstep;
    repeat case_match; simplify_eq; try done;
    try (by eapply (provenance_returns s _ []); [done|done|by rewrite app_nil_r]);
    try (by eapply provenance_returns; [done|done|done]).
  (* the cleaner deletes *)
  intros k e'. simpl. rewrite lookup_delete_Some. intros [_ Hk]. by apply Hp.
Qed.

Lemma run_provenance (evs : list Event) (s s' : System) :
  provenance s -> run s evs = Some s' -> provenance s'.
Proof.
  revert s. induction evs as [|e evs IH]; intros s Hs Hrun; simpl in Hrun.
  - by simplify_eq.
  - destruct (step s e) as [s1|] eqn:Hstep; [|done].
    eapply IH; [|done]. by eapply step_provenance.
Qed.

(** X16.  The cache holds only what was returned.  Starting with an empty
    cache, in every state of a run each cache entry is the result of a
    response that some call received on its response channel and
    returned, filed under that call's key: a call that ends with the
    error of its context, a response that stays unread, and the cleaner
    never put anything into the cache. *)
Theorem cache_provenance (o : Optimizer) (evs : list Event) (s : System)
    (k : string) (e : CacheEntry) :
  cache o = ∅ ->
  run (initial o) evs = Some s ->
  cache (opt s) !! k = Some e ->
  exists ret resp,
    ret ∈ returns s /\ retKey ret = k /\ retChan ret <> None /\
    retOutcome ret = Returned resp /\ Result resp = CacheEntry.Data e.
Proof.
  intros Hempty Hrun. apply (run_provenance evs (initial o)); [|done].
  intros k' e'. simpl. by rewrite Hempty, lookup_empty.
Qed.

End Provenance.

Lemma cache_provenance_witness :
  exists s e,
    run (sched := inOrder) (initial (NewOptimizer 4)) hitTrace = Some s /\
    cache (opt s) !! "s1:/user:build A" = Some e /\
    exists ret resp,
      ret ∈ returns s /\ retKey ret = "s1:/user:build A" /\ retChan ret <> None /\
      retOutcome ret = Returned resp /\ Result resp = CacheEntry.Data e.
Proof.
  destruct (run (sched := inOrder) (initial (NewOptimizer 4)) hitTrace) as [s|] eqn:Hrun;
    [|vm_compute in Hrun; discriminate Hrun].
  destruct (cache (opt s) !! "s1:/user:build A") as [e|] eqn:He;
    [|vm_compute in Hrun; injection Hrun as <-; vm_compute in He; discriminate He].
  exists s, e. split; [done|]. split; [done|].
  by apply (cache_provenance (sched := inOrder) (NewOptimizer 4) hitTrace).
Defined.

(** ** The order of the requests through the collector *)

Section Fifo.
Context {sched : Schedule}.

Lemma step_inCollector (s s' : System) (e : Event) :
  onceInv s -> step s e = Some s' ->
  Response <$> inCollector s' = (Response <$> inCollector s) ++ handedOver [e].
Proof.
  intros (I1 & _) Hstep. unfold inCollector, handedOver.
  destruct e; cbn -[processSingleRequest processBatch] in Hstep;
    repeat case_match; simplify_eq; cbn -[processSingleRequest processBatch];
    rewrite ?app_nil_r; try done.
  - destruct (I1 _ _ H) as [Hr _]. rewrite !fmap_app. simpl. rewrite Hr.
    by rewrite <- !app_assoc.
  - rewrite bind_app. simpl. rewrite app_nil_r. by rewrite <- !app_assoc.
  - by rewrite <- !app_assoc.
  - rewrite bind_app. simpl. rewrite app_nil_r. by rewrite <- !app_assoc.
Qed.

Lemma run_inCollector (evs : list Event) (s s' : System) :
  onceInv s -> run s evs = Some s' ->
  Response <$> inCollector s' = (Response <$> inCollector s) ++ handedOver evs.
Proof.
  revert s. induction evs as [|e evs IH]; intros s Hs Hrun; simpl in Hrun.
  - simplify_eq. by rewrite app_nil_r.
  - destruct (step s e) as [s1|] eqn:Hstep; [|done].
    rewrite (IH s1); [|by eapply step_onceInv|done].
    rewrite (step_inCollector s s1 e) by done.
    rewrite <- app_assoc. f_equal. unfold handedOver. simpl. by destruct e.
Qed.

Lemma step_flushes_nonempty (s s' : System) (e : Event) :
  (forall cause b, (cause, b) ∈ flushes s -> b <> []) ->
  step s e = Some s' ->
  forall cause b, (cause, b) ∈ flushes s' -> b <> [].
Proof.
  intros Hne Hstep cause b.
  destruct e; cbn -[processSingleRequest processBatch] in Hstep;
    repeat case_match; simplify_eq; cbn -[processSingleRequest processBatch];
    try (by apply Hne).
  - intros [Hin|[= -> ->]%list_elem_of_singleton]%elem_of_app; [by eapply Hne|].
    by destruct (batch s).
  - intros [Hin|[= -> ->]%list_elem_of_singleton]%elem_of_app; [by eapply Hne|].
    destruct (batch s); [simpl in *; lia|done].
Qed.

Lemma run_flushes_nonempty (evs : list Event) (s s' : System) :
  (forall cause b, (cause, b) ∈ flushes s -> b <> []) ->
  run s evs = Some s' ->
  forall cause b, (cause, b) ∈ flushes s' -> b <> [].
Proof.
  revert s. induction evs as [|e evs IH]; intros s Hs Hrun; simpl in Hrun.
  - by simplify_eq.
  - destruct (step s e) as [s1|] eqn:Hstep; [|done].
    eapply IH; [|done]. by eapply step_flushes_nonempty.
Qed.

(** X17.  The collector neither loses, nor repeats, nor reorders.  The
    requests of the flushed batches, in the order of the flushes, followed
    by those in the buffer of [processBatches] and those still in the
    batch queue, are exactly the requests that were sent on the batch
    queue, in the order of the sends; and [processBatch] is never called
    on an empty batch. *)
Theorem collector_fifo (o : Optimizer) (evs : list Event) (s : System) :
  batchQueue o = [] ->
  run (initial o) evs = Some s ->
  Response <$> inCollector s = handedOver evs /\
  forall cause b, (cause, b) ∈ flushes s -> b <> [].
Proof.
  intros Hq Hrun. split.
  - rewrite (run_inCollector evs (initial o) s); [|by apply initial_onceInv|done].
    unfold inCollector. simpl. by rewrite Hq.
  - eapply run_flushes_nonempty; [|done]. simpl. by intros cause b ?%not_elem_of_nil.
Qed.

End Fifo.

Lemma collector_fifo_witness :
  exists s,
    run (sched := inOrder) (initial (NewOptimizer 4)) fullBatchTrace = Some s /\
    Response <$> inCollector s = seq 0 10.
Proof.
  destruct (run (sched := inOrder) (initial (NewOptimizer 4)) fullBatchTrace)
    as [s|] eqn:Hrun; [|vm_compute in Hrun; discriminate Hrun].
  exists s. split; [done|].
  destruct (collector_fifo (sched := inOrder) (NewOptimizer 4) fullBatchTrace s)
    as [Hfifo _]; [done|done|].
  etrans; [exact Hfifo|]. by vm_compute.
Defined.

(** ** The limits that are set and never read *)

Section Limits.
Context {sched : Schedule}.

Lemma step_limits (size ttl : Z) (s : System) (e : Event) :
  step (withOpt (withLimits size ttl (opt s)) s) e
  = (fun s1 => withOpt (withLimits size ttl (opt s1)) s1) <$> step s e.
Proof.
  destruct s as [[c ? ? ? ? ? ? ? ?] ? ? ? ? ? ? ? ?].
  destruct e; cbn -[processSingleRequest processBatch];
    repeat case_match; simplify_eq; try done.
Qed.

Lemma run_limits (size ttl : Z) (evs : list Event) (s : System) :
  run (withOpt (withLimits size ttl (opt s)) s) evs
  = (fun s1 => withOpt (withLimits size ttl (opt s1)) s1) <$> run s evs.
Proof.
  revert s. induction evs as [|e evs IH]; intros s; [done|].
  cbn [run]. rewrite step_limits. destruct (step s e) as [s1|]; [|done].
  simpl. apply IH.
Qed.

(** X19.  [cacheSize] and [cacheTTL] are set by [NewOptimizer] and never
    read.  Whatever values the two fields hold, every run goes through
    the same states: the same calls hit the cache, the same entries
    expire (after the 15 minutes written into [IsExpired], not after
    [cacheTTL]), the same entries are cleaned, and the same values are
    returned. *)
Theorem limits_never_read (size ttl : Z) (o : Optimizer) (evs : list Event) :
  run (initial (withLimits size ttl o)) evs
  = (fun s => withOpt (withLimits size ttl (opt s)) s) <$> run (initial o) evs.
Proof. apply (run_limits size ttl evs (initial o)). Qed.

End Limits.

(** ** The cache is not bounded *)

Lemma append_inj_l (a b b' : string) : a +:+ b = a +:+ b' -> b = b'.
Proof.
  induction a as [|x a IH]; [done|]. rewrite !append_cons. intros [= H]. by apply IH.
Qed.

Lemma distinctCommand_key (i j : nat) :
  cacheKey "s1" (distinctCommand i) = cacheKey "s1" (distinctCommand j) -> i = j.
Proof.
  unfold cacheKey, distinctCommand.
  intros H. do 3 apply append_inj_l in H. by apply (inj pretty) in H.
Qed.

Section Unbounded.
Context {sched : Schedule}.

Lemma servedRound_atRest (i : nat) (s : System) :
  atRest i s -> exists s', run s (servedRound i) = Some s' /\ atRest (S i) s'.
Proof.
  intros (Hb & Hq & Hcap & Hbs & Hcs & Hn & Hfree & Hsz & Hkeys).
  destruct s as [[c sz ttl q cap bs bd wp m] b d n cs dc cl fl rt]. simpl in *. subst.
  unfold servedRound.
  cbn -[processBatch cacheKey distinctCommand].
  rewrite (Hkeys (size c)) by done.
  cbn -[processBatch cacheKey distinctCommand].
  rewrite lookup_insert_eq.
  cbn -[processBatch cacheKey distinctCommand].
  rewrite decide_True by (simpl; lia).
  cbn -[processBatch cacheKey distinctCommand].
  rewrite decide_False by (simpl; lia).
  cbn -[processBatch cacheKey distinctCommand].
  rewrite decide_True by (simpl; lia).
  cbn -[processBatch cacheKey distinctCommand].
  rewrite lookup_insert_eq.
  cbn -[processBatch cacheKey distinctCommand].
  set (r := {| Command := distinctCommand (size c); SessionID := "s1"; Context := 0%nat;
               Response := size c; Timestamp := 0 |}).
  pose proof (processBatch_response 0 [r] d r) as Hresp. simpl in Hresp.
  rewrite Hresp by (by apply NoDup_singleton || left).
  destruct (Hfree (size c)) as [_ ->]; [done|].
  cbn -[processBatch cacheKey distinctCommand].
  assert (forall s1 : System,
            match dc !! 0%nat with Some _ | None => Some s1 end = Some s1) as Hpick
    by (intros s1; by destruct (dc !! 0%nat)).
  rewrite Hpick. cbn -[processBatch cacheKey distinctCommand].
  rewrite lookup_insert_eq. cbn -[processBatch cacheKey distinctCommand].
  eexists. split; [reflexivity|].
  unfold atRest. cbn -[processBatch cacheKey distinctCommand].
  rewrite decide_True by done.
  split; [done|]. split; [done|]. split; [done|]. split; [done|]. split; [done|].
  split; [done|]. split; [|split].
  - intros ch Hch. rewrite lookup_delete_ne, !lookup_insert_ne by lia.
    destruct (Hfree ch) as [Hcs Hd]; [lia|]. split; [done|].
    destruct (processBatch_effects 0 [r] d) as [_ ->].
    rewrite Hd, batchDeliveries_one. unfold responsesOn.
    rewrite filter_cons_False by (simpl; lia). done.
  - rewrite map_size_insert_None by by apply Hkeys. done.
  - intros j Hj. rewrite lookup_insert_ne; [apply Hkeys; lia|].
    intros Heq%distinctCommand_key. lia.
Qed.

(** X20.  The cache grows without bound: [cacheSize] limits nothing.  For
    every [n] there is a run, [n] calls with commands of their own served
    one after the other, that leaves [n] entries in the cache, so more
    than the 1000 of [cacheSize] as soon as [n] is. *)
Theorem cache_unbounded (numCPU : Z) (n : nat) :
  exists s,
    run (initial (NewOptimizer numCPU)) (servedRounds n) = Some s /\
    size (cache (opt s)) = n /\
    cacheSize (opt s) = 1000.
Proof.
  assert (exists s, run (initial (NewOptimizer numCPU)) (servedRounds n) = Some s /\
                    atRest n s) as (s & Hrun & Hrest).
  { induction n as [|n (s & Hrun & Hrest)].
    - exists (initial (NewOptimizer numCPU)). split; [done|].
      unfold atRest. simpl. rewrite map_size_empty.
      repeat split; done.
    - destruct (servedRound_atRest n s Hrest) as (s' & Hrun' & Hrest').
      exists s'. split; [|done].
      unfold servedRounds. rewrite seq_S, bind_app, run_app. fold (servedRounds n).
      rewrite Hrun. exact Hrun'. }
  exists s. split; [done|].
  destruct Hrest as (_ & _ & _ & _ & Hcs & _ & _ & Hsz & _). done.
Qed.

End Unbounded.
